(** * dependencyDiscoverer: a shallow embedding and its verification

    The program crawls C/yacc/lex sources for [#include "..."] lines with a
    pool of worker threads, records the discovered names in a shared table
    ([theTable]) and a shared work queue ([workQ]), and finally prints, for
    each target, the breadth-first closure of the table from [file.o].

    Layout of this file:
    - [Printer]: [MapSafe::getValue] and [printDependencies] (sequential,
      run by the main thread once every worker has been joined);
    - [Scanner]: [fgets], the per-line matcher of [process], [openFile];
    - [Startup]: [dirName], [parseFile], the assembly of [dirs], [std::stoi]
      on CRAWLER_THREADS and the seeding loop of [main];
    - [Pool]: the interleaving semantics of the worker threads and of the
      main thread, one transition per shared-memory operation;
    - [Texts], [Locks], [Outcome], [Ownership], [Contents], [Progress]: the
      predicates and measures in which the invariants of whole runs are
      stated.

    The definitions come first, module by module; the lemmas follow, one
    section per module.  The properties labelled C1 to C10 and X1 to X28
    stand where the lemmas they need are available; instances of those
    that have hypotheses close the file. *)

From Stdlib Require Import ZArith Ascii String List Lia.
From stdpp Require Import base option list strings gmap sets fin_maps.

Local Open Scope string_scope.
Local Open Scope Z_scope.
Local Open Scope nat_scope.
Local Open Scope list_scope.

(** ** The shared table and the printer *)

Module Printer.

(** [std::unordered_map<std::string, std::list<std::string>>] *)
Abbreviation Table := (gmap string (list string)).

(** [MapSafe::getValue]: [&this->map[string]].  [operator[]] default-inserts
    an empty list when the key is absent, so the call returns the list found
    and the (possibly grown) table. *)
Definition getValue (t : Table) (k : string) : list string * Table :=
  match t !! k with
  | Some l => (l, t)
  | None => ([], <[k := []]> t)
  end.

(** The dependency list the printer sees for a name. *)
Definition deps (t : Table) (k : string) : list string := (getValue t k).1.

(** State of one call to [printDependencies]: the two containers passed by
    pointer, what has been written to [fd] (one entry per [fprintf]), and the
    global table (which [getValue] may grow). *)
Record PState := mkPState {
  printed : gset string;
  toProcess : list string;
  written : list string;
  table : Table
}.

(** Body of the [for] loop over [ll] (steps 4a-4d), for one element. *)
Definition visit (st : PState) (d : string) : PState :=
  if decide (d ∈ printed st) then st
  else {| printed := {[d]} ∪ printed st;
          toProcess := toProcess st ++ [d];
          written := written st ++ [d];
          table := table st |}.

(** One iteration of the [while] loop (steps 2-4) on a non-empty list. *)
Definition iteration (name : string) (rest : list string) (st : PState) : PState :=
  let '(ll, t') := getValue (table st) name in
  fold_left visit ll
    {| printed := printed st; toProcess := rest;
       written := written st; table := t' |}.

(** [printDependencies]: the [while (toProcess->size() > 0)] loop.  The
    null-pointer guard of the source never fires for the calls of [main]
    (addresses of locals and [stdout]).  [fuel] bounds the iterations. *)
Fixpoint printDependencies (fuel : nat) (st : PState) : option PState :=
  match toProcess st with
  | [] => Some st
  | name :: rest =>
      match fuel with
      | O => None
      | S fuel' => printDependencies fuel' (iteration name rest st)
      end
  end.

(** Step 5 of [main] for one target: fresh [printed] and [toProcess], both
    seeded with the object name. *)
Definition initial (t : Table) (obj : string) : PState :=
  {| printed := {[obj]}; toProcess := [obj]; written := []; table := t |}.

(** Every name that occurs in some dependency list of the table. *)
Definition names (t : Table) : gset string :=
  ⋃ (list_to_set <$> (map_to_list t).*2).

(** Iterations that always suffice: each one removes a pending name, and
    every pending name added is a new member of [printed]. *)
Definition enough (st : PState) : nat :=
  length (toProcess st) + 2 * size (names (table st) ∖ printed st).

(** The names printed after ["obj:"], as a total function. *)
Definition flatten (t : Table) (obj : string) : list string :=
  match printDependencies (enough (initial t obj)) (initial t obj) with
  | Some st => written st
  | None => []
  end.

(** The table left behind by the traversal. *)
Definition flatten_table (t : Table) (obj : string) : Table :=
  match printDependencies (enough (initial t obj)) (initial t obj) with
  | Some st => table st
  | None => t
  end.

(** *** Notions used to state what the traversal computes *)

(** [d] occurs in the list that the table stores for [n]: an edge of the
    dependency graph, read off the table itself. *)
Definition listed (t : Table) (n d : string) : Prop :=
  ∃ l, t !! n = Some l ∧ d ∈ l.

(** [reach_in t k root x]: [x] is [k] include edges away from [root]. *)
Fixpoint reach_in (t : Table) (k : nat) (root x : string) : Prop :=
  match k with
  | O => x = root
  | S k' => ∃ n, reach_in t k' root n ∧ x ∈ deps t n
  end.

(** [x] is at most [k] edges away from [root]. *)
Definition near (t : Table) (k : nat) (root x : string) : Prop :=
  ∃ j, j ≤ k ∧ reach_in t j root x.

(** [x] is exactly [k] edges away from [root]. *)
Definition exactly (t : Table) (k : nat) (root x : string) : Prop :=
  reach_in t k root x ∧ ∀ j, j < k → ¬ reach_in t j root x.

(** [x] is reachable from [root] through at least one edge. *)
Definition reachable (t : Table) (root x : string) : Prop :=
  ∃ k, reach_in t (S k) root x.

(** Breadth-first order: a name never comes before a name that is strictly
    closer to the root. *)
Definition breadth_first (t : Table) (root : string) (out : list string) : Prop :=
  ∀ i j x y, i ≤ j → out !! i = Some x → out !! j = Some y →
             ∀ k, near t k root y → near t k root x.

(** First discoveries in one dependency list [l], given the names [seen]
    so far: the new names in order of first occurrence. *)
Fixpoint discover (seen : gset string) (l : list string) : gset string * list string :=
  match l with
  | [] => (seen, [])
  | d :: l' =>
      if decide (d ∈ seen) then discover seen l'
      else let r := discover ({[d]} ∪ seen) l' in (r.1, d :: r.2)
  end.

(** First discoveries when the names of [q] are expanded one after the
    other, in that order. *)
Fixpoint discoveries (t : Table) (seen : gset string) (q : list string) : list string :=
  match q with
  | [] => []
  | n :: q' =>
      let r := discover seen (deps t n) in
      r.2 ++ discoveries t r.1 q'
  end.

(** The loop of [printDependencies] over a fixed dependency function: the
    table only ever grows by empty entries during the traversal, which
    leaves [deps] unchanged. *)
Fixpoint walk (D : string → list string) (fuel : nat)
    (seen : gset string) (q : list string) : option (gset string * list string) :=
  match q with
  | [] => Some (seen, [])
  | n :: rest =>
      match fuel with
      | O => None
      | S fuel' =>
          let r := discover seen (D n) in
          match walk D fuel' r.1 (rest ++ r.2) with
          | Some (seen', out) => Some (seen', r.2 ++ out)
          | None => None
          end
      end
  end.

End Printer.

Import Printer.

(** ** Reading files and matching include lines *)

Module Scanner.

Definition quote : ascii := Ascii.ascii_of_nat 34.
Definition newline : ascii := Ascii.ascii_of_nat 10.
Definition nul : ascii := Ascii.ascii_of_nat 0.

(** [isspace] of <ctype.h> in the "C" locale: space, and the five controls
    from horizontal tab (9) to carriage return (13). *)
Definition isspace (c : ascii) : bool :=
  let n := Ascii.nat_of_ascii c in
  (n =? 32) || ((9 <=? n) && (n <=? 13)).

(** What the C string functions see of a character buffer: the characters
    before the first NUL. *)
Fixpoint c_str (buf : string) : string :=
  match buf with
  | EmptyString => EmptyString
  | String c buf' => if Ascii.eqb c nul then EmptyString else String c (c_str buf')
  end.

(** [while (isspace((int)*p)) p++;] *)
Fixpoint skip_space (p : string) : string :=
  match p with
  | EmptyString => EmptyString
  | String c p' => if isspace c then skip_space p' else p
  end.

(** [p += n] on a pointer into a string of at least [n] characters. *)
Fixpoint advance (n : nat) (p : string) : string :=
  match n, p with
  | O, _ => p
  | S n', String _ p' => advance n' p'
  | S _, EmptyString => EmptyString
  end.

(** The copy loop into [name]: characters up to the next double quote, or
    up to the end of the string when there is none. *)
Fixpoint collect (p : string) : string :=
  match p with
  | EmptyString => EmptyString
  | String c p' => if Ascii.eqb c quote then EmptyString else String c (collect p')
  end.

(** Steps 2a-2bii of [process] on one buffer filled by [fgets]: the name
    between the quotes of an [#include "..."] line, if the line is one. *)
Definition parse_include (buf : string) : option string :=
  let p := skip_space (c_str buf) in
  if negb (String.prefix "#include" p) then None
  else
    match skip_space (advance 8 p) with
    | String c p' => if Ascii.eqb c quote then Some (collect p') else None
    | EmptyString => None
    end.

(** [fgets(buf, room + 1, fd)]: at most [room] characters, stopping after a
    newline; returns the characters read and what is left of the file. *)
Fixpoint fgets (room : nat) (content : string) : string * string :=
  match room, content with
  | O, _ => (EmptyString, content)
  | _, EmptyString => (EmptyString, EmptyString)
  | S room', String c content' =>
      if Ascii.eqb c newline then (String c EmptyString, content')
      else let r := fgets room' content' in (String c r.1, r.2)
  end.

(** The buffers seen by [while (fgets(buf, room + 1, fd) != NULL)].  Every
    call on a non-empty remainder consumes at least one character (for
    [room > 0]), so [fuel = length content] calls reach the end. *)
Fixpoint read_lines (room fuel : nat) (content : string) : list string :=
  match content, fuel with
  | EmptyString, _ => []
  | _, O => []
  | _, S fuel' =>
      let r := fgets room content in r.1 :: read_lines room fuel' r.2
  end.

(** [char buf[4096]]: [fgets(buf, sizeof(buf), fd)] stores at most 4095
    characters and the terminating NUL. *)
Definition lines_of (content : string) : list string :=
  read_lines 4095 (String.length content) content.

(** The lines of a text, each with its newline (the last one may lack it):
    what [fgets] would return with a buffer as large as the text. *)
Definition text_lines (content : string) : list string :=
  read_lines (String.length content) (String.length content) content.

(** The files that [fopen(path, "r")] can open, with their contents. *)
Abbreviation FileSystem := (gmap string string).

(** [openFile]: the first directory of [dirs] under which the name opens.
    The handle is modelled by the path opened and the content behind it. *)
Fixpoint openFile (fs : FileSystem) (dirs : list string) (file : string)
    : option (string * string) :=
  match dirs with
  | [] => None
  | d :: dirs' =>
      match fs !! (d +:+ file) with
      | Some content => Some (d +:+ file, content)
      | None => openFile fs dirs' file
      end
  end.

(** The two structures shared by the workers. *)
Record Shared := mkShared {
  theTable : Table;
  workQ : list string
}.

(** [ll->push_back({name})], where [ll] points at the entry of [file] in
    the table: the only call is
    [process(filename.c_str(), theTable.getValue(filename))]. *)
Definition push_dep (file name : string) (t : Table) : Table :=
  <[file := deps t file ++ [name]]> t.

(** [MapSafe::insert]: [std::unordered_map::insert] keeps an existing entry. *)
Definition map_insert (k : string) (v : list string) (t : Table) : Table :=
  match t !! k with
  | Some _ => t
  | None => <[k := v]> t
  end.

(** The body of the [while] loop of [process] for one buffer. *)
Definition process_line (file : string) (sh : Shared) (buf : string) : Shared :=
  match parse_include buf with
  | None => sh
  | Some name =>
      let t1 := push_dep file name (theTable sh) in
      if decide (is_Some (t1 !! name)) then
        {| theTable := t1; workQ := workQ sh |}
      else
        {| theTable := map_insert name [] t1; workQ := workQ sh ++ [name] |}
  end.

(** How a call may end: by returning, or by [exit(code)] after writing
    [err] to standard error. *)
Inductive outcome (A : Type) : Type :=
  | Returns (a : A)
  | Exits (code : Z) (err : string).
Arguments Returns {A} a.
Arguments Exits {A} code err.

(** The status a parent process observes for [exit(code)] and for
    [return code] from [main]: the low eight bits. *)
Definition exit_status (code : Z) : Z := Z.land code 255.

Definition endl : string := String newline EmptyString.

(** [process(file, ll)] run without interference from other threads; [ll]
    is the entry of [file], which the caller's [getValue] has created. *)
Definition process (fs : FileSystem) (dirs : list string)
    (file : string) (sh : Shared) : outcome Shared :=
  match openFile fs dirs file with
  | None => Exits (-1) ("Error opening " +:+ file +:+ endl)
  | Some (_, content) =>
      Returns (fold_left (process_line file) (lines_of content) sh)
  end.

(** *** Shapes of lines, to state what the matcher accepts *)

(** All characters are white space. *)
Fixpoint blank (s : string) : Prop :=
  match s with
  | EmptyString => True
  | String c s' => isspace c = true ∧ blank s'
  end.

(** The string does not start with white space. *)
Definition unspaced (s : string) : Prop :=
  match s with
  | EmptyString => True
  | String c _ => isspace c = false
  end.

(** The string does not start with a double quote. *)
Definition unquoted (s : string) : Prop :=
  match s with
  | EmptyString => True
  | String c _ => c ≠ quote
  end.

(** No double quote in the string. *)
Fixpoint plain (s : string) : Prop :=
  match s with
  | EmptyString => True
  | String c s' => c ≠ quote ∧ plain s'
  end.

(** A line that is not a local include: after the leading white space it
    does not begin with [#include], or what follows [#include] and white
    space is not a double quote. *)
Inductive ignored (line : string) : Prop :=
  | ignored_other (ws rest : string) :
      line = ws +:+ rest → blank ws → unspaced rest →
      String.prefix "#include" rest = false → ignored line
  | ignored_system (ws ws' rest : string) :
      line = ws +:+ "#include" +:+ ws' +:+ rest →
      blank ws → blank ws' → unspaced rest → unquoted rest → ignored line.

(** A line that names a local include: white space, [#include], white
    space, a double quote, the name, and then either a closing double
    quote followed by anything, or the end of the line. *)
Inductive includes (name line : string) : Prop :=
  | includes_closed (ws ws' tail : string) :
      line = ws +:+ "#include" +:+ ws' +:+ String quote (name +:+ String quote tail) →
      blank ws → blank ws' → plain name → includes name line
  | includes_open (ws ws' : string) :
      line = ws +:+ "#include" +:+ ws' +:+ String quote name →
      blank ws → blank ws' → plain name → includes name line.

(** The text of a line [#include "name"], newline included. *)
Definition include_line (name : string) : string :=
  "#include " +:+ String quote (name +:+ String quote endl).

(** How many of the buffers are include lines for [name]. *)
Definition count_matches (name : string) (lines : list string) : nat :=
  length (filter (λ buf, parse_include buf = Some name) lines).

End Scanner.

Import Scanner.

(** ** Start of [main]: environment, search path, seeding *)

Module Startup.

(** [std::string::back()].  The source calls it on the directory text
    without checking for emptiness; on an empty string the character read
    is modelled as the terminating NUL, which is not a slash. *)
Fixpoint back (s : string) : ascii :=
  match s with
  | EmptyString => nul
  | String c EmptyString => c
  | String _ s' => back s'
  end.

(** [dirName]: append a slash unless the text ends with one. *)
Definition dirName (c_str : string) : string :=
  if Ascii.eqb (back c_str) "/" then c_str else c_str +:+ "/".

(** [std::string::rfind(c)]: index of the last occurrence. *)
Fixpoint rfind (c : ascii) (s : string) : option nat :=
  match s with
  | EmptyString => None
  | String a s' =>
      match rfind c s' with
      | Some k => Some (S k)
      | None => if Ascii.eqb a c then Some 0 else None
      end
  end.

(** [parseFile]: root and extension around the last dot. *)
Definition parseFile (file : string) : string * string :=
  match rfind "." file with
  | None => (file, EmptyString)
  | Some pos =>
      (String.substring 0 pos file,
       String.substring (S pos) (String.length file - S pos) file)
  end.

(** The loop over CPATH in [main]: every colon closes a field, which is
    pushed as it stands ([str.substr(last, next - last)]), and what follows
    the last colon is pushed after the loop ([str.substr(last)]). *)
Fixpoint cpath_fields (str : string) : list string :=
  match str with
  | EmptyString => [EmptyString]
  | String c str' =>
      if Ascii.eqb c ":" then EmptyString :: cpath_fields str'
      else match cpath_fields str' with
           | f :: fields => String c f :: fields
           | [] => [String c EmptyString]
           end
  end.

(** The exceptions that nothing in the program catches: those of
    [std::stoi], and the one thrown when a [std::string] is constructed
    from NULL (the empty-queue branch of [QueueSafe::pop_front]). *)
Inductive exception := invalid_argument | out_of_range | logic_error.

Definition is_digit (c : ascii) : bool :=
  let n := Ascii.nat_of_ascii c in (48 <=? n) && (n <=? 57).

(** Value of the longest prefix of decimal digits, most significant first,
    with the number of digits read. *)
Fixpoint digits (acc : Z) (count : nat) (s : string) : Z * nat :=
  match s with
  | String c s' =>
      if is_digit c
      then digits (10 * acc + Z.of_nat (Ascii.nat_of_ascii c - 48)) (S count) s'
      else (acc, count)
  | EmptyString => (acc, count)
  end.

(** [std::stoi(str)] (base 10, no position out-parameter), after [strtol]:
    leading white space, an optional sign, then decimal digits; what follows
    the digits is ignored.  No digit at all throws [std::invalid_argument];
    a value that does not fit [int] throws [std::out_of_range]. *)
Definition stoi (str : string) : Z + exception :=
  let p := skip_space (c_str str) in
  let '(negative, p) :=
    match p with
    | String "-" p' => (true, p')
    | String "+" p' => (false, p')
    | _ => (false, p)
    end in
  let '(v, count) := digits 0 0 p in
  if (count =? 0)%nat then inr invalid_argument
  else
    let v := if negative then (- v)%Z else v in
    if ((-2147483648 <=? v) && (v <=? 2147483647))%Z then inl v
    else inr out_of_range.



(** [getenv]: the environment as a finite map. *)
Abbreviation Env := (gmap string string).

(** Lines 362-368 of [main]. *)
Definition number_of_threads (env : Env) : Z + exception :=
  match env !! "CRAWLER_THREADS" with
  | None => inl 2%Z
  | Some crawlerthreads => stoi crawlerthreads
  end.

(** [strncmp(argv[i], "-I", 2) != 0] stops the first loop of [main]. *)
Definition is_flag (arg : string) : bool := String.prefix "-I" arg.

Fixpoint flag_args (args : list string) : list string :=
  match args with
  | a :: args' => if is_flag a then a :: flag_args args' else []
  | [] => []
  end.

Fixpoint file_args (args : list string) : list string :=
  match args with
  | a :: args' => if is_flag a then file_args args' else args
  | [] => []
  end.

(** Step 2 of [main]: the current directory, the [-I] directories (with
    the two characters of the flag skipped), the fields of CPATH. *)
Definition assemble_dirs (env : Env) (args : list string) : list string :=
  [dirName "./"]
  ++ map (λ a, dirName (advance 2 a)) (flag_args args)
  ++ match env !! "CPATH" with
     | Some cpath => cpath_fields cpath
     | None => []
     end.

Definition legal (ext : string) : bool :=
  bool_decide (ext = "c") || bool_decide (ext = "y") || bool_decide (ext = "l").

Definition legal_file (file : string) : Prop := legal (parseFile file).2 = true.

Definition object_name (file : string) : string := (parseFile file).1 +:+ ".o".

Definition illegal_extension (ext : string) : string :=
  "Illegal extension: " +:+ ext +:+ " - must be .c, .y or .l" +:+ endl.

(** Step 3 of [main]: check the extension, seed the table and the queue;
    the first illegal extension makes [main] return -1. *)
Fixpoint seed (files : list string) (sh : Shared) : outcome Shared :=
  match files with
  | [] => Returns sh
  | file :: files' =>
      if legal (parseFile file).2 then
        seed files'
          {| theTable := map_insert file []
                           (map_insert (object_name file) [file] (theTable sh));
             workQ := workQ sh ++ [file] |}
      else Exits (-1) (illegal_extension (parseFile file).2)
  end.

(** Where [main] stands when it is about to create the threads. *)
Inductive startup :=
  | Aborted (e : exception)
  | Stopped (code : Z) (err : string)
  | Ready (threads : Z) (dirs files : list string) (sh : Shared).

(** [main] up to step 3 included.  [argv] includes the program name. *)
Definition start (env : Env) (argv : list string) : startup :=
  match number_of_threads env with
  | inr e => Aborted e
  | inl n =>
      let args := tail argv in
      match seed (file_args args) (mkShared ∅ []) with
      | Exits code err => Stopped code err
      | Returns sh => Ready n (assemble_dirs env args) (file_args args) sh
      end
  end.

(** The table and queue with which [main] reaches the creation of the
    threads (empty when it does not get there). *)
Definition seed_of (st : startup) : Shared :=
  match st with
  | Ready _ _ _ sh => sh
  | _ => mkShared ∅ []
  end.

End Startup.

Import Startup.

(** ** The worker pool and the main thread *)

Module Pool.

(** Where a worker stands in the lambda of step 4 and in [process].  Each
    constructor is named after the next operation on shared memory, with
    the source line in the comment; thread-local work (matching a buffer
    against [#include]) is done on the way to the next such operation. *)
Inductive worker :=
  | AtWait                                      (* 425 thread->wait() *)
  | AtSize                                      (* 426 workQ.size() > 0 *)
  | AtPop                                       (* 427 workQ.pop_front() *)
  | AtSignalPopped (filename : string)          (* 429 thread->signal() *)
  | AtGetValue (filename : string)              (* 430 theTable.getValue *)
  | AtOpen (file : string)                      (* 277 openFile(file) *)
  | AtGets (file unread : string)               (* 282 fgets(buf, ..., fd) *)
  | AtBsWait (file name unread : string)        (* 312 bs.wait() *)
  | AtPushDep (file name unread : string)       (* 313 ll->push_back *)
  | AtFind (file name unread : string)          (* 315 theTable.find(name) *)
  | AtBsSignalKnown (file unread : string)      (* 316 bs.signal() *)
  | AtInsert (file name unread : string)        (* 320 theTable.insert *)
  | AtPushQ (file name unread : string)         (* 322 workQ.push_back *)
  | AtBsSignalNew (file unread : string)        (* 323 bs.signal() *)
  | AtSignalEmpty                               (* 432 thread->signal() *)
  | AtSignalDone                                (* 436 tracker->signal_done() *)
  | Finished                                    (* the lambda has returned *)
  | AtExit (file : string).                     (* 280 exit(-1) *)

(** Where the main thread stands once the workers have been created. *)
Inductive main_thread :=
  | MainWaiting                                 (* 440-445 wait_done, join *)
  | MainPrinting (todo : list string)           (* 448-466, remaining targets *)
  | MainReturned.                               (* 468 return 0 *)

(** How the process ended: [exit] or [return] from [main] with the status
    seen by the parent, [std::terminate] on an uncaught exception, or a
    signal that killed it. *)
Inductive ending :=
  | Exited (status : Z)
  | Terminated (e : exception)
  | Killed.

Definition is_finished (w : worker) : bool :=
  match w with Finished => true | _ => false end.

(** The worker has written its message and is inside [exit(-1)]. *)
Definition is_exiting (w : worker) : bool :=
  match w with AtExit _ => true | _ => false end.

(** The workers that have not returned yet. *)
Fixpoint unfinished (ws : list worker) : nat :=
  match ws with
  | [] => 0
  | w :: ws' => (if is_finished w then 0 else 1) + unfinished ws'
  end.

Record state := mkState {
  targets : list string;        (* argv[start .. argc-1] *)
  dirs : list string;           (* std::vector<std::string> dirs *)
  shared : Shared;              (* theTable, workQ *)
  bs : Z;                       (* BinarySemaphore bs: val *)
  threadlock : Z;               (* BinarySemaphore threadlock: val *)
  t_count : Z;                  (* ThreadTracker tracker: t_count *)
  workers : list worker;
  main_pc : main_thread;
  stdout : list string;
  stderr : list string;
  ended : option ending
}.

Definition set_shared (sh : Shared) (s : state) : state :=
  mkState (targets s) (dirs s) sh (bs s) (threadlock s) (t_count s) (workers s)
          (main_pc s) (stdout s) (stderr s) (ended s).
Definition set_table (t : Table) (s : state) : state :=
  set_shared (mkShared t (workQ (shared s))) s.
Definition set_workQ (q : list string) (s : state) : state :=
  set_shared (mkShared (theTable (shared s)) q) s.
Definition set_bs (v : Z) (s : state) : state :=
  mkState (targets s) (dirs s) (shared s) v (threadlock s) (t_count s) (workers s)
          (main_pc s) (stdout s) (stderr s) (ended s).
Definition set_threadlock (v : Z) (s : state) : state :=
  mkState (targets s) (dirs s) (shared s) (bs s) v (t_count s) (workers s)
          (main_pc s) (stdout s) (stderr s) (ended s).
Definition set_t_count (v : Z) (s : state) : state :=
  mkState (targets s) (dirs s) (shared s) (bs s) (threadlock s) v (workers s)
          (main_pc s) (stdout s) (stderr s) (ended s).
Definition set_worker (i : nat) (w : worker) (s : state) : state :=
  mkState (targets s) (dirs s) (shared s) (bs s) (threadlock s) (t_count s)
          (<[i := w]> (workers s)) (main_pc s) (stdout s) (stderr s) (ended s).
Definition set_main (m : main_thread) (s : state) : state :=
  mkState (targets s) (dirs s) (shared s) (bs s) (threadlock s) (t_count s) (workers s)
          m (stdout s) (stderr s) (ended s).
Definition put_stdout (line : string) (s : state) : state :=
  mkState (targets s) (dirs s) (shared s) (bs s) (threadlock s) (t_count s) (workers s)
          (main_pc s) (stdout s ++ [line]) (stderr s) (ended s).
Definition put_stderr (line : string) (s : state) : state :=
  mkState (targets s) (dirs s) (shared s) (bs s) (threadlock s) (t_count s) (workers s)
          (main_pc s) (stdout s) (stderr s ++ [line]) (ended s).
Definition set_ended (e : ending) (s : state) : state :=
  mkState (targets s) (dirs s) (shared s) (bs s) (threadlock s) (t_count s) (workers s)
          (main_pc s) (stdout s) (stderr s) (Some e).

(** [BinarySemaphore::wait] of the semaphore with value [v]: the caller
    sleeps on the condition variable while [val <= 0], so the operation
    completes only from [val > 0], and then decrements. *)
Definition sem_wait (v : Z) : option Z :=
  if (0 <? v)%Z then Some (v - 1)%Z else None.

(** [BinarySemaphore::signal]: completes only from [val <= 0], and then
    increments. *)
Definition sem_signal (v : Z) : option Z :=
  if (v <=? 0)%Z then Some (v + 1)%Z else None.

(** After a buffer has been dealt with: the next [fgets], or [fclose] and
    back to the top of the worker loop at end of file.  The matcher runs
    on the buffer read; only a matched name leads to [bs.wait()]. *)
Definition next_buffer (file unread : string) : worker :=
  match unread with
  | EmptyString => AtWait
  | _ =>
      let r := fgets 4095 unread in
      match parse_include r.1 with
      | None => AtGets file r.2
      | Some name => AtBsWait file name r.2
      end
  end.

(** One operation of worker [i].  [None]: the worker does not exist, has
    returned, is blocked on a semaphore, or the process has ended.

    A failed [openFile] is followed by the [fprintf] of line 279 and then
    by [exit(-1)].  The call of [exit] is an operation of its own: it does
    not stop the other threads, which go on until [exit] has ended the
    process, so the message is on standard error while the process still
    runs, and other workers can add theirs. *)
Definition step_worker (fs : FileSystem) (i : nat) (s : state) : option state :=
  match ended s, workers s !! i with
  | None, Some w =>
      match w with
      | AtWait =>
          v ← sem_wait (threadlock s);
          Some (set_worker i AtSize (set_threadlock v s))
      | AtSize =>
          if (0 <? length (workQ (shared s)))%nat
          then Some (set_worker i AtPop s)
          else Some (set_worker i AtSignalEmpty s)
      | AtPop =>
          match workQ (shared s) with
          | filename :: q => Some (set_worker i (AtSignalPopped filename) (set_workQ q s))
          | [] => Some (set_ended (Terminated logic_error) s)
          end
      | AtSignalPopped filename =>
          v ← sem_signal (threadlock s);
          Some (set_worker i (AtGetValue filename) (set_threadlock v s))
      | AtGetValue filename =>
          Some (set_worker i (AtOpen filename)
                  (set_table (getValue (theTable (shared s)) filename).2 s))
      | AtOpen file =>
          match openFile fs (dirs s) file with
          | None =>
              Some (set_worker i (AtExit file)
                      (put_stderr ("Error opening " +:+ file +:+ endl) s))
          | Some (_, content) => Some (set_worker i (AtGets file content) s)
          end
      | AtGets file unread => Some (set_worker i (next_buffer file unread) s)
      | AtBsWait file name unread =>
          v ← sem_wait (bs s);
          Some (set_worker i (AtPushDep file name unread) (set_bs v s))
      | AtPushDep file name unread =>
          Some (set_worker i (AtFind file name unread)
                  (set_table (push_dep file name (theTable (shared s))) s))
      | AtFind file name unread =>
          if decide (is_Some (theTable (shared s) !! name))
          then Some (set_worker i (AtBsSignalKnown file unread) s)
          else Some (set_worker i (AtInsert file name unread) s)
      | AtBsSignalKnown file unread =>
          v ← sem_signal (bs s);
          Some (set_worker i (AtGets file unread) (set_bs v s))
      | AtInsert file name unread =>
          Some (set_worker i (AtPushQ file name unread)
                  (set_table (map_insert name [] (theTable (shared s))) s))
      | AtPushQ file name unread =>
          Some (set_worker i (AtBsSignalNew file unread)
                  (set_workQ (workQ (shared s) ++ [name]) s))
      | AtBsSignalNew file unread =>
          v ← sem_signal (bs s);
          Some (set_worker i (AtGets file unread) (set_bs v s))
      | AtSignalEmpty =>
          v ← sem_signal (threadlock s);
          Some (set_worker i AtSignalDone (set_threadlock v s))
      | AtSignalDone =>
          Some (set_worker i Finished (set_t_count (t_count s - 1)%Z s))
      | Finished => None
      | AtExit _ => Some (set_ended (Exited (exit_status (-1))) s)
      end
  | _, _ => None
  end.

(** [exit] running beside the other threads.  While it destroys the
    globals [dirs], [theTable], [workQ] and [bs] and closes the streams, a
    worker that has not returned still uses them, and may call [exit] a
    second time: both are undefined behaviour, by which the process can be
    killed by a signal at any moment between the call of [exit] and its
    end.  [threadlock] and [tracker] are locals of [main], which sleeps in
    [wait_done]: with every other worker returned, [exit] runs alone. *)
Definition fault (s : state) : option state :=
  match ended s with
  | None =>
      if existsb is_exiting (workers s) && (2 <=? unfinished (workers s))
      then Some (set_ended Killed s)
      else None
  | Some _ => None
  end.

(** The line printed for one target. *)
Definition dependency_line (obj : string) (deps : list string) : string :=
  obj +:+ ":" +:+ fold_right (λ d acc, " " +:+ d +:+ acc) endl deps.

(** One operation of the main thread: leave [wait_done] and the joins once
    the count is down and every worker has returned; print one target;
    [return 0]. *)
Definition step_main (s : state) : option state :=
  match ended s, main_pc s with
  | None, MainWaiting =>
      if (t_count s <=? 0)%Z && forallb is_finished (workers s)
      then Some (set_main (MainPrinting (targets s)) s)
      else None
  | None, MainPrinting (file :: todo) =>
      let obj := object_name file in
      let t := theTable (shared s) in
      Some (set_main (MainPrinting todo)
              (set_table (flatten_table t obj)
                 (put_stdout (dependency_line obj (flatten t obj)) s)))
  | None, MainPrinting [] => Some (set_ended (Exited 0) (set_main MainReturned s))
  | _, _ => None
  end.

(** The process when the threads are about to be created.  When [main]
    has already ended, only the ending and what the program itself wrote
    are recorded (the text of the runtime's terminate handler is not).
    The threads are taken to be created: a [std::thread] constructor that
    throws [std::system_error] for lack of resources is outside the model. *)
Definition launch (env : Env) (argv : list string) : state :=
  match start env argv with
  | Aborted e =>
      mkState [] [] (mkShared ∅ []) 1 1 0 [] MainWaiting [] []
              (Some (Terminated e))
  | Stopped code err =>
      mkState [] [] (mkShared ∅ []) 1 1 0 [] MainWaiting [] [err]
              (Some (Exited (exit_status code)))
  | Ready n dirs files sh =>
      mkState files dirs sh 1 1 n (replicate (Z.to_nat n) AtWait)
              MainWaiting [] [] None
  end.

(** Interleaving semantics: any thread that can move may move next, and
    the process may be killed while [exit] races with a worker. *)
Inductive step (fs : FileSystem) : state → state → Prop :=
  | step_of_worker i s s' : step_worker fs i s = Some s' → step fs s s'
  | step_of_main s s' : step_main s = Some s' → step fs s s'
  | step_of_fault s s' : fault s = Some s' → step fs s s'.

(** The states of the runs of the program on [env] and [argv]. *)
Definition in_run (fs : FileSystem) (env : Env) (argv : list string)
    (s : state) : Prop :=
  rtc (step fs) (launch env argv) s.

(** A schedule names the thread to move at each step. *)
Inductive thread := Main | Worker (i : nat).

Fixpoint run (fs : FileSystem) (schedule : list thread) (s : state) : option state :=
  match schedule with
  | [] => Some s
  | Main :: schedule' => s' ← step_main s; run fs schedule' s'
  | Worker i :: schedule' => s' ← step_worker fs i s; run fs schedule' s'
  end.

(** The state in which worker [i] stands at [w], the shared structures
    are [sh] and [bs] has the value [v], everything else being as in [s]. *)
Definition with_worker (i : nat) (w : worker) (sh : Shared) (v : Z) (s : state)
    : state :=
  mkState (targets s) (dirs s) sh v (threadlock s) (t_count s)
          (<[i := w]> (workers s)) (main_pc s) (stdout s) (stderr s) (ended s).

(** The call [process(filename.c_str(), theTable.getValue(filename))] of
    line 430 as a whole, the argument being evaluated first. *)
Definition scan_alone (fs : FileSystem) (ds : list string) (filename : string)
    (sh : Shared) : outcome Shared :=
  process fs ds filename
    (mkShared (getValue (theTable sh) filename).2 (workQ sh)).

(** A deterministic scheduler, to run examples: the lowest-numbered
    worker that can move does; the main thread moves when no worker can. *)
Fixpoint first_enabled (fs : FileSystem) (candidates : list nat) (s : state)
    : option state :=
  match candidates with
  | [] => step_main s
  | i :: candidates' =>
      match step_worker fs i s with
      | Some s' => Some s'
      | None => first_enabled fs candidates' s
      end
  end.

Fixpoint drive (fs : FileSystem) (fuel : nat) (s : state) : state :=
  match fuel with
  | O => s
  | S fuel' =>
      match first_enabled fs (seq 0 (length (workers s))) s with
      | Some s' => drive fs fuel' s'
      | None => s
      end
  end.

(** The worker holds [threadlock]: it is between the [wait] of line 425
    and the [signal] of line 429 or 432. *)
Definition holds_threadlock (w : worker) : bool :=
  match w with
  | AtSize | AtPop | AtSignalPopped _ | AtSignalEmpty => true
  | _ => false
  end.

(** The file a worker has taken from the queue and is dealing with. *)
Definition file_of (w : worker) : option string :=
  match w with
  | AtSignalPopped f | AtGetValue f | AtOpen f | AtGets f _
  | AtBsWait f _ _ | AtPushDep f _ _ | AtFind f _ _ | AtBsSignalKnown f _
  | AtInsert f _ _ | AtPushQ f _ _ | AtBsSignalNew f _ | AtExit f => Some f
  | _ => None
  end.

(** Some worker has called [exit]. *)
Definition exiting (s : state) : Prop :=
  ∃ i w, workers s !! i = Some w ∧ is_exiting w = true.

(** The name a worker has found absent from the table and is about to
    insert or to enqueue. *)
Definition fresh_name (w : worker) : option string :=
  match w with
  | AtInsert _ name _ | AtPushQ _ name _ => Some name
  | _ => None
  end.

(** [threadlock] is a mutex: its value is 1 and no worker holds it, or its
    value is 0 and exactly one worker holds it. *)
Definition mutex (v : Z) (ws : list worker) : Prop :=
  (v = 1%Z ∧ ∀ i w, ws !! i = Some w → holds_threadlock w = false)
  ∨ (v = 0%Z ∧ ∃ i w, ws !! i = Some w ∧ holds_threadlock w = true ∧
               ∀ j w', j ≠ i → ws !! j = Some w' → holds_threadlock w' = false).

(** A worker about to call [pop_front] finds the queue non-empty. *)
Definition pop_safe (s : state) : Prop :=
  ∀ i, workers s !! i = Some AtPop → workQ (shared s) ≠ [].

(** Nothing is printed before every worker has returned, and nothing is
    on standard error unless a worker has called [exit] or the process has
    ended otherwise than by [return 0]. *)
Definition print_after_join (s : state) : Prop :=
  (main_pc s = MainWaiting → stdout s = [])
  ∧ (main_pc s ≠ MainWaiting → ∀ i w, workers s !! i = Some w → w = Finished)
  ∧ (stderr s ≠ [] → exiting s ∨ ∃ e, ended s = Some e ∧ e ≠ Exited 0).

(** The entry of [key] is [l] and no worker will ever touch it: [key] is
    not queued, not being scanned, not about to be inserted. *)
Definition untouched (key : string) (l : list string) (s : state) : Prop :=
  theTable (shared s) !! key = Some l
  ∧ (key ∉ workQ (shared s))
  ∧ ∀ i w, workers s !! i = Some w →
           file_of w ≠ Some key ∧ fresh_name w ≠ Some key.

(** The worker has seen the queue empty and is on its way out.  (A worker
    inside [exit] is not: it never returns.) *)
Definition retired (w : worker) : bool :=
  match w with
  | AtSignalEmpty | AtSignalDone | Finished => true
  | _ => false
  end.

(** A non-empty queue always has a worker that has not seen it empty. *)
Definition staffed (s : state) : Prop :=
  workQ (shared s) ≠ [] →
  ∃ i w, workers s !! i = Some w ∧ retired w = false.

(** The file a worker has popped and not yet tried to open. *)
Definition taken (w : worker) : option string :=
  match w with
  | AtSignalPopped f | AtGetValue f | AtOpen f => Some f
  | _ => None
  end.

(** The file is waiting to be opened: on the queue, or in a worker's hands. *)
Definition awaited (s : state) (file : string) : Prop :=
  file ∈ workQ (shared s)
  ∨ ∃ i w, workers s !! i = Some w ∧ taken w = Some file.

(** Some file that opens under no directory of [dirs] is waiting to be
    opened. *)
Definition doomed (fs : FileSystem) (s : state) : Prop :=
  ∃ file, openFile fs (dirs s) file = None ∧ awaited s file.

(** Every line on standard error reports a file that opens under no
    directory of [dirs]. *)
Definition reports_unopenable (fs : FileSystem) (s : state) : Prop :=
  Forall (λ line, ∃ g, openFile fs (dirs s) g = None
                       ∧ line = "Error opening " +:+ g +:+ endl) (stderr s).

(** Every non-empty dependency list of the table belongs to an object
    name (a key ending in [o]). *)
Definition only_objects_listed (t : Table) : Prop :=
  ∀ k l, t !! k = Some l → l = [] ∨ back k = "o"%char.

End Pool.

Import Pool.

(** ** Notions to state the properties of whole runs

    Nothing below is code of the program: these are the predicates and the
    measures in which the invariants of the crawl are stated. *)

(** *** Texts *)

Module Texts.

(** The character [c] occurs in [s]. *)
Fixpoint occurs (c : ascii) (s : string) : bool :=
  match s with
  | EmptyString => false
  | String a s' => Ascii.eqb a c || occurs c s'
  end.

(** The names matched in the text of a file, one per include line, in the
    order of the lines. *)
Definition matched (content : string) : list string :=
  omap parse_include (lines_of content).

End Texts.

(** *** The semaphore [bs] *)

Module Locks.

(** The worker is inside the section guarded by [bs]: between the [wait]
    of line 312 and the [signal] of line 316 or 323. *)
Definition holds_bs (w : worker) : bool :=
  match w with
  | AtPushDep _ _ _ | AtFind _ _ _ | AtBsSignalKnown _ _
  | AtInsert _ _ _ | AtPushQ _ _ _ | AtBsSignalNew _ _ => true
  | _ => false
  end.

(** The worker is about to call [BinarySemaphore::signal]. *)
Definition at_signal (w : worker) : bool :=
  match w with
  | AtSignalPopped _ | AtSignalEmpty | AtBsSignalKnown _ _ | AtBsSignalNew _ _ => true
  | _ => false
  end.

(** A semaphore of value [v] is used as a lock by the workers that satisfy
    [holds]: the value is 1 and nobody holds it, or the value is 0 and
    exactly one worker holds it. *)
Definition guarded (holds : worker → bool) (v : Z) (ws : list worker) : Prop :=
  (v = 1%Z ∧ ∀ i w, ws !! i = Some w → holds w = false)
  ∨ (v = 0%Z ∧ ∃ i w, ws !! i = Some w ∧ holds w = true ∧
               ∀ j w', j ≠ i → ws !! j = Some w' → holds w' = false).

End Locks.

(** *** What the main thread prints and how the process ends *)

Module Outcome.

(** The line that step 5 of [main] prints for the file argument [file]
    when the table is [t]. *)
Definition line_of (t : Table) (file : string) : string :=
  dependency_line (object_name file) (flatten t (object_name file)).

(** What has been printed matches the targets dealt with so far. *)
Definition listing (s : state) : Prop :=
  match main_pc s with
  | MainWaiting => stdout s = []
  | MainPrinting todo =>
      ∃ done, targets s = done ++ todo
              ∧ stdout s = map (line_of (theTable (shared s))) done
  | MainReturned => stdout s = map (line_of (theTable (shared s))) (targets s)
  end.

(** How the process can have ended. *)
Definition ending_ok (s : state) : Prop :=
  match ended s with
  | None => main_pc s ≠ MainReturned
  | Some (Exited status) =>
      (status = 0%Z ∧ main_pc s = MainReturned ∧ stderr s = [])
      ∨ (status = 255%Z ∧ main_pc s = MainWaiting ∧ stderr s ≠ [])
  | Some (Terminated e) =>
      (e = invalid_argument ∨ e = out_of_range)
      ∧ main_pc s = MainWaiting ∧ stderr s = []
  | Some Killed => main_pc s = MainWaiting ∧ stderr s ≠ []
  end.

End Outcome.

(** *** Who holds which name *)

Module Ownership.

(** The name a worker has inserted into the table and is about to
    enqueue. *)
Definition pushing (w : worker) : option string :=
  match w with
  | AtPushQ _ name _ => Some name
  | _ => None
  end.

(** The names on the queue and in the hands of the workers. *)
Definition in_flight (q : list string) (ws : list worker) : list string :=
  q ++ omap file_of ws ++ omap pushing ws.

(** Every name on the queue or in a worker's hands is there once and has
    an entry in the table; a name that a worker is about to insert has
    none. *)
Definition owned_at (t : Table) (q : list string) (ws : list worker) : Prop :=
  NoDup (in_flight q ws)
  ∧ (∀ x, x ∈ in_flight q ws → is_Some (t !! x))
  ∧ (∀ i f name u, ws !! i = Some (AtInsert f name u) → t !! name = None).

Definition owned (s : state) : Prop :=
  owned_at (theTable (shared s)) (workQ (shared s)) (workers s).

(** The files on which [openFile] is called along a schedule, in the
    order of the calls. *)
Fixpoint opened (fs : FileSystem) (schedule : list thread) (s : state)
    : list string :=
  match schedule with
  | [] => []
  | Main :: schedule' =>
      match step_main s with
      | Some s' => opened fs schedule' s'
      | None => []
      end
  | Worker i :: schedule' =>
      match step_worker fs i s with
      | Some s' =>
          match workers s !! i with
          | Some (AtOpen file) => file :: opened fs schedule' s'
          | _ => opened fs schedule' s'
          end
      | None => []
      end
  end.

(** [openFile] has been called on the name, or the name will never be
    opened: it has an entry, is not queued, and no worker is about to open
    or to enqueue it. *)
Definition started (s : state) (file : string) : Prop :=
  is_Some (theTable (shared s) !! file)
  ∧ (file ∉ workQ (shared s))
  ∧ ∀ i w, workers s !! i = Some w →
           taken w ≠ Some file ∧ pushing w ≠ Some file.

End Ownership.

(** *** The table while the workers run *)

Module Contents.
Import Texts Ownership.

(** The name a worker has appended to a list and is looking up, or has
    found absent from the table. *)
Definition finding (w : worker) : option string :=
  match w with
  | AtFind _ name _ | AtInsert _ name _ => Some name
  | _ => None
  end.

(** The file opens, and its list in the table, followed by the names
    [rest], is what the text of the file includes. *)
Definition reading (fs : FileSystem) (ds : list string) (t : Table)
    (file : string) (rest : list string) : Prop :=
  ∃ path content l,
    openFile fs ds file = Some (path, content)
    ∧ t !! file = Some l ∧ l ++ rest = matched content.

(** What the table holds for the file in a worker's hands: nothing before
    the file is opened, then the names matched in the part already read. *)
Definition entry_ok (fs : FileSystem) (ds : list string) (t : Table)
    (w : worker) : Prop :=
  match w with
  | AtSignalPopped f | AtGetValue f | AtOpen f => t !! f = Some []
  | AtGets f u | AtFind f _ u | AtBsSignalKnown f u | AtInsert f _ u
  | AtBsSignalNew f u => reading fs ds t f (matched u)
  | AtBsWait f n u | AtPushDep f n u => reading fs ds t f (n :: matched u)
  | AtPushQ f n u => reading fs ds t f (matched u) ∧ t !! n = Some []
  | _ => True
  end.

(** The table during the crawl: queued names have empty lists; the files
    in the workers' hands are as [entry_ok] says; every other name that is
    not an object name has been read to the end, and its list is what its
    text includes; every listed name has an entry, or is being looked up. *)
Definition crawl_at (fs : FileSystem) (ds objs : list string)
    (t : Table) (q : list string) (ws : list worker) : Prop :=
  (∀ x, x ∈ q → t !! x = Some [])
  ∧ (∀ i w, ws !! i = Some w → entry_ok fs ds t w)
  ∧ (∀ k l, t !! k = Some l → k ∉ objs → k ∉ in_flight q ws →
            ∃ path content, openFile fs ds k = Some (path, content)
                            ∧ l = matched content)
  ∧ (∀ k l d, t !! k = Some l → d ∈ l →
              is_Some (t !! d) ∨ ∃ i w, ws !! i = Some w ∧ finding w = Some d).

Definition crawl_ok (fs : FileSystem) (s : state) : Prop :=
  crawl_at fs (dirs s) (object_name <$> targets s)
    (theTable (shared s)) (workQ (shared s)) (workers s).

(** What the finished crawl lists for a name: for the object name of a
    target, what the seeding put there; for any other name, what the text
    of the file includes. *)
Definition included (fs : FileSystem) (ds files : list string) (seeded : Table)
    (k : string) : list string :=
  if decide (k ∈ object_name <$> files) then deps seeded k
  else match openFile fs ds k with
       | Some (_, content) => matched content
       | None => []
       end.

End Contents.

(** *** A bound on the length of a run *)

Module Progress.
Import Texts Ownership.

(** The length of the longest text of the file system. *)
Definition longest (fs : FileSystem) : nat :=
  max_list ((String.length ∘ snd) <$> map_to_list fs).

(** The names that can ever get an entry: the file arguments and the
    names that some text of the file system includes. *)
Definition universe (fs : FileSystem) (files : list string) : gset string :=
  list_to_set files ∪ ⋃ ((list_to_set ∘ matched ∘ snd) <$> map_to_list fs).

(** What a worker has still to read of its file. *)
Definition unread_of (w : worker) : string :=
  match w with
  | AtGets _ u | AtBsWait _ _ u | AtPushDep _ _ u | AtFind _ _ u
  | AtBsSignalKnown _ u | AtInsert _ _ u | AtPushQ _ _ u
  | AtBsSignalNew _ u => u
  | _ => EmptyString
  end.

(** The names a worker may still look up while it reads its file. *)
Definition upcoming (w : worker) : list string :=
  match w with
  | AtBsWait _ n u | AtPushDep _ n u | AtFind _ n u | AtInsert _ n u =>
      n :: matched u
  | _ => matched (unread_of w)
  end.

Definition bounded (fs : FileSystem) (files : list string) (w : worker) : Prop :=
  (∀ x, x ∈ upcoming w → x ∈ universe fs files)
  ∧ String.length (unread_of w) ≤ longest fs.

(** Every name on the queue or in a worker's hands has an entry; a name
    that a worker is about to insert has none. *)
Definition keyed_at (t : Table) (q : list string) (ws : list worker) : Prop :=
  (∀ x, x ∈ in_flight q ws → is_Some (t !! x))
  ∧ (∀ i f name u, ws !! i = Some (AtInsert f name u) → t !! name = None).

(** A bound on the operations a worker needs from taking a file off the
    queue to the end of that file. *)
Definition file_cost (fs : FileSystem) : nat := 8 * longest fs + 8.

(** A bound on the operations a worker has left, not counting the files
    it will take off the queue. *)
Definition worker_cost (fs : FileSystem) (w : worker) : nat :=
  match w with
  | AtWait => 4
  | AtSize => 3
  | AtPop => 2
  | AtSignalPopped _ => file_cost fs + 1
  | AtGetValue _ => file_cost fs
  | AtOpen _ => 8 * longest fs + 7
  | AtGets _ u => 8 * String.length u + 5
  | AtBsWait _ _ u => 8 * String.length u + 12
  | AtPushDep _ _ u => 8 * String.length u + 11
  | AtFind _ _ u => 8 * String.length u + 10
  | AtBsSignalKnown _ u => 8 * String.length u + 6
  | AtInsert _ _ u => 8 * String.length u + 9
  | AtPushQ _ _ u => 8 * String.length u + 7 + file_cost fs
  | AtBsSignalNew _ u => 8 * String.length u + 6
  | AtSignalEmpty => 2
  | AtSignalDone => 1
  | Finished => 0
  | AtExit _ => 1
  end.

Definition main_cost (m : main_thread) (files : list string) : nat :=
  match m with
  | MainWaiting => length files + 2
  | MainPrinting todo => length todo + 1
  | MainReturned => 0
  end.

(** A bound on the operations the process has left. *)
Definition work_left (fs : FileSystem) (s : state) : nat :=
  file_cost fs * size (universe fs (targets s) ∖ dom (theTable (shared s)))
  + file_cost fs * length (workQ (shared s))
  + sum_list (worker_cost fs <$> workers s)
  + main_cost (main_pc s) (targets s)
  + match ended s with Some _ => 0 | None => 1 end.

End Progress.

(** * Verification *)

(** ** The printer *)

Section PrinterFacts.

Example flatten_endtoend :
  flatten (<["foo.o" := ["foo.c"]]> (<["foo.c" := ["inc1.h"]]>
           (<["inc1.h" := ["inc2.h"; "inc3.h"]]> (<["inc2.h" := []]>
           (<["inc3.h" := []]> ∅))))) "foo.o"
  = ["foo.c"; "inc1.h"; "inc2.h"; "inc3.h"].
Proof. vm_compute. reflexivity. Qed.

(** *** [getValue] only adds empty entries *)

Lemma getValue_fst (t : Table) k : (getValue t k).1 = default [] (t !! k).
Proof. unfold getValue. by destruct (t !! k). Qed.

Lemma getValue_lookup (t : Table) k n l :
  t !! n = Some l → (getValue t k).2 !! n = Some l.
Proof.
  intros Hn. unfold getValue. destruct (t !! k) eqn:Hk; simpl; [done|].
  rewrite lookup_insert_ne; [done|]. intros ->. congruence.
Qed.

Lemma getValue_deps (t : Table) k n : deps (getValue t k).2 n = deps t n.
Proof.
  unfold deps. rewrite !getValue_fst. unfold getValue.
  destruct (t !! k) eqn:Hk; simpl; [done|].
  destruct (decide (k = n)) as [->|Hne].
  - by rewrite lookup_insert_eq, Hk.
  - by rewrite lookup_insert_ne.
Qed.

Lemma elem_of_names (t : Table) x :
  x ∈ names t ↔ ∃ k l, t !! k = Some l ∧ x ∈ l.
Proof.
  unfold names. rewrite elem_of_union_list. split.
  - intros (X & HX & Hx). apply list_elem_of_fmap in HX as (l & -> & Hl).
    apply list_elem_of_fmap in Hl as ([k l'] & -> & Hkl).
    apply elem_of_map_to_list in Hkl. exists k, l'. split; [done|].
    by apply elem_of_list_to_set in Hx.
  - intros (k & l & Hk & Hx). exists (list_to_set l). split.
    + apply list_elem_of_fmap. exists l. split; [done|].
      apply list_elem_of_fmap. exists (k, l). split; [done|].
      by apply elem_of_map_to_list.
    + by apply elem_of_list_to_set.
Qed.

Lemma deps_names (t : Table) n x : x ∈ deps t n → x ∈ names t.
Proof.
  unfold deps. rewrite getValue_fst. intros Hx. apply elem_of_names.
  destruct (t !! n) as [l|] eqn:Hn; simpl in Hx.
  - by exists n, l.
  - by apply elem_of_nil in Hx.
Qed.

Lemma getValue_names (t : Table) k : names (getValue t k).2 = names t.
Proof.
  apply set_eq. intros x. rewrite !elem_of_names. unfold getValue.
  destruct (t !! k) eqn:Hk; simpl; [done|]. split.
  - intros (k' & l & Hl & Hx). destruct (decide (k = k')) as [->|Hne].
    + rewrite lookup_insert_eq in Hl. injection Hl as <-.
      by apply elem_of_nil in Hx.
    + rewrite lookup_insert_ne in Hl by done. by exists k', l.
  - intros (k' & l & Hl & Hx). exists k', l. split; [|done].
    rewrite lookup_insert_ne; [done|]. intros ->. congruence.
Qed.

(** *** The inner loop computes the first discoveries of one list *)

Lemma fold_visit l st :
  fold_left visit l st =
  {| printed := (discover (printed st) l).1;
     toProcess := toProcess st ++ (discover (printed st) l).2;
     written := written st ++ (discover (printed st) l).2;
     table := table st |}.
Proof.
  revert st. induction l as [|d l IH]; intros st; simpl.
  - rewrite !app_nil_r. by destruct st.
  - rewrite IH. unfold visit. destruct (decide (d ∈ printed st)); simpl; [done|].
    by rewrite <- !app_assoc.
Qed.

Lemma discover_seen seen l :
  (discover seen l).1 = seen ∪ list_to_set (discover seen l).2.
Proof.
  revert seen. induction l as [|d l IH]; intros seen; simpl.
  - set_solver.
  - destruct (decide (d ∈ seen)); simpl; [apply IH|]. rewrite IH. set_solver.
Qed.

Lemma discover_new seen l x :
  x ∈ (discover seen l).2 ↔ x ∈ l ∧ x ∉ seen.
Proof.
  revert seen. induction l as [|d l IH]; intros seen; simpl.
  - set_solver.
  - destruct (decide (d ∈ seen)); simpl.
    + rewrite IH. set_solver.
    + rewrite elem_of_cons, IH. destruct (decide (x = d)); set_solver.
Qed.

Lemma discover_NoDup seen l : NoDup (discover seen l).2.
Proof.
  revert seen. induction l as [|d l IH]; intros seen; simpl.
  - constructor.
  - destruct (decide (d ∈ seen)); simpl; [apply IH|].
    constructor; [|apply IH]. rewrite discover_new. set_solver.
Qed.

Lemma discover_size (U : gset string) seen l :
  (∀ x, x ∈ l → x ∈ U) →
  size (U ∖ (discover seen l).1) + length (discover seen l).2 = size (U ∖ seen).
Proof.
  revert seen. induction l as [|d l IH]; intros seen Hl; simpl.
  - lia.
  - assert (Hl' : ∀ x, x ∈ l → x ∈ U) by (intros; apply Hl; set_solver).
    destruct (decide (d ∈ seen)) as [Hd|Hd]; simpl; [by apply IH|].
    specialize (IH ({[d]} ∪ seen) Hl').
    assert (HU : U ∖ seen = {[d]} ∪ U ∖ ({[d]} ∪ seen)).
    { apply set_eq. intros y. specialize (Hl d).
      destruct (decide (y = d)) as [->|]; set_solver. }
    assert (Hsz : size (U ∖ seen) = 1 + size (U ∖ ({[d]} ∪ seen))).
    { rewrite HU at 1. rewrite (size_union (C := gset string)) by set_solver.
      by rewrite size_singleton. }
    lia.
Qed.

(** *** The loop of the source and the loop over a fixed graph agree *)

Lemma walk_ext D D' fuel seen q :
  (∀ n, D n = D' n) → walk D fuel seen q = walk D' fuel seen q.
Proof.
  intros HD. revert seen q. induction fuel as [|fuel IH]; intros seen q.
  - by destruct q.
  - destruct q as [|n rest]; simpl; [done|]. by rewrite HD, IH.
Qed.

Lemma printDependencies_walk fuel st :
  match printDependencies fuel st with
  | Some st' =>
      ∃ out, walk (deps (table st)) fuel (printed st) (toProcess st)
               = Some (printed st', out)
             ∧ written st' = written st ++ out
             ∧ toProcess st' = []
             ∧ (∀ n, deps (table st') n = deps (table st) n)
             ∧ (∀ n l, table st !! n = Some l → table st' !! n = Some l)
             ∧ names (table st') = names (table st)
  | None => walk (deps (table st)) fuel (printed st) (toProcess st) = None
  end.
Proof.
  revert st. induction fuel as [|fuel IH]; intros st.
  - destruct st as [P q w t]. destruct q as [|n rest]; simpl; [|done].
    exists []. by rewrite app_nil_r.
  - destruct st as [P q w t]. destruct q as [|n rest]; simpl.
    { exists []. by rewrite app_nil_r. }
    unfold iteration; simpl.
    pose proof (getValue_deps t n) as Hd.
    pose proof (getValue_lookup t n) as Hl.
    pose proof (getValue_names t n) as Hn.
    assert (Hfst : (getValue t n).1 = deps t n) by done.
    destruct (getValue t n) as [ll t'] eqn:Hg; simpl in *. subst ll.
    rewrite fold_visit; simpl.
    match goal with |- context [printDependencies fuel ?s] => specialize (IH s) end.
    simpl in IH.
    rewrite (walk_ext _ _ _ _ _ Hd) in IH.
    destruct (printDependencies fuel _) as [st'|].
    + destruct IH as (out & Hw & Hwr & Hq & Hdeps & Hlook & Hnames).
      rewrite Hw.
      exists ((discover P (deps t n)).2 ++ out). repeat split.
      * rewrite Hwr. by rewrite app_assoc.
      * done.
      * intros k. by rewrite Hdeps, Hd.
      * intros k l Hk. by apply Hlook, Hl.
      * by rewrite Hnames.
    + by rewrite IH.
Qed.

(** *** Termination *)

Lemma walk_terminates (U : gset string) D fuel seen q :
  (∀ n x, x ∈ D n → x ∈ U) →
  length q + 2 * size (U ∖ seen) ≤ fuel →
  is_Some (walk D fuel seen q).
Proof.
  intros HU. revert seen q. induction fuel as [|fuel IH]; intros seen q Hle.
  - destruct q; simpl in *; [by eexists | lia].
  - destruct q as [|n rest]; simpl; [by eexists|].
    pose proof (discover_size U seen (D n) (HU n)) as Hsz.
    destruct (IH (discover seen (D n)).1 (rest ++ (discover seen (D n)).2))
      as [[seen' out] Hw].
    { rewrite length_app. simpl in Hle. lia. }
    rewrite Hw. by eexists.
Qed.

Lemma walk_fuel_mono D fuel fuel' seen q r :
  walk D fuel seen q = Some r → fuel ≤ fuel' → walk D fuel' seen q = Some r.
Proof.
  revert fuel' seen q r. induction fuel as [|fuel IH]; intros fuel' seen q r Hw Hle.
  - destruct q; simpl in Hw; [|done]. by destruct fuel'.
  - destruct q as [|n rest]; [by destruct fuel'|].
    destruct fuel' as [|fuel']; [lia|]. simpl in *.
    destruct (walk D fuel _ _) as [[seen' out]|] eqn:Hw'; [|done].
    by rewrite (IH fuel' _ _ _ Hw') by lia.
Qed.

Lemma printDependencies_enough fuel st :
  enough st ≤ fuel → is_Some (printDependencies fuel st).
Proof.
  intros Hle. pose proof (printDependencies_walk fuel st) as Hpw.
  destruct (printDependencies fuel st) as [st'|]; [by eexists|].
  destruct (walk_terminates (names (table st)) (deps (table st)) fuel
              (printed st) (toProcess st)) as [r Hr].
  - intros n x. apply deps_names.
  - exact Hle.
  - congruence.
Qed.

Lemma printDependencies_done fuel st st' :
  printDependencies fuel st = Some st' → toProcess st' = [].
Proof.
  revert st. induction fuel as [|fuel IH]; intros st Hst; simpl in Hst.
  - destruct (toProcess st) eqn:Hq; [|done]. by injection Hst as <-.
  - destruct (toProcess st) eqn:Hq; [by injection Hst as <-|]. by eapply IH.
Qed.

Lemma printDependencies_fuel_mono fuel fuel' st st' :
  printDependencies fuel st = Some st' → fuel ≤ fuel' →
  printDependencies fuel' st = Some st'.
Proof.
  revert fuel' st. induction fuel as [|fuel IH]; intros fuel' st Hst Hle; simpl in Hst.
  - destruct (toProcess st) eqn:Hq; [|done].
    destruct fuel'; simpl; by rewrite Hq.
  - destruct fuel' as [|fuel']; [lia|]. simpl.
    destruct (toProcess st) eqn:Hq; [done|]. apply IH; [done|lia].
Qed.

(** *** What the traversal emits *)

Lemma walk_out D fuel seen q seen' out :
  walk D fuel seen q = Some (seen', out) →
  seen' = seen ∪ list_to_set out ∧ NoDup out ∧ (∀ x, x ∈ out → x ∉ seen).
Proof.
  revert seen q seen' out. induction fuel as [|fuel IH]; intros seen q seen' out Hw.
  - destruct q; simpl in Hw; [|done]. injection Hw as <- <-.
    split; [set_solver|]. split; [constructor|]. set_solver.
  - destruct q as [|n rest]; simpl in Hw.
    { injection Hw as <- <-. split; [set_solver|]. split; [constructor|]. set_solver. }
    destruct (walk D fuel _ _) as [[s1 o1]|] eqn:Hw1; [|done].
    injection Hw as <- <-.
    apply IH in Hw1 as (Hs1 & Hnd & Hnew).
    pose proof (discover_seen seen (D n)) as Hds.
    pose proof (discover_NoDup seen (D n)) as Hdn.
    pose proof (discover_new seen (D n)) as Hdx.
    split; [|split].
    + rewrite Hs1, Hds, list_to_set_app_L. set_solver.
    + apply NoDup_app. split; [done|]. split; [|done].
      intros x Hx Hx'. apply Hnew in Hx'. rewrite Hds in Hx'. set_solver.
    + intros x Hx. apply elem_of_app in Hx as [Hx|Hx].
      * apply Hdx in Hx. tauto.
      * apply Hnew in Hx. rewrite Hds in Hx. set_solver.
Qed.

(** Names printed and no longer pending have all their dependencies printed. *)
Lemma walk_closed D fuel seen q seen' out :
  walk D fuel seen q = Some (seen', out) →
  (∀ x, x ∈ seen → x ∈ q ∨ ∀ d, d ∈ D x → d ∈ seen) →
  ∀ x, x ∈ seen' → ∀ d, d ∈ D x → d ∈ seen'.
Proof.
  revert seen q seen' out. induction fuel as [|fuel IH]; intros seen q seen' out Hw Hc.
  - destruct q; simpl in Hw; [|done]. injection Hw as <- <-.
    intros x Hx. destruct (Hc x Hx) as [Hq|Hd]; [by apply elem_of_nil in Hq|done].
  - destruct q as [|n rest]; simpl in Hw.
    { injection Hw as <- <-.
      intros x Hx. destruct (Hc x Hx) as [Hq|Hd]; [by apply elem_of_nil in Hq|done]. }
    destruct (walk D fuel _ _) as [[s1 o1]|] eqn:Hw1; [|done].
    injection Hw as <- <-. eapply IH; [exact Hw1|].
    pose proof (discover_seen seen (D n)) as Hds.
    pose proof (discover_new seen (D n)) as Hdx.
    intros x Hx. rewrite Hds in Hx. apply elem_of_union in Hx as [Hx|Hx].
    + destruct (Hc x Hx) as [Hq|Hd].
      * apply elem_of_cons in Hq as [->|Hq].
        -- right. intros d Hd. rewrite Hds.
           destruct (decide (d ∈ seen)); [set_solver|].
           apply elem_of_union_r, elem_of_list_to_set, Hdx. done.
        -- left. apply elem_of_app. by left.
      * right. intros d Hd'. rewrite Hds. set_solver.
    + left. apply elem_of_list_to_set in Hx. apply elem_of_app. by right.
Qed.

(** Everything printed is some number of edges away from the root. *)
Lemma walk_reach t root fuel seen q seen' out :
  walk (deps t) fuel seen q = Some (seen', out) →
  (∀ x, x ∈ seen → ∃ k, reach_in t k root x) →
  (∀ x, x ∈ q → ∃ k, reach_in t k root x) →
  ∀ x, x ∈ seen' → ∃ k, reach_in t k root x.
Proof.
  revert seen q seen' out.
  induction fuel as [|fuel IH]; intros seen q seen' out Hw Hs Hq.
  - destruct q; simpl in Hw; [|done]. by injection Hw as <- <-.
  - destruct q as [|n rest]; simpl in Hw; [by injection Hw as <- <-|].
    destruct (walk _ fuel _ _) as [[s1 o1]|] eqn:Hw1; [|done].
    injection Hw as <- <-.
    pose proof (discover_seen seen (deps t n)) as Hds.
    pose proof (discover_new seen (deps t n)) as Hdx.
    assert (Hnew : ∀ x, x ∈ (discover seen (deps t n)).2 → ∃ k, reach_in t k root x).
    { intros x Hx. apply Hdx in Hx as [Hx _].
      destruct (Hq n) as [k Hk]; [by left|]. exists (S k), n. done. }
    eapply IH; [exact Hw1| |].
    + intros x Hx. rewrite Hds in Hx. apply elem_of_union in Hx as [Hx|Hx]; [auto|].
      apply elem_of_list_to_set in Hx. auto.
    + intros x Hx. apply elem_of_app in Hx as [Hx|Hx]; [|auto].
      apply Hq. by right.
Qed.

Lemma closed_reach t root (S : gset string) :
  root ∈ S → (∀ x, x ∈ S → ∀ d, d ∈ deps t x → d ∈ S) →
  ∀ k x, reach_in t k root x → x ∈ S.
Proof.
  intros Hroot Hc k. induction k as [|k IH]; intros x Hx; simpl in Hx.
  - by subst.
  - destruct Hx as (n & Hn & Hd). eapply Hc; [|exact Hd]. by apply IH.
Qed.

Lemma walk_root_elem t root fuel seen' out x :
  walk (deps t) fuel {[root]} [root] = Some (seen', out) →
  x ∈ out ↔ x ≠ root ∧ reachable t root x.
Proof.
  intros Hw.
  pose proof (walk_out _ _ _ _ _ _ Hw) as (Hs & _ & Hnew).
  split.
  - intros Hx. assert (Hne : x ≠ root) by (apply Hnew in Hx; set_solver).
    split; [done|].
    destruct (walk_reach t root _ _ _ _ _ Hw) with (x := x) as [k Hk].
    + intros y Hy. exists 0. simpl. set_solver.
    + intros y Hy. exists 0. simpl. set_solver.
    + rewrite Hs. set_solver.
    + destruct k as [|k]; [done|]. by exists k.
  - intros [Hne [k Hk]].
    assert (Hin : x ∈ seen').
    { eapply (closed_reach t root seen'); [| |exact Hk].
      - rewrite Hs. set_solver.
      - eapply walk_closed; [exact Hw|]. intros y Hy. left. set_solver. }
    rewrite Hs in Hin. set_solver.
Qed.

(** *** Breadth-first order *)

Lemma discoveries_elem t seen q x :
  x ∈ discoveries t seen q ↔ (x ∉ seen) ∧ ∃ n, n ∈ q ∧ x ∈ deps t n.
Proof.
  revert seen. induction q as [|n q IH]; intros seen; simpl.
  - split; [by intros ?%elem_of_nil|]. intros (_ & n & Hn & _). by apply elem_of_nil in Hn.
  - pose proof (discover_seen seen (deps t n)) as Hds.
    pose proof (discover_new seen (deps t n) x) as Hdx.
    rewrite elem_of_app, IH, Hdx, Hds. split.
    + intros [[Hx Hs]|(Hs & m & Hm & Hx)].
      * split; [done|]. exists n. split; [by left|done].
      * split; [set_solver|]. exists m. split; [by right|done].
    + intros (Hs & m & Hm & Hx). apply elem_of_cons in Hm as [->|Hm]; [by left|].
      destruct (decide (x ∈ deps t n)) as [Hxn|Hxn]; [by left|].
      right. split.
      * intros [?|Hn]%elem_of_union; [done|].
        apply elem_of_list_to_set, discover_new in Hn. tauto.
      * by exists m.
Qed.

(** Expanding a whole prefix [q] of the pending list leaves the rest of the
    list followed by the discoveries of [q]. *)
Lemma walk_app D t fuel seen q s seen' out :
  (∀ n, D n = deps t n) →
  walk D fuel seen (q ++ s) = Some (seen', out) →
  ∃ out', walk D (fuel - length q)
            (seen ∪ list_to_set (discoveries t seen q))
            (s ++ discoveries t seen q) = Some (seen', out')
          ∧ out = discoveries t seen q ++ out'
          ∧ length q ≤ fuel.
Proof.
  intros HD. revert fuel seen s out.
  induction q as [|n q IH]; intros fuel seen s out Hw; simpl in *.
  - exists out. rewrite app_nil_r, Nat.sub_0_r, union_empty_r_L. split; [done|]. split; [done|lia].
  - destruct fuel as [|fuel]; [done|]. simpl in Hw.
    destruct (walk D fuel _ _) as [[s1 o1]|] eqn:Hw1; [|done].
    injection Hw as <- <-.
    rewrite <- app_assoc in Hw1. apply IH in Hw1 as (out' & Hw' & -> & Hle).
    rewrite HD in *.
    exists out'. split; [|split; [by rewrite app_assoc | lia]].
    simpl. rewrite <- app_assoc in Hw'.
    rewrite list_to_set_app_L, (assoc_L (∪)), <- discover_seen. exact Hw'.
Qed.

Lemma near_mono t root x k k' : near t k root x → k ≤ k' → near t k' root x.
Proof. intros (j & Hj & Hr) Hle. exists j. split; [lia|done]. Qed.

Lemma exactly_near t root x k : exactly t k root x → near t k root x.
Proof. intros [Hr _]. by exists k. Qed.

Lemma exactly_not_near t root x k : exactly t (S k) root x → ¬ near t k root x.
Proof. intros [_ Hn] (j & Hj & Hr). apply (Hn j); [lia|done]. Qed.

(** One level of the traversal: if [seen] holds the names at most [k] edges
    away and [q] those exactly [k] edges away, the discoveries of [q] are
    the names exactly [k+1] edges away. *)
Lemma level_step t root k (seen : gset string) q :
  (∀ x, x ∈ seen ↔ near t k root x) →
  (∀ x, x ∈ q ↔ exactly t k root x) →
  (∀ x, x ∈ discoveries t seen q ↔ exactly t (S k) root x) ∧
  (∀ x, x ∈ seen ∪ list_to_set (discoveries t seen q) ↔ near t (S k) root x).
Proof.
  intros Hs Hq.
  assert (Hd : ∀ x, x ∈ discoveries t seen q ↔ exactly t (S k) root x).
  { intros x. rewrite discoveries_elem. split.
    - intros (Hx & n & Hn & Hxn). apply Hq in Hn as [Hn _]. split.
      + by exists n.
      + intros j Hj Hr. apply Hx, Hs. exists j. split; [lia|done].
    - intros [(n & Hn & Hxn) Hmin]. split.
      + intros (j & Hj & Hr)%Hs. apply (Hmin j); [lia|done].
      + exists n. split; [|done]. apply Hq. split; [done|].
        intros j Hj Hr. apply (Hmin (S j)); [lia|]. by exists n. }
  split; [done|]. intros x. rewrite elem_of_union, elem_of_list_to_set, Hd, Hs. split.
  - intros [Hn|He]; [by eapply near_mono; [|apply Nat.le_succ_diag_r]|by apply exactly_near].
  - intros (j & Hj & Hr). destruct (decide (x ∈ seen)) as [Hx|Hx]; [left; by apply Hs|].
    right. assert (j = S k) as ->.
    { destruct (decide (j = S k)); [done|]. exfalso. apply Hx, Hs. exists j. split; [lia|done]. }
    split; [done|]. intros j' Hj' Hr'. apply Hx, Hs. exists j'. split; [lia|done].
Qed.

Lemma walk_levels t root fuel :
  ∀ k seen q seen' out,
    (∀ x, x ∈ seen ↔ near t k root x) →
    (∀ x, x ∈ q ↔ exactly t k root x) →
    walk (deps t) fuel seen q = Some (seen', out) →
    (∀ x, x ∈ out → ¬ near t k root x) ∧ breadth_first t root out.
Proof.
  induction (lt_wf fuel) as [fuel _ IH]. intros k seen q seen' out Hs Hq Hw.
  destruct (decide (q = [])) as [->|Hne].
  { destruct fuel; simpl in Hw; injection Hw as <- <-.
    all: split; [by intros x ?%elem_of_nil|]; intros i j x y _ Hi; by rewrite lookup_nil in Hi. }
  rewrite <- (app_nil_r q) in Hw.
  apply (walk_app _ t) in Hw as (out' & Hw & -> & Hle); [|done].
  simpl in Hw.
  destruct (level_step t root k seen q Hs Hq) as [Hnew Hseen].
  assert (Hlen : 0 < length q) by (destruct q; simpl in *; [done|lia]).
  pose proof (IH (fuel - length q) ltac:(lia) (S k) _ _ _ _ Hseen Hnew Hw) as [Hfar Hbf].
  assert (Hout : ∀ x, x ∈ discoveries t seen q ++ out' → ¬ near t k root x).
  { intros x [Hx|Hx]%elem_of_app.
    - by apply exactly_not_near, Hnew.
    - intros Hn. apply (Hfar x Hx). eapply near_mono; [exact Hn|lia]. }
  split; [done|].
  intros i j x y Hij Hi Hj d Hd.
  destruct (decide (i < length (discoveries t seen q))) as [Hlt|Hge].
  - rewrite lookup_app_l in Hi by done.
    assert (Hx : near t (S k) root x).
    { apply exactly_near, Hnew. by eapply list_elem_of_lookup_2. }
    destruct (decide (S k ≤ d)); [by eapply near_mono|].
    exfalso. apply (Hout y); [by eapply list_elem_of_lookup_2|].
    eapply near_mono; [exact Hd|lia].
  - rewrite lookup_app_r in Hi by lia. rewrite lookup_app_r in Hj by lia.
    eapply (Hbf _ _ x y); [|exact Hi|exact Hj|exact Hd]. lia.
Qed.

(** *** First-discovery order *)

Lemma walk_discoveries t fuel seen q seen' out :
  walk (deps t) fuel seen q = Some (seen', out) →
  discoveries t seen (q ++ out) = out.
Proof.
  revert seen q seen' out. induction fuel as [|fuel IH]; intros seen q seen' out Hw.
  - destruct q; simpl in Hw; [|done]. by injection Hw as <- <-.
  - destruct q as [|n rest]; simpl in Hw; [by injection Hw as <- <-|].
    destruct (walk _ fuel _ _) as [[s1 o1]|] eqn:Hw1; [|done].
    injection Hw as <- <-. apply IH in Hw1. simpl.
    rewrite <- app_assoc in Hw1. by rewrite Hw1.
Qed.

(** *** The traversal from a root, as run by [main] *)

Lemma flatten_run t root :
  ∃ st', printDependencies (enough (initial t root)) (initial t root) = Some st'
         ∧ walk (deps t) (enough (initial t root)) {[root]} [root]
           = Some (printed st', written st')
         ∧ toProcess st' = []
         ∧ flatten t root = written st'
         ∧ flatten_table t root = table st'
         ∧ (∀ n l, t !! n = Some l → table st' !! n = Some l)
         ∧ (∀ n, deps (table st') n = deps t n).
Proof.
  destruct (printDependencies_enough (enough (initial t root)) (initial t root))
    as [st' Hst']; [done|].
  pose proof (printDependencies_walk (enough (initial t root)) (initial t root)) as Hpw.
  unfold flatten, flatten_table. rewrite Hst' in *.
  destruct Hpw as (out & Hw & Hwr & Hq & Hd & Hl & _). simpl in *.
  subst out. by exists st'.
Qed.

Lemma flatten_walk t root :
  ∃ fuel seen', walk (deps t) fuel {[root]} [root] = Some (seen', flatten t root).
Proof.
  destruct (flatten_run t root) as (st' & _ & Hw & _ & -> & _).
  by eexists _, _.
Qed.

Lemma flatten_NoDup t root : NoDup (flatten t root).
Proof.
  destruct (flatten_walk t root) as (fuel & seen' & Hw).
  by apply walk_out in Hw as (_ & ? & _).
Qed.

Lemma flatten_elem t root x :
  x ∈ flatten t root ↔ x ≠ root ∧ reachable t root x.
Proof.
  destruct (flatten_walk t root) as (fuel & seen' & Hw).
  by eapply walk_root_elem.
Qed.

Lemma flatten_breadth_first t root : breadth_first t root (flatten t root).
Proof.
  destruct (flatten_walk t root) as (fuel & seen' & Hw).
  eapply (walk_levels t root fuel 0); [| |exact Hw].
  - intros x. rewrite elem_of_singleton. split.
    + intros ->. by exists 0.
    + intros (j & Hj & Hr). assert (j = 0) as -> by lia. done.
  - intros x. rewrite list_elem_of_singleton. split.
    + intros ->. split; [done|]. intros j Hj. lia.
    + by intros [Hr _].
Qed.

Lemma flatten_discoveries t root :
  discoveries t {[root]} (root :: flatten t root) = flatten t root.
Proof.
  destruct (flatten_walk t root) as (fuel & seen' & Hw).
  by apply walk_discoveries in Hw.
Qed.

Lemma flatten_head t root d l :
  deps t root = d :: l → d ≠ root → head (flatten t root) = Some d.
Proof.
  intros Hd Hne. rewrite <- flatten_discoveries. simpl. rewrite Hd. simpl.
  destruct (decide (d ∈ ({[root]} : gset string))) as [Hin|_]; [set_solver|]. done.
Qed.

Lemma flatten_table_lookup t root n l :
  t !! n = Some l → flatten_table t root !! n = Some l.
Proof.
  destruct (flatten_run t root) as (st' & _ & _ & _ & _ & -> & Hl & _). apply Hl.
Qed.

Lemma flatten_table_deps t root n : deps (flatten_table t root) n = deps t n.
Proof.
  destruct (flatten_run t root) as (st' & _ & _ & _ & _ & -> & _ & Hd). apply Hd.
Qed.

(** The edges that [deps] gives are the entries stored in the table. *)
Lemma deps_listed (t : Table) n d : d ∈ deps t n ↔ listed t n d.
Proof.
  unfold deps, listed. rewrite getValue_fst.
  destruct (t !! n) as [l|]; simpl.
  - split; [intros Hd; by exists l|]. by intros (l' & [= <-] & Hd).
  - split; [by intros ?%elem_of_nil|]. by intros (l' & [=] & _).
Qed.

Lemma reach_in_nsteps (t : Table) k root x :
  reach_in t k root x ↔ nsteps (listed t) k root x.
Proof.
  revert x. induction k as [|k IH]; intros x; simpl.
  - split; [intros ->; constructor|]. by inversion 1.
  - split.
    + intros (n & Hn & Hd). eapply nsteps_r; [by apply IH|by apply deps_listed].
    + intros (n & Hn & Hd)%nsteps_inv_r. exists n.
      split; [by apply IH|by apply deps_listed].
Qed.

Lemma reachable_listed (t : Table) root x :
  reachable t root x ↔ tc (listed t) root x.
Proof.
  rewrite tc_nsteps. unfold reachable. split.
  - intros [k Hk]. exists (S k). split; [lia|]. by apply reach_in_nsteps.
  - intros (k & Hpos & Hk). destruct k as [|k]; [lia|].
    exists k. by apply reach_in_nsteps.
Qed.

(** C1. For every table and root, the call of [printDependencies] made by
    [main] returns; the names it wrote are pairwise distinct, exclude the
    root (which is in [printed] from the start), are exactly the names
    reachable from the root, come in breadth-first order (never a name
    before a strictly closer one), and are the first discoveries made when
    the root and then the written names themselves are expanded in order.
    The graph traversed is the one the table stores: the dependency list of
    a name is its entry, empty when it has none, and the names written are
    those that a non-empty chain of stored entries links to the root. *)
Theorem printDependencies_breadth_first_once (t : Table) (root : string) :
  ∃ st', printDependencies (enough (initial t root)) (initial t root) = Some st'
         ∧ toProcess st' = []
         ∧ written st' = flatten t root
         ∧ NoDup (written st')
         ∧ (root ∉ written st')
         ∧ (∀ x, x ∈ written st' ↔ x ≠ root ∧ reachable t root x)
         ∧ breadth_first t root (written st')
         ∧ discoveries t {[root]} (root :: written st') = written st'
         ∧ (∀ n, deps t n = default [] (t !! n))
         ∧ (∀ x, x ∈ written st' ↔ x ≠ root ∧ tc (listed t) root x).
Proof.
  destruct (flatten_run t root) as (st' & Hrun & _ & Hq & Hfl & _).
  exists st'. rewrite <- Hfl.
  split; [done|]. split; [done|]. split; [done|].
  split; [apply flatten_NoDup|].
  split; [rewrite flatten_elem; tauto|].
  split; [intros x; apply flatten_elem|].
  split; [apply flatten_breadth_first|].
  split; [apply flatten_discoveries|].
  split; [intros n; apply getValue_fst|].
  intros x. rewrite <- reachable_listed. apply flatten_elem.
Qed.

(** C3. [printDependencies] terminates from every state, whatever the
    table (cycles included): [enough st] iterations, or any larger number,
    empty the pending list, and the result does not depend on the number
    of iterations allowed. *)
Theorem printDependencies_terminates (st : PState) :
  ∃ st', toProcess st' = [] ∧
         ∀ fuel, enough st ≤ fuel → printDependencies fuel st = Some st'.
Proof.
  destruct (printDependencies_enough (enough st) st) as [st' Hst']; [done|].
  exists st'. split.
  - by eapply printDependencies_done.
  - intros fuel Hle. by eapply printDependencies_fuel_mono.
Qed.

(** Breadth first, not depth first: [c.h], which [a.h] includes, comes
    after [b.h]. *)
Example flatten_levels :
  flatten (<["r.o" := ["a.h"; "b.h"]]> (<["a.h" := ["c.h"; "b.h"]]>
           (<["b.h" := ["d.h"; "a.h"]]> ∅))) "r.o"
  = ["a.h"; "b.h"; "c.h"; "d.h"].
Proof. vm_compute. reflexivity. Qed.

(** The cycle of the specification: [a.h] and [b.h] include each other. *)
Example flatten_cycle :
  flatten (<["r.o" := ["r.c"]]> (<["r.c" := ["a.h"]]>
           (<["a.h" := ["b.h"]]> (<["b.h" := ["a.h"]]> ∅)))) "r.o"
  = ["r.c"; "a.h"; "b.h"].
Proof. vm_compute. reflexivity. Qed.

End PrinterFacts.

(** ** The scanner *)

Section ScannerFacts.

Local Arguments String.append !s1 s2 : simpl nomatch.

Lemma skip_space_unspaced p : unspaced p → skip_space p = p.
Proof. destruct p as [|c p]; simpl; [done|]. by intros ->. Qed.

Lemma skip_space_blank ws rest :
  blank ws → unspaced rest → skip_space (ws +:+ rest) = rest.
Proof.
  intros Hws Hrest. induction ws as [|c ws IH]; simpl in *.
  - by apply skip_space_unspaced.
  - destruct Hws as [-> Hws]. by apply IH.
Qed.

Lemma skip_space_split p :
  ∃ ws, p = ws +:+ skip_space p ∧ blank ws ∧ unspaced (skip_space p).
Proof.
  induction p as [|c p (ws & Hp & Hws & Hu)]; simpl.
  - by exists EmptyString.
  - destruct (isspace c) eqn:Hc.
    + exists (String c ws). simpl. by rewrite <- Hp.
    + exists EmptyString. simpl. by rewrite Hc.
Qed.

Lemma prefix_split a p : String.prefix a p = true → p = a +:+ advance (String.length a) p.
Proof.
  revert p. induction a as [|x a IH]; intros p Hp; [done|].
  destruct p as [|y p]; simpl in *; [done|].
  destruct (ascii_dec x y) as [->|]; [|done]. by rewrite <- IH.
Qed.

Lemma prefix_append a p : String.prefix a (a +:+ p) = true.
Proof.
  induction a as [|x a IH]; simpl; [by destruct p|].
  by destruct (ascii_dec x x).
Qed.

Lemma advance_append a p : advance (String.length a) (a +:+ p) = p.
Proof. induction a as [|x a IH]; simpl; [done|]. exact IH. Qed.

Lemma collect_closed name tail :
  plain name → collect (name +:+ String quote tail) = name.
Proof.
  induction name as [|c name IH]; simpl.
  - done.
  - intros [Hc Hn]. apply Ascii.eqb_neq in Hc. by rewrite Hc, IH.
Qed.

Lemma collect_open name : plain name → collect name = name.
Proof.
  induction name as [|c name IH]; simpl; [done|].
  intros [Hc Hn]. apply Ascii.eqb_neq in Hc. by rewrite Hc, IH.
Qed.

Lemma collect_split p :
  plain (collect p) ∧
  (p = collect p ∨ ∃ tail, p = collect p +:+ String quote tail).
Proof.
  induction p as [|c p [Hpl Hp]]; simpl.
  - split; [done|]. by left.
  - destruct (Ascii.eqb c quote) eqn:Hc; simpl.
    + split; [done|]. right. exists p. by apply Ascii.eqb_eq in Hc as ->.
    + split; [by apply Ascii.eqb_neq in Hc|].
      destruct Hp as [Hp|[tail Hp]]; [left|right; exists tail]; by rewrite <- Hp.
Qed.

(** *** The matcher accepts exactly the local include lines *)

Lemma parse_include_ignored buf : ignored (c_str buf) → parse_include buf = None.
Proof.
  unfold parse_include. intros [ws rest -> Hws Hrest Hpre | ws ws' rest -> Hws Hws' Hrest Hq].
  - rewrite skip_space_blank by done. by rewrite Hpre.
  - rewrite skip_space_blank; [|done|done].
    rewrite prefix_append. simpl negb. cbv iota.
    change 8 with (String.length "#include").
    rewrite advance_append, skip_space_blank by done.
    destruct rest as [|c rest]; [done|]. simpl in Hq.
    apply Ascii.eqb_neq in Hq. by rewrite Hq.
Qed.

Lemma parse_include_includes buf name :
  includes name (c_str buf) → parse_include buf = Some name.
Proof.
  unfold parse_include.
  intros [ws ws' tail -> Hws Hws' Hpl | ws ws' -> Hws Hws' Hpl].
  all: rewrite skip_space_blank; [|done|done].
  all: rewrite prefix_append; simpl negb; cbv iota.
  all: change 8 with (String.length "#include").
  all: rewrite advance_append, skip_space_blank; [|done|done].
  all: rewrite Ascii.eqb_refl.
  - by rewrite collect_closed.
  - by rewrite collect_open.
Qed.

Lemma parse_include_cases buf :
  match parse_include buf with
  | None => ignored (c_str buf)
  | Some name => includes name (c_str buf)
  end.
Proof.
  unfold parse_include.
  destruct (skip_space_split (c_str buf)) as (ws & Hbuf & Hws & Hu).
  destruct (String.prefix "#include" (skip_space (c_str buf))) eqn:Hpre; cbn [negb].
  - apply prefix_split in Hpre. change (String.length "#include") with 8 in Hpre.
    destruct (skip_space_split (advance 8 (skip_space (c_str buf))))
      as (ws' & Hadv & Hws' & Hu').
    assert (Hline : c_str buf = ws +:+ "#include" +:+ ws' +:+
                      skip_space (advance 8 (skip_space (c_str buf)))).
    { rewrite Hbuf at 1. f_equal. rewrite Hpre at 1. f_equal. exact Hadv. }
    destruct (skip_space (advance 8 (skip_space (c_str buf)))) as [|c p'] eqn:Hrest.
    + by eapply (ignored_system _ ws ws' EmptyString).
    + destruct (Ascii.eqb c quote) eqn:Hc.
      * apply Ascii.eqb_eq in Hc as ->.
        destruct (collect_split p') as [Hpl [Hp|[tail Hp]]].
        -- eapply (includes_open _ _ ws ws'); [|done..]. by rewrite <- Hp.
        -- eapply (includes_closed _ _ ws ws' tail); [|done..]. by rewrite <- Hp.
      * apply Ascii.eqb_neq in Hc.
        by eapply (ignored_system _ ws ws' (String c p')).
  - by eapply (ignored_other _ ws (skip_space (c_str buf))).
Qed.

Example parse_include_local :
  parse_include ("  #include  " +:+ String quote ("inc1.h" +:+ String quote (" // x" +:+ endl)))
  = Some "inc1.h".
Proof. reflexivity. Qed.

Example parse_include_system : parse_include ("#include <stdio.h>" +:+ endl) = None.
Proof. reflexivity. Qed.

Lemma includes_iff buf name :
  includes name (c_str buf) ↔ parse_include buf = Some name.
Proof.
  split; [apply parse_include_includes|].
  intros Hp. pose proof (parse_include_cases buf) as Hc. by rewrite Hp in Hc.
Qed.

Lemma ignored_iff buf : ignored (c_str buf) ↔ parse_include buf = None.
Proof.
  split; [apply parse_include_ignored|].
  intros Hp. pose proof (parse_include_cases buf) as Hc. by rewrite Hp in Hc.
Qed.

(** *** [fgets] loses nothing of the file *)

Lemma fgets_append room content :
  (fgets room content).1 +:+ (fgets room content).2 = content.
Proof.
  revert content. induction room as [|room IH]; intros content; [done|].
  destruct content as [|c content]; simpl; [done|].
  destruct (Ascii.eqb c newline); simpl; [done|]. by rewrite IH.
Qed.

Lemma fgets_length room content :
  String.length (fgets room content).2 ≤ String.length content.
Proof.
  revert content. induction room as [|room IH]; intros content; [done|].
  destruct content as [|c content]; simpl; [done|].
  destruct (Ascii.eqb c newline); simpl; [lia|]. specialize (IH content). lia.
Qed.

Lemma read_lines_concat room fuel content :
  String.length content ≤ fuel →
  fold_right String.append EmptyString (read_lines (S room) fuel content) = content.
Proof.
  revert content. induction fuel as [|fuel IH]; intros content Hle.
  - destruct content; [done|simpl in Hle; lia].
  - destruct content as [|c content]; [done|].
    change (read_lines (S room) (S fuel) (String c content))
      with ((fgets (S room) (String c content)).1
              :: read_lines (S room) fuel (fgets (S room) (String c content)).2).
    cbn [fold_right]. rewrite IH; [apply fgets_append|].
    cbn [fgets]. destruct (Ascii.eqb c newline); cbn [snd].
    + simpl in Hle. lia.
    + pose proof (fgets_length room content). simpl in Hle. lia.
Qed.

Lemma lines_of_concat content :
  fold_right String.append EmptyString (lines_of content) = content.
Proof. unfold lines_of. apply (read_lines_concat 4094). lia. Qed.

(** With no line longer than 4095 characters, the buffers are the lines. *)

Lemma read_lines_cons room fuel c content :
  read_lines room (S fuel) (String c content)
  = (fgets room (String c content)).1
      :: read_lines room fuel (fgets room (String c content)).2.
Proof. done. Qed.


Lemma fgets_room room room' content :
  String.length (fgets room' content).1 ≤ room → room ≤ room' →
  fgets room content = fgets room' content.
Proof.
  revert room' content. induction room as [|room IH]; intros room' content Hlen Hle.
  - destruct room' as [|room']; [done|]. destruct content as [|c content]; [done|].
    simpl in *. destruct (Ascii.eqb c newline); simpl in Hlen; lia.
  - destruct room' as [|room']; [lia|]. destruct content as [|c content]; [done|].
    simpl in *. destruct (Ascii.eqb c newline); [done|]. simpl in Hlen.
    rewrite (IH room' content); [done|lia|lia].
Qed.

Lemma read_lines_room room room' fuel content :
  Forall (λ l, String.length l ≤ room) (read_lines room' fuel content) →
  room ≤ room' →
  read_lines room fuel content = read_lines room' fuel content.
Proof.
  revert content. induction fuel as [|fuel IH]; intros content Hall Hle.
  - by destruct content.
  - destruct content as [|c content]; [done|].
    rewrite !read_lines_cons in *. apply Forall_cons in Hall as [Hl Hall].
    rewrite (fgets_room room room') by done. by rewrite IH.
Qed.

Lemma fgets_fst_length room content :
  String.length (fgets room content).1 ≤ String.length content.
Proof.
  revert content. induction room as [|room IH]; intros content; [simpl; lia|].
  destruct content as [|c content]; simpl; [done|].
  destruct (Ascii.eqb c newline); simpl; [lia|]. specialize (IH content). lia.
Qed.

Lemma read_lines_bounded room fuel content n :
  String.length content ≤ n →
  Forall (λ l, String.length l ≤ n) (read_lines room fuel content).
Proof.
  revert content. induction fuel as [|fuel IH]; intros content Hn.
  - destruct content; constructor.
  - destruct content as [|c content]; [constructor|].
    rewrite read_lines_cons. constructor.
    + pose proof (fgets_fst_length room (String c content)). lia.
    + apply IH. pose proof (fgets_length room (String c content)). lia.
Qed.

Lemma lines_of_text_lines content :
  Forall (λ l, String.length l ≤ 4095) (text_lines content) →
  lines_of content = text_lines content.
Proof.
  intros Hall. unfold lines_of, text_lines in *.
  destruct (decide (4095 ≤ String.length content)) as [Hle|Hgt].
  - by apply read_lines_room.
  - symmetry. apply read_lines_room; [|lia]. by apply read_lines_bounded.
Qed.

(** *** One line, and a whole file, on the shared structures *)

Lemma deps_lookup (t : Table) k : deps t k = default [] (t !! k).
Proof. apply getValue_fst. Qed.

Lemma deps_push_dep file name t :
  deps (push_dep file name t) file = deps t file ++ [name].
Proof. unfold push_dep. by rewrite deps_lookup, lookup_insert_eq. Qed.

Lemma deps_map_insert_ne k v t n : k ≠ n → deps (map_insert k v t) n = deps t n.
Proof.
  intros Hne. unfold map_insert. destruct (t !! k); [done|].
  by rewrite !deps_lookup, lookup_insert_ne.
Qed.

Lemma process_line_deps file sh buf :
  deps (theTable (process_line file sh buf)) file
  = deps (theTable sh) file ++ from_option (λ n, [n]) [] (parse_include buf).
Proof.
  unfold process_line. destruct (parse_include buf) as [name|]; simpl.
  - destruct (decide (is_Some (push_dep file name (theTable sh) !! name)))
      as [Hin|Hnot]; simpl.
    + apply deps_push_dep.
    + rewrite deps_map_insert_ne; [apply deps_push_dep|].
      intros ->. apply Hnot. unfold push_dep. rewrite lookup_insert_eq. by eexists.
  - by rewrite app_nil_r.
Qed.

Lemma scan_deps file lines sh :
  deps (theTable (fold_left (process_line file) lines sh)) file
  = deps (theTable sh) file ++ omap parse_include lines.
Proof.
  revert sh. induction lines as [|buf lines IH]; intros sh; simpl.
  - by rewrite app_nil_r.
  - rewrite IH, process_line_deps, <- app_assoc. f_equal.
    by destruct (parse_include buf).
Qed.

Lemma count_occ_matches name lines :
  count_occ string_dec (omap parse_include lines) name = count_matches name lines.
Proof.
  unfold count_matches. induction lines as [|buf lines IH]; [done|].
  rewrite filter_cons. cbn [omap list_omap].
  destruct (parse_include buf) as [n|] eqn:Hp.
  - cbn [count_occ]. destruct (string_dec n name) as [->|Hne].
    + rewrite decide_True by done. cbn [length]. by rewrite IH.
    + rewrite decide_False by congruence. done.
  - rewrite decide_False by done. done.
Qed.

Lemma count_occ_flatten t root name :
  name ≠ root → reachable t root name →
  count_occ string_dec (flatten t root) name = 1.
Proof.
  intros Hne Hr.
  assert (Hin : name ∈ flatten t root) by by apply flatten_elem.
  apply list_elem_of_In, (count_occ_In string_dec) in Hin.
  pose proof (proj1 (NoDup_count_occ string_dec _)
                (proj1 (NoDup_ListNoDup _) (flatten_NoDup t root)) name).
  lia.
Qed.

(** A buffer that, as a C string, is white space followed by something
    that does not begin with [#include], or is white space, [#include],
    white space and then something that is not a double quote (a system
    include, or nothing at all), leaves the table and the work queue as
    they were: nothing is appended, inserted or enqueued.  The buffer is
    the input line only when the line has at most 4095 characters. *)
Lemma process_line_ignored (file : string) (sh : Shared) (buf : string) :
  ignored (c_str buf) → process_line file sh buf = sh.
Proof.
  intros Hi. unfold process_line. by rewrite (parse_include_ignored buf Hi).
Qed.

(** C2. When [process] opens a file, every line matched for [name] adds one
    entry [name] to the dependency list of the file, whether or not the
    name is already there: the number of entries grows by the number of
    matching lines.  All the same, [flatten] never writes [name] twice,
    whatever the root, and writes it exactly once from any root (other than
    the name itself) that is the file or reaches it. *)
Theorem process_keeps_duplicates_flatten_once
    (fs : FileSystem) (dirs : list string) (file : string) (sh : Shared)
    (path content name : string) :
  openFile fs dirs file = Some (path, content) →
  ∃ sh', process fs dirs file sh = Returns sh'
         ∧ count_occ string_dec (deps (theTable sh') file) name
           = count_occ string_dec (deps (theTable sh) file) name
             + count_matches name (lines_of content)
         ∧ (∀ root, count_occ string_dec (flatten (theTable sh') root) name ≤ 1)
         ∧ (∀ root, 0 < count_matches name (lines_of content) →
                    name ≠ root →
                    root = file ∨ reachable (theTable sh') root file →
                    count_occ string_dec (flatten (theTable sh') root) name = 1).
Proof.
  intros Hopen. unfold process. rewrite Hopen.
  eexists. split; [reflexivity|].
  assert (Hcount : count_occ string_dec
            (deps (theTable (fold_left (process_line file) (lines_of content) sh)) file) name
          = count_occ string_dec (deps (theTable sh) file) name
            + count_matches name (lines_of content)).
  { by rewrite scan_deps, count_occ_app, count_occ_matches. }
  split; [exact Hcount|]. split.
  - intros root.
    apply (proj1 (NoDup_count_occ string_dec _)
             (proj1 (NoDup_ListNoDup _) (flatten_NoDup _ root))).
  - intros root Hpos Hne Hroot.
    apply count_occ_flatten; [done|].
    assert (Hin : name ∈ deps (theTable (fold_left (process_line file) (lines_of content) sh)) file).
    { apply list_elem_of_In, (count_occ_In string_dec). lia. }
    destruct Hroot as [->|[k Hk]].
    + exists 0, file. done.
    + exists (S k), file. done.
Qed.

Lemma process_keeps_duplicates_flatten_once_witness :
  let fs : FileSystem := {[ "./foo.c" := include_line "a.h" +:+ include_line "a.h" ]} in
  let sh := mkShared (<["foo.o" := ["foo.c"]]> (<["foo.c" := []]> ∅)) [] in
  ∃ sh', process fs ["./"] "foo.c" sh = Returns sh'
         ∧ count_occ string_dec (deps (theTable sh') "foo.c") "a.h" = 2
         ∧ count_occ string_dec (flatten (theTable sh') "foo.o") "a.h" = 1.
Proof.
  intros fs sh.
  destruct (process_keeps_duplicates_flatten_once fs ["./"] "foo.c" sh "./foo.c"
              (include_line "a.h" +:+ include_line "a.h") "a.h")
    as (sh' & Hp & Hcount & _ & Hflat).
  - vm_compute. reflexivity.
  - exists sh'. split; [exact Hp|]. split; [exact Hcount|].
    apply Hflat.
    + vm_compute. lia.
    + discriminate.
    + right. exists 0, "foo.o". split; [reflexivity|].
      unfold process in Hp. simpl in Hp. injection Hp as <-.
      vm_compute. apply list_elem_of_here.
Defined.

Example process_duplicates :
  let fs : FileSystem := {[ "./foo.c" := include_line "a.h" +:+ include_line "a.h" ]} in
  let sh := mkShared (<["foo.o" := ["foo.c"]]> (<["foo.c" := []]> ∅)) ["foo.c"] in
  ∃ sh', process fs ["./"] "foo.c" sh = Returns sh'
         ∧ theTable sh' !! "foo.c" = Some ["a.h"; "a.h"]
         ∧ theTable sh' !! "a.h" = Some []
         ∧ workQ sh' = ["foo.c"; "a.h"]
         ∧ flatten (theTable sh') "foo.o" = ["foo.c"; "a.h"].
Proof. eexists. split; [reflexivity|]. vm_compute. done. Qed.

End ScannerFacts.

(** ** Start of [main] *)

Section StartupFacts.

Local Arguments String.append !s1 s2 : simpl nomatch.

Lemma substring_all s : String.substring 0 (String.length s) s = s.
Proof. induction s as [|c s IH]; simpl; [done|]. by rewrite IH. Qed.

Lemma rfind_split c s k :
  rfind c s = Some k →
  s = String.substring 0 k s
      +:+ String c (String.substring (S k) (String.length s - S k) s).
Proof.
  revert k. induction s as [|a s IH]; intros k Hk; simpl in Hk; [done|].
  destruct (rfind c s) as [k'|] eqn:Hr.
  - injection Hk as <-. simpl. f_equal. by apply IH.
  - destruct (Ascii.eqb a c) eqn:Hac; [|done]. injection Hk as <-.
    apply Ascii.eqb_eq in Hac as ->. simpl. f_equal.
    rewrite Nat.sub_0_r.
    destruct s as [|b s]; [done|].
    simpl. f_equal. by rewrite substring_all.
Qed.

Lemma parseFile_split file :
  (parseFile file).2 ≠ EmptyString →
  file = (parseFile file).1 +:+ "." +:+ (parseFile file).2.
Proof.
  unfold parseFile. destruct (rfind "." file) as [k|] eqn:Hr; simpl; [|done].
  intros _. by apply rfind_split.
Qed.

Lemma back_append a c b : back (a +:+ String c b) = back (String c b).
Proof.
  induction a as [|x a IH]; [done|].
  change (back (String x (a +:+ String c b)) = back (String c b)).
  destruct a as [|y a]; [done|]. exact IH.
Qed.

Lemma back_object_name file : back (object_name file) = "o"%char.
Proof. unfold object_name. by rewrite back_append. Qed.

Lemma back_legal file :
  legal (parseFile file).2 = true → back file ≠ "o"%char.
Proof.
  intros Hl. pose proof (parseFile_split file) as Hs.
  destruct (parseFile file) as [r e]; simpl in *. unfold legal in Hl.
  destruct (decide (e = "c")) as [->|];
    [rewrite Hs by done; by rewrite back_append|].
  destruct (decide (e = "y")) as [->|];
    [rewrite Hs by done; by rewrite back_append|].
  destruct (decide (e = "l")) as [->|];
    [rewrite Hs by done; by rewrite back_append|].
  by rewrite !bool_decide_eq_false_2 in Hl.
Qed.

Lemma legal_not_object file other :
  legal (parseFile file).2 = true → file ≠ object_name other.
Proof.
  intros Hl ->. by apply back_legal in Hl; rewrite back_object_name in Hl.
Qed.

Example parseFile_examples :
  parseFile "foo.c" = ("foo", "c")
  ∧ parseFile "dir.d/lexer.l" = ("dir.d/lexer", "l")
  ∧ parseFile "Makefile" = ("Makefile", "")
  ∧ parseFile "archive.tar.gz" = ("archive.tar", "gz")
  ∧ object_name "gram.y" = "gram.o".
Proof. vm_compute. done. Qed.

Example dirName_examples :
  dirName "./" = "./" ∧ dirName "include" = "include/"
  ∧ dirName "/usr/include/" = "/usr/include/".
Proof. vm_compute. done. Qed.

Example cpath_fields_examples :
  cpath_fields "/a:/b/c" = ["/a"; "/b/c"]
  ∧ cpath_fields "/a::/b:" = ["/a"; ""; "/b"; ""]
  ∧ cpath_fields "" = [""].
Proof. vm_compute. done. Qed.

Example stoi_examples :
  stoi "4" = inl 4%Z
  ∧ stoi "  +12 workers" = inl 12%Z
  ∧ stoi "-3" = inl (-3)%Z
  ∧ stoi "2147483647" = inl 2147483647%Z
  ∧ stoi "2147483648" = inr out_of_range
  ∧ stoi "abc" = inr invalid_argument
  ∧ stoi "" = inr invalid_argument
  ∧ stoi "- 1" = inr invalid_argument.
Proof. vm_compute. done. Qed.

(** *** Search order *)

Lemma openFile_first fs dirs1 d dirs2 file content :
  (∀ d', d' ∈ dirs1 → fs !! (d' +:+ file) = None) →
  fs !! (d +:+ file) = Some content →
  openFile fs (dirs1 ++ d :: dirs2) file = Some (d +:+ file, content).
Proof.
  intros Hnone Hd. induction dirs1 as [|d1 dirs1 IH]; simpl.
  - by rewrite Hd.
  - rewrite (Hnone d1) by apply list_elem_of_here.
    apply IH. intros d' Hd'. apply Hnone. by apply list_elem_of_further.
Qed.

Lemma openFile_None fs dirs file :
  openFile fs dirs file = None ↔ ∀ d, d ∈ dirs → fs !! (d +:+ file) = None.
Proof.
  induction dirs as [|d dirs IH]; simpl.
  - split; [|done]. by intros _ d ?%elem_of_nil.
  - destruct (fs !! (d +:+ file)) as [content|] eqn:Hd.
    + split; [done|]. intros Hall. specialize (Hall d (list_elem_of_here _ _)). congruence.
    + rewrite IH. split.
      * intros Hall d' [->|Hd']%elem_of_cons; [done|by apply Hall].
      * intros Hall d' Hd'. apply Hall. by apply list_elem_of_further.
Qed.

Lemma assemble_dirs_order env args :
  assemble_dirs env args
  = "./" :: map (λ a, dirName (advance 2 a)) (flag_args args)
         ++ from_option cpath_fields [] (env !! "CPATH").
Proof. unfold assemble_dirs. by destruct (env !! "CPATH"). Qed.

(** Joining the fields of CPATH with colons gives CPATH back: the fields
    are pushed in the order in which they are listed. *)
Lemma cpath_fields_join str :
  ∃ f fields, cpath_fields str = f :: fields ∧
              fold_left (λ acc g, acc +:+ ":" +:+ g) fields f = str.
Proof.
  assert (Hfold : ∀ fields c f, fold_left (λ acc g, acc +:+ ":" +:+ g) fields (String c f)
                   = String c (fold_left (λ acc g, acc +:+ ":" +:+ g) fields f)).
  { induction fields as [|g fields IH]; intros c f; simpl; [done|]. apply IH. }
  induction str as [|c str (f & fields & Hf & Hj)]; simpl.
  - by exists EmptyString, [].
  - destruct (Ascii.eqb c ":") eqn:Hc.
    + apply Ascii.eqb_eq in Hc as ->. exists EmptyString, (f :: fields).
      split; [by rewrite Hf|]. simpl.
      change (EmptyString +:+ ":" +:+ f) with (String ":" f).
      by rewrite Hfold, Hj.
    + rewrite Hf. exists (String c f), fields. split; [done|]. by rewrite Hfold, Hj.
Qed.

(** C5 (evaluation at the failing inputs).  With the CPATH of the header
    comment of the source, the CPATH directories enter [dirs] without the
    trailing slash that [dirName] gives the [-I] directories, so [x.h],
    present in both, is looked for under [/home/user/includex.h] and
    [/usr/local/group/includex.h] and is not found.  With CPATH [/a:/b/]
    and [x.h] in both directories, the file of the later one is opened. *)
Theorem cpath_directories_lack_slash :
  let argv := ["dependencyDiscoverer"; "-Ifoo/bar/include"; "foo.c"] in
  let env : Env := {[ "CPATH" := "/home/user/include:/usr/local/group/include" ]} in
  let fs : FileSystem := {[ "/home/user/include/x.h" := "first";
                            "/usr/local/group/include/x.h" := "second" ]} in
  let env' : Env := {[ "CPATH" := "/a:/b/" ]} in
  let fs' : FileSystem := {[ "/a/x.h" := "first"; "/b/x.h" := "second" ]} in
  assemble_dirs env (tail argv)
  = ["./"; "foo/bar/include/"; "/home/user/include"; "/usr/local/group/include"]
  ∧ openFile fs (assemble_dirs env (tail argv)) "x.h" = None
  ∧ assemble_dirs env' (tail argv) = ["./"; "foo/bar/include/"; "/a"; "/b/"]
  ∧ openFile fs' (assemble_dirs env' (tail argv)) "x.h" = Some ("/b/x.h", "second").
Proof. vm_compute. done. Qed.

(** *** The seeding loop *)

Lemma legal_iff ext : legal ext = true ↔ ext = "c" ∨ ext = "y" ∨ ext = "l".
Proof.
  unfold legal. rewrite !orb_true_iff, !bool_decide_eq_true. tauto.
Qed.

Lemma seed_app files1 files2 sh :
  seed (files1 ++ files2) sh
  = match seed files1 sh with
    | Returns sh1 => seed files2 sh1
    | Exits code err => Exits code err
    end.
Proof.
  revert sh. induction files1 as [|f files1 IH]; intros sh; simpl; [done|].
  destruct (legal (parseFile f).2); [apply IH|done].
Qed.

Lemma seed_exit_code files sh code err :
  seed files sh = Exits code err → code = (-1)%Z.
Proof.
  revert sh. induction files as [|f files IH]; intros sh; simpl; [done|].
  destruct (legal _); [apply IH|]. by intros [= <- _].
Qed.

Lemma seed_illegal pre bad post sh :
  Forall legal_file pre → legal (parseFile bad).2 = false →
  seed (pre ++ bad :: post) sh = Exits (-1) (illegal_extension (parseFile bad).2).
Proof.
  intros Hpre Hbad. revert sh. induction Hpre as [|f pre Hf _ IH]; intros sh; simpl.
  - by rewrite Hbad.
  - unfold legal_file in Hf. rewrite Hf. apply IH.
Qed.

Lemma map_insert_lookup k v (t : Table) n l :
  t !! n = Some l → map_insert k v t !! n = Some l.
Proof.
  intros Hn. unfold map_insert. destruct (t !! k) eqn:Hk; [done|].
  rewrite lookup_insert_ne; [done|]. intros ->. congruence.
Qed.

Lemma map_insert_lookup_ne k v (t : Table) n :
  k ≠ n → map_insert k v t !! n = t !! n.
Proof.
  intros Hne. unfold map_insert. destruct (t !! k); [done|].
  by rewrite lookup_insert_ne.
Qed.

Lemma map_insert_new k v (t : Table) :
  t !! k = None → map_insert k v t !! k = Some v.
Proof. intros Hk. unfold map_insert. rewrite Hk. apply lookup_insert_eq. Qed.

Lemma seed_legal files sh :
  Forall legal_file files → only_objects_listed (theTable sh) →
  ∃ sh', seed files sh = Returns sh'
         ∧ workQ sh' = workQ sh ++ files
         ∧ (∀ k l, theTable sh !! k = Some l → theTable sh' !! k = Some l)
         ∧ (∀ k, is_Some (theTable sh' !! k) →
                 is_Some (theTable sh !! k) ∨
                 ∃ g, g ∈ files ∧ (k = g ∨ k = object_name g))
         ∧ only_objects_listed (theTable sh').
Proof.
  intros Hfiles. revert sh. induction Hfiles as [|f files Hf _ IH]; intros sh Hok; simpl.
  - exists sh. rewrite app_nil_r. repeat split; auto.
  - unfold legal_file in Hf. rewrite Hf.
    match goal with |- context [seed files ?s1] => destruct (IH s1) as (sh' & Hs & Hq & Hkeep & Hdom & Hok') end.
    { simpl. intros k l Hk.
      destruct (decide (k = f)) as [->|Hkf].
      - destruct (map_insert (object_name f) [f] (theTable sh) !! f) as [l0|] eqn:Hf0.
        + rewrite (map_insert_lookup _ _ _ _ _ Hf0) in Hk. injection Hk as <-.
          rewrite map_insert_lookup_ne in Hf0 by (symmetry; by apply legal_not_object).
          destruct (Hok _ _ Hf0) as [?|Hb]; [by left|]. by apply back_legal in Hf.
        + rewrite map_insert_new in Hk by done. injection Hk as <-. by left.
      - rewrite map_insert_lookup_ne in Hk by done.
        destruct (decide (k = object_name f)) as [->|Hko].
        + right. apply back_object_name.
        + rewrite map_insert_lookup_ne in Hk by done. by eapply Hok. }
    exists sh'. split; [done|]. simpl in *. split; [by rewrite Hq, <- app_assoc|].
    split; [|split; [|done]].
    + intros k l Hk. by apply Hkeep, map_insert_lookup, map_insert_lookup.
    + intros k Hk. destruct (Hdom k Hk) as [Hin|(g & Hg & Hkg)].
      * destruct (decide (k = f)) as [->|Hkf];
          [right; exists f; split; [apply list_elem_of_here|by left]|].
        rewrite map_insert_lookup_ne in Hin by done.
        destruct (decide (k = object_name f)) as [->|Hko];
          [right; exists f; split; [apply list_elem_of_here|by right]|].
        rewrite map_insert_lookup_ne in Hin by done. by left.
      * right. exists g. split; [by apply list_elem_of_further|done].
Qed.

Lemma map_insert_is_Some k v (t : Table) : is_Some (map_insert k v t !! k).
Proof.
  unfold map_insert. destruct (t !! k) eqn:Hk; [by rewrite Hk|].
  rewrite lookup_insert_eq. by eexists.
Qed.

(** The entries of a target whose object name no earlier target shares. *)
Lemma seed_entry pre file post sh :
  Forall legal_file (pre ++ file :: post) →
  only_objects_listed (theTable sh) →
  theTable sh !! object_name file = None →
  (∀ g, g ∈ pre → object_name g ≠ object_name file) →
  ∃ sh', seed (pre ++ file :: post) sh = Returns sh'
         ∧ workQ sh' = workQ sh ++ pre ++ file :: post
         ∧ theTable sh' !! object_name file = Some [file]
         ∧ theTable sh' !! file = Some []
         ∧ only_objects_listed (theTable sh').
Proof.
  intros Hall Hok Hnone Hpre.
  pose proof Hall as Hall'.
  apply Forall_app in Hall' as [Hlpre Hlrest].
  apply Forall_cons in Hlrest as [Hf Hlpost].
  destruct (seed_legal _ sh Hall Hok) as (sh' & Hs' & Hq' & _ & _ & Hok').
  exists sh'. split; [done|]. split; [done|].
  destruct (seed_legal pre sh Hlpre Hok) as (sh1 & Hs1 & _ & _ & Hdom1 & Hok1).
  rewrite seed_app, Hs1 in Hs'. simpl in Hs'.
  unfold legal_file in Hf. rewrite Hf in Hs'.
  match type of Hs' with seed post ?s2 = _ =>
    destruct (seed_legal post s2 Hlpost) as (sh2 & Hs2 & _ & Hkeep2 & _ & _);
    [|assert (sh2 = sh') as -> by congruence]
  end.
  { destruct (seed_legal [file] sh1) as (sh2 & Hs2 & _ & _ & _ & Hok2);
      [by repeat constructor|done|].
    simpl in Hs2. rewrite Hf in Hs2. by injection Hs2 as <-. }
  simpl in Hkeep2.
  assert (Hfresh : theTable sh1 !! object_name file = None).
  { destruct (theTable sh1 !! object_name file) as [l|] eqn:Hl; [|done]. exfalso.
    destruct (Hdom1 (object_name file)) as [[l' Hin]|(g & Hg & [Heq|Heq])].
    - by eexists.
    - congruence.
    - rewrite Forall_forall in Hlpre. apply (legal_not_object g file); [|done].
      by apply Hlpre.
    - by apply (Hpre g). }
  split.
  - apply Hkeep2. apply map_insert_lookup. by apply map_insert_new.
  - destruct (map_insert_is_Some file []
                (map_insert (object_name file) [file] (theTable sh1))) as [l Hl].
    pose proof (Hkeep2 _ _ Hl) as Hl'.
    destruct (Hok' _ _ Hl') as [->|Hb]; [done|]. by apply back_legal in Hf.
Qed.

End StartupFacts.

(** ** The worker pool *)

Section PoolFacts.

Context (fs : FileSystem).

(** Case analysis on an operation of worker [i]. *)
Local Ltac worker_cases H w Hw :=
  unfold step_worker in H;
  match type of H with
  | context [ended ?s] => destruct (ended s) eqn:?; [discriminate H|]
  end;
  match type of H with
  | context [workers ?s !! ?i] =>
      destruct (workers s !! i) as [w|] eqn:Hw; [|discriminate H]
  end;
  destruct w; simplify_option_eq.

(** A fault changes nothing but the ending. *)
Lemma fault_effect s s' :
  fault s = Some s' →
  ended s = None ∧ s' = set_ended Killed s ∧ exiting s.
Proof.
  unfold fault. destruct (ended s); [done|].
  destruct (existsb _ _) eqn:Hex; [|done]. destruct (_ <=? _); [|done].
  intros [= <-]. split; [done|]. split; [done|].
  apply existsb_exists in Hex as (w & Hin & Hw).
  apply list_elem_of_In, list_elem_of_lookup in Hin as [i Hi].
  by exists i, w.
Qed.

Lemma mutex_unique v ws i j w w' :
  mutex v ws → ws !! i = Some w → holds_threadlock w = true →
  ws !! j = Some w' → holds_threadlock w' = true → i = j.
Proof.
  intros [[_ Hnone]|(_ & k & wk & Hk & Hwk & Hothers)] Hi Hw Hj Hw'.
  - rewrite (Hnone _ _ Hi) in Hw. done.
  - destruct (decide (i = k)) as [->|Hik].
    + destruct (decide (j = k)) as [->|Hjk]; [done|].
      rewrite (Hothers _ _ Hjk Hj) in Hw'. done.
    + rewrite (Hothers _ _ Hik Hi) in Hw. done.
Qed.

Lemma mutex_keep v ws i w w' :
  ws !! i = Some w → holds_threadlock w' = holds_threadlock w →
  mutex v ws → mutex v (<[i := w']> ws).
Proof.
  intros Hi Hh [[-> Hnone]|(-> & k & wk & Hk & Hwk & Hothers)].
  - left. split; [done|]. intros j wj Hj.
    destruct (decide (i = j)) as [->|Hij].
    + rewrite list_lookup_insert_eq in Hj by by eapply lookup_lt_Some.
      injection Hj as <-. rewrite Hh. by eapply Hnone.
    + rewrite list_lookup_insert_ne in Hj by done. by eapply Hnone.
  - right. split; [done|]. destruct (decide (i = k)) as [->|Hik].
    + exists k, w'. rewrite list_lookup_insert_eq by by eapply lookup_lt_Some.
      split; [done|]. split; [rewrite Hh; congruence|].
      intros j wj Hjk Hj. rewrite list_lookup_insert_ne in Hj by done.
      by eapply Hothers.
    + exists k, wk. rewrite list_lookup_insert_ne by done.
      split; [done|]. split; [done|]. intros j wj Hjk Hj.
      destruct (decide (i = j)) as [->|Hij].
      * rewrite list_lookup_insert_eq in Hj by by eapply lookup_lt_Some.
        injection Hj as <-. rewrite Hh. by eapply Hothers.
      * rewrite list_lookup_insert_ne in Hj by done. by eapply Hothers.
Qed.

Lemma mutex_acquire v v' ws i w w' :
  ws !! i = Some w → holds_threadlock w = false → holds_threadlock w' = true →
  sem_wait v = Some v' → mutex v ws → mutex v' (<[i := w']> ws).
Proof.
  intros Hi Hw Hw' Hsem [[-> Hnone]|(-> & _)]; [|done].
  injection Hsem as <-. right. split; [done|]. exists i, w'.
  rewrite list_lookup_insert_eq by by eapply lookup_lt_Some.
  split; [done|]. split; [done|]. intros j wj Hji Hj.
  rewrite list_lookup_insert_ne in Hj by done. by eapply Hnone.
Qed.

Lemma mutex_release v v' ws i w w' :
  ws !! i = Some w → holds_threadlock w = true → holds_threadlock w' = false →
  sem_signal v = Some v' → mutex v ws → mutex v' (<[i := w']> ws).
Proof.
  intros Hi Hw Hw' Hsem [[-> Hnone]|(-> & k & wk & Hk & Hwk & Hothers)].
  - rewrite (Hnone _ _ Hi) in Hw. done.
  - injection Hsem as <-. left. split; [done|]. intros j wj Hj.
    destruct (decide (i = j)) as [->|Hij].
    + rewrite list_lookup_insert_eq in Hj by by eapply lookup_lt_Some.
      by injection Hj as <-.
    + rewrite list_lookup_insert_ne in Hj by done.
      destruct (decide (j = k)) as [->|Hjk]; [|by eapply Hothers].
      destruct (decide (i = k)) as [->|Hik]; [done|].
      rewrite (Hothers _ _ Hik Hi) in Hw. done.
Qed.

Lemma next_buffer_holds file unread :
  holds_threadlock (next_buffer file unread) = false.
Proof.
  unfold next_buffer. destruct unread; [done|].
  by destruct (parse_include _).
Qed.

Lemma pop_safe_update (ws : list worker) (q q' : list string) i w w' :
  ws !! i = Some w →
  (∀ j, ws !! j = Some AtPop → q ≠ []) →
  (w' = AtPop → q' ≠ []) →
  (∀ j, j ≠ i → ws !! j = Some AtPop → q' ≠ []) →
  ∀ j, <[i := w']> ws !! j = Some AtPop → q' ≠ [].
Proof.
  intros Hi Hq Hnew Hold j Hj. destruct (decide (i = j)) as [->|Hij].
  - rewrite list_lookup_insert_eq in Hj by by eapply lookup_lt_Some.
    injection Hj as ->. by apply Hnew.
  - rewrite list_lookup_insert_ne in Hj by done. by eapply Hold.
Qed.

Lemma step_worker_safe i s s' :
  step_worker fs i s = Some s' →
  mutex (threadlock s) (workers s) → pop_safe s →
  mutex (threadlock s') (workers s') ∧ pop_safe s'
  ∧ ended s' ≠ Some (Terminated logic_error).
Proof.
  intros Hstep Hm Hp.
  assert (Hothers : ∀ w, workers s !! i = Some w → holds_threadlock w = true →
            ∀ j, j ≠ i → workers s !! j = Some AtPop → False).
  { intros w Hw Hh j Hji Hj. apply Hji. symmetry. by eapply mutex_unique. }
  worker_cases Hstep w Hw; simpl.
  (* 425 thread->wait() *)
  - split; [by eapply mutex_acquire|]. split; [|congruence].
    unfold pop_safe; simpl; eapply pop_safe_update; [done|exact Hp|done|]. intros j _ Hj. by eapply Hp.
  (* 426 workQ.size() > 0 *)
  - destruct (workQ (shared s)) as [|f q] eqn:Hq; simpl in Hstep;
      injection Hstep as <-; simpl.
    + split; [by eapply mutex_keep|]. split; [|congruence].
      unfold pop_safe; simpl; eapply pop_safe_update; [done|exact Hp|done|]. intros j Hji Hj.
      exfalso. by eapply (Hothers AtSize).
    + split; [by eapply mutex_keep|]. split; [|congruence].
      unfold pop_safe; simpl; rewrite Hq. by eapply pop_safe_update.
  (* 427 workQ.pop_front() *)
  - destruct (workQ (shared s)) as [|f q] eqn:Hq; injection Hstep as <-; simpl.
    + exfalso. by eapply Hp.
    + split; [by eapply mutex_keep|]. split; [|congruence].
      unfold pop_safe; simpl; eapply pop_safe_update; [done|exact Hp|done|]. intros j Hji Hj.
      exfalso. by eapply (Hothers AtPop).
  (* 429 thread->signal() *)
  - split; [by eapply mutex_release|]. split; [|congruence].
    unfold pop_safe; simpl; eapply pop_safe_update; [done|exact Hp|done|]. intros j _ Hj. by eapply Hp.
  (* 430 theTable.getValue(filename) *)
  - split; [by eapply mutex_keep|]. split; [|congruence].
    unfold pop_safe; simpl; eapply pop_safe_update; [done|exact Hp|done|]. intros j _ Hj. by eapply Hp.
  (* 277 openFile *)
  - destruct (openFile fs (dirs s) file) as [[path content]|];
      injection Hstep as <-; simpl.
    + split; [by eapply mutex_keep|]. split; [|congruence].
      unfold pop_safe; simpl; eapply pop_safe_update; [done|exact Hp|done|]. intros j _ Hj. by eapply Hp.
    + split; [by eapply mutex_keep|]. split; [|congruence].
      unfold pop_safe; simpl; eapply pop_safe_update; [done|exact Hp|done|]. intros j _ Hj. by eapply Hp.
  (* 282 fgets *)
  - split; [eapply mutex_keep; [done| |done]; apply next_buffer_holds|].
    split; [|congruence].
    unfold pop_safe; simpl; eapply pop_safe_update; [done|exact Hp| |].
    + intros Hn. pose proof (next_buffer_holds file unread) as Hh.
      by rewrite Hn in Hh.
    + intros j _ Hj. by eapply Hp.
  (* 312-323: the section guarded by bs *)
  - split; [by eapply mutex_keep|]. split; [|congruence].
    unfold pop_safe; simpl; eapply pop_safe_update; [done|exact Hp|done|]. intros j _ Hj. by eapply Hp.
  - split; [by eapply mutex_keep|]. split; [|congruence].
    unfold pop_safe; simpl; eapply pop_safe_update; [done|exact Hp|done|]. intros j _ Hj. by eapply Hp.
  - split; [by eapply mutex_keep|]. split; [|congruence].
    unfold pop_safe; simpl; eapply pop_safe_update; [done|exact Hp|done|]. intros j _ Hj. by eapply Hp.
  - split; [by eapply mutex_keep|]. split; [|congruence].
    unfold pop_safe; simpl; eapply pop_safe_update; [done|exact Hp|done|]. intros j _ Hj. by eapply Hp.
  - split; [by eapply mutex_keep|]. split; [|congruence].
    unfold pop_safe; simpl; eapply pop_safe_update; [done|exact Hp|done|]. intros j _ Hj. by eapply Hp.
  - split; [by eapply mutex_keep|]. split; [|congruence].
    unfold pop_safe; simpl; eapply pop_safe_update; [done|exact Hp|done|]. intros j _ Hj. by eapply Hp.
  - split; [by eapply mutex_keep|]. split; [|congruence].
    unfold pop_safe; simpl; eapply pop_safe_update; [done|exact Hp|done|]. intros j _ Hj Hnil.
    by destruct (workQ (shared s)).
  - split; [by eapply mutex_keep|]. split; [|congruence].
    unfold pop_safe; simpl; eapply pop_safe_update; [done|exact Hp|done|]. intros j _ Hj. by eapply Hp.
  (* 432 thread->signal() *)
  - split; [by eapply mutex_release|]. split; [|congruence].
    unfold pop_safe; simpl; eapply pop_safe_update; [done|exact Hp|done|]. intros j _ Hj. by eapply Hp.
  (* 436 tracker->signal_done() *)
  - split; [by eapply mutex_keep|]. split; [|congruence].
    unfold pop_safe; simpl; eapply pop_safe_update; [done|exact Hp|done|]. intros j _ Hj. by eapply Hp.
  (* 280 exit(-1) *)
  - done.
Qed.

Local Ltac main_cases H :=
  unfold step_main in H; repeat case_match; simplify_eq.

Lemma step_main_safe s s' :
  step_main s = Some s' →
  mutex (threadlock s) (workers s) → pop_safe s →
  mutex (threadlock s') (workers s') ∧ pop_safe s'
  ∧ ended s' ≠ Some (Terminated logic_error).
Proof.
  intros Hstep Hm Hp. main_cases Hstep; simpl.
  all: split; [done|]; split; [done|congruence].
Qed.

Lemma stoi_not_logic_error str : stoi str ≠ inr logic_error.
Proof.
  unfold stoi. destruct (skip_space (c_str str)) as [|c p].
  - by vm_compute.
  - set (sp := match String c p with
               | String "-" p' => (true, p')
               | String "+" p' => (false, p')
               | _ => (false, String c p)
               end).
    destruct sp as [negative p']. destruct (digits 0 0 p') as [v count].
    destruct (count =? 0)%nat; [done|].
    by destruct (_ && _).
Qed.

Lemma replicate_mutex n : mutex 1 (replicate n AtWait).
Proof. left. split; [done|]. by intros i w [-> _]%lookup_replicate. Qed.

Lemma launch_workers env argv :
  ∃ n, workers (launch env argv) = replicate n AtWait.
Proof.
  unfold launch. destruct (start env argv) as [e|code err|n ds files sh]; simpl.
  - by exists 0.
  - by exists 0.
  - by eexists.
Qed.

Lemma launch_threadlock env argv : threadlock (launch env argv) = 1%Z.
Proof. unfold launch. by destruct (start env argv). Qed.

Lemma start_not_logic_error env argv : start env argv ≠ Aborted logic_error.
Proof.
  unfold start, number_of_threads.
  destruct (env !! "CRAWLER_THREADS") as [str|].
  - pose proof (stoi_not_logic_error str). destruct (stoi str); [|congruence].
    by destruct (seed _ _).
  - by destruct (seed _ _).
Qed.

Lemma launch_safe env argv :
  mutex (threadlock (launch env argv)) (workers (launch env argv))
  ∧ pop_safe (launch env argv)
  ∧ ended (launch env argv) ≠ Some (Terminated logic_error).
Proof.
  destruct (launch_workers env argv) as [n Hn].
  split; [|split].
  - rewrite launch_threadlock, Hn. apply replicate_mutex.
  - intros i Hi. rewrite Hn in Hi. by apply lookup_replicate in Hi as [? _].
  - pose proof (start_not_logic_error env argv) as Hs. unfold launch.
    destruct (start env argv); simpl; congruence.
Qed.

Lemma in_run_safe env argv s :
  in_run fs env argv s →
  mutex (threadlock s) (workers s) ∧ pop_safe s
  ∧ ended s ≠ Some (Terminated logic_error).
Proof.
  unfold in_run. intros Hrun.
  eapply (rtc_ind_r (λ s, mutex (threadlock s) (workers s) ∧ pop_safe s
                          ∧ ended s ≠ Some (Terminated logic_error)));
    [| |exact Hrun].
  - apply launch_safe.
  - intros s1 s2 _ Hstep (Hm & Hp & _).
    destruct Hstep as [i s1 s2 Hstep|s1 s2 Hstep|s1 s2 Hstep].
    + by eapply step_worker_safe.
    + by eapply step_main_safe.
    + by apply fault_effect in Hstep as (_ & -> & _).
Qed.

Lemma run_in_run env argv schedule s :
  run fs schedule (launch env argv) = Some s → in_run fs env argv s.
Proof.
  unfold in_run. generalize (launch env argv). intros s0. revert s0.
  induction schedule as [|[|i] schedule IH]; intros s0 Hrun; simpl in Hrun.
  - injection Hrun as <-. apply rtc_refl.
  - destruct (step_main s0) as [s1|] eqn:Hs; [|done]. simpl in Hrun.
    eapply rtc_l; [by apply step_of_main|by apply IH].
  - destruct (step_worker fs i s0) as [s1|] eqn:Hs; [|done]. simpl in Hrun.
    eapply rtc_l; [by eapply step_of_worker|by apply IH].
Qed.

(** *** Output only after the join *)

Lemma forallb_finished ws :
  forallb is_finished ws = true → ∀ i w, ws !! i = Some w → w = Finished.
Proof.
  intros Hall i w Hi. rewrite forallb_forall in Hall.
  apply list_elem_of_lookup_2, list_elem_of_In, Hall in Hi. by destruct w.
Qed.

Lemma exiting_update (ws : list worker) i w w' :
  ws !! i = Some w → (is_exiting w = true → is_exiting w' = true) →
  (∃ k wk, ws !! k = Some wk ∧ is_exiting wk = true) →
  ∃ k wk, <[i := w']> ws !! k = Some wk ∧ is_exiting wk = true.
Proof.
  intros Hi Hw (k & wk & Hk & Hwk). destruct (decide (i = k)) as [->|Hik].
  - exists k, w'. rewrite list_lookup_insert_eq by by eapply lookup_lt_Some.
    split; [done|]. apply Hw. congruence.
  - exists k, wk. by rewrite list_lookup_insert_ne.
Qed.

Lemma step_print_after_join s s' :
  step fs s s' → print_after_join s → print_after_join s'.
Proof.
  intros [i s1 s2 Hstep|s1 s2 Hstep|s1 s2 Hstep] (Hout & Hjoin & Herr).
  - assert (Hwait : main_pc s1 = MainWaiting).
    { destruct (main_pc s1) eqn:Hpc; [done| |]; exfalso.
      all: unfold step_worker in Hstep; destruct (ended s1); [done|].
      all: destruct (workers s1 !! i) as [w|] eqn:Hw; [|done].
      all: rewrite (Hjoin ltac:(done) i w Hw) in Hstep; done. }
    worker_cases Hstep w Hw; repeat case_match; simplify_eq.
    all: unfold print_after_join; simpl.
    all: split; [by auto|]; split; [by rewrite Hwait|].
    all: intros Hne.
    all: try (right; eexists; split; [reflexivity|by vm_compute]).
    all: left; unfold exiting in *; simpl.
    all: try (eexists i, _; split;
              [apply list_lookup_insert_eq; by eapply lookup_lt_Some|done]).
    all: destruct (Herr Hne) as [Hex|(e & He & _)]; [|congruence].
    all: by eapply exiting_update.
  - assert (Herr' : stderr s1 ≠ [] → exiting s1).
    { intros Hne. destruct (Herr Hne) as [?|(e & He & _)]; [done|].
      unfold step_main in Hstep. by rewrite He in Hstep. }
    main_cases Hstep; unfold print_after_join; simpl.
    + split; [done|]. split; [|by auto]. intros _.
      apply forallb_finished. by eapply andb_prop.
    + split; [done|]. split; [|by auto]. intros _. apply Hjoin. congruence.
    + split; [done|]. split; [|by auto]. intros _. apply Hjoin. congruence.
  - apply fault_effect in Hstep as (_ & -> & _).
    unfold print_after_join; simpl. split; [done|]. split; [done|].
    intros _. right. by exists Killed.
Qed.

Lemma launch_print_after_join env argv : print_after_join (launch env argv).
Proof.
  unfold launch, start. destruct (number_of_threads env) as [n|e]; simpl.
  - destruct (seed _ _) as [sh|code err] eqn:Hseed; simpl; [by repeat split|].
    apply seed_exit_code in Hseed as ->. repeat split; [done|].
    intros _. right. by eexists.
  - repeat split; done.
Qed.

Lemma in_run_print_after_join env argv s :
  in_run fs env argv s → print_after_join s.
Proof.
  intros Hrun. eapply (rtc_ind_r (λ s, print_after_join s)); [| |exact Hrun].
  - apply launch_print_after_join.
  - intros s1 s2 _ Hstep Hinv. by eapply step_print_after_join.
Qed.

Lemma ended_no_step s e s' : ended s = Some e → ¬ step fs s s'.
Proof.
  intros He Hs. inversion Hs as [i s1 s2 Hstep|s1 s2 Hstep|s1 s2 Hstep]; subst.
  - unfold step_worker in Hstep. by rewrite He in Hstep.
  - unfold step_main in Hstep. by rewrite He in Hstep.
  - apply fault_effect in Hstep as (Hnone & _). congruence.
Qed.

(** *** A queue that is not empty has a worker to serve it *)

Lemma next_buffer_retired file unread : retired (next_buffer file unread) = false.
Proof.
  unfold next_buffer. destruct unread; [done|]. by destruct (parse_include _).
Qed.

Lemma staffed_update (ws : list worker) (q q' : list string) j w w' :
  ws !! j = Some w →
  (q ≠ [] → ∃ i w, ws !! i = Some w ∧ retired w = false) →
  (retired w' = false ∨ q' = [] ∨ (retired w = true ∧ (q' ≠ [] → q ≠ []))) →
  q' ≠ [] → ∃ i w, <[j := w']> ws !! i = Some w ∧ retired w = false.
Proof.
  intros Hj Hst [Hact|[->|[Hret Hq]]] Hq'.
  - exists j, w'. split; [|done].
    apply list_lookup_insert_eq. by eapply lookup_lt_Some.
  - done.
  - destruct (Hst (Hq Hq')) as (k & wk & Hk & Hact). exists k, wk. split; [|done].
    rewrite list_lookup_insert_ne; [done|]. intros ->. congruence.
Qed.

Lemma step_staffed s s' : step fs s s' → staffed s → staffed s'.
Proof.
  intros [j s1 s2 Hstep|s1 s2 Hstep|s1 s2 Hstep] Hst;
    [| |by apply fault_effect in Hstep as (_ & -> & _)].
  - worker_cases Hstep w Hw; repeat case_match; simplify_eq.
    all: unfold staffed in *; simpl.
    all: try match goal with H : workQ _ = _ |- _ => rewrite H in * end.
    all: try done.
    all: try (eapply staffed_update; [done|exact Hst|]; by left).
    all: try (eapply staffed_update; [done|exact Hst|]; right; right; by split).
    + eapply staffed_update; [done|exact Hst|]. right. left.
      by destruct (workQ (shared s1)).
    + eapply staffed_update; [done|exact Hst|]. left. apply next_buffer_retired.
  - main_cases Hstep; unfold staffed in *; simpl; done.
Qed.

Lemma launch_staffed env argv :
  workers (launch env argv) ≠ [] → staffed (launch env argv).
Proof.
  intros Hws _. destruct (launch_workers env argv) as [n Hn].
  rewrite Hn in *. destruct n as [|n]; [done|]. by exists 0, AtWait.
Qed.

Lemma in_run_staffed env argv s :
  workers (launch env argv) ≠ [] → in_run fs env argv s → staffed s.
Proof.
  intros Hws Hrun. eapply (rtc_ind_r (λ s, staffed s)); [| |exact Hrun].
  - by apply launch_staffed.
  - intros s1 s2 _ Hstep Hinv. by eapply step_staffed.
Qed.

(** *** A file that cannot be opened is never passed over *)

Lemma doomed_busy s :
  doomed fs s → staffed s →
  ∃ i w, workers s !! i = Some w ∧ is_finished w = false.
Proof.
  intros (f & _ & [Hq|(i & w & Hi & Ht)]) Hst.
  - destruct (Hst ltac:(by intros Hnil; rewrite Hnil in Hq; apply elem_of_nil in Hq))
      as (i & w & Hi & Hact).
    exists i, w. split; [done|]. by destruct w.
  - exists i, w. split; [done|]. by destruct w.
Qed.

Lemma awaited_update (ws : list worker) (q q' : list string) j w w' f :
  ws !! j = Some w →
  (f ∈ q ∨ ∃ i w, ws !! i = Some w ∧ taken w = Some f) →
  (f ∈ q → f ∈ q' ∨ taken w' = Some f) →
  (taken w = Some f → taken w' = Some f ∨ f ∈ q') →
  f ∈ q' ∨ ∃ i w, <[j := w']> ws !! i = Some w ∧ taken w = Some f.
Proof.
  intros Hj [Hq|(k & wk & Hk & Hwk)] Hqueue Htaken.
  - destruct (Hqueue Hq) as [?|Hw']; [by left|]. right. exists j, w'.
    split; [|done]. apply list_lookup_insert_eq. by eapply lookup_lt_Some.
  - destruct (decide (j = k)) as [->|Hjk].
    + assert (wk = w) as -> by congruence.
      destruct (Htaken Hwk) as [Hw'|?]; [|by left]. right. exists k, w'.
      split; [|done]. apply list_lookup_insert_eq. by eapply lookup_lt_Some.
    + right. exists k, wk. split; [|done]. by rewrite list_lookup_insert_ne.
Qed.

Lemma step_doomed s s' :
  step fs s s' → staffed s → print_after_join s → pop_safe s → doomed fs s →
  (ended s' = None ∧ doomed fs s') ∨ exiting s'.
Proof.
  intros Hstep Hst Hpj Hps Hdoom.
  destruct (doomed_busy s Hdoom Hst) as (b & wb & Hb & Hbusy).
  destruct Hdoom as (f & Hf & Haw).
  inversion Hstep as [j s1 s2 Hj|s1 s2 Hm|s1 s2 Hk]; subst.
  - destruct (workers s !! j) as [w|] eqn:Hw;
      [|unfold step_worker in Hj; rewrite Hw in Hj; by destruct (ended s)].
    assert (Hfails : (∃ g, w = AtOpen g ∧ openFile fs (dirs s) g = None)
                     ∨ ¬ ∃ g, w = AtOpen g ∧ openFile fs (dirs s) g = None).
    { destruct w; try (right; by intros (g & [=] & _)).
      destruct (openFile fs (dirs s) file) eqn:Ho; [|left; by eexists].
      right. intros (g & [= <-] & Hg). congruence. }
    destruct Hfails as [(g & -> & Hg)|Hnot].
    { right. exists j, (AtExit g). unfold step_worker in Hj.
      destruct (ended s); [done|]. rewrite Hw, Hg in Hj. injection Hj as <-.
      simpl. split; [|done]. apply list_lookup_insert_eq. by eapply lookup_lt_Some. }
    clear Hstep.
    worker_cases Hj w0 Hw0; repeat case_match; simplify_eq.
    all: try (exfalso; apply Hnot; by eexists).
    all: try (exfalso; by eapply Hps).
    all: try (right; by eexists j, _).
    all: left; simpl; split; [done|]; exists f; simpl; split; [done|].
    all: unfold awaited in *; simpl.
    all: try match goal with H : workQ _ = _ |- _ => rewrite H in * end.
    all: try (eapply awaited_update; [done|exact Haw|by left|by left]).
    all: try (eapply awaited_update; [done|exact Haw|by left|by intros [=]]).
    + (* 427 pop_front *)
      eapply awaited_update; [done|exact Haw| |by intros [=]].
      intros [->|?]%elem_of_cons; [by right|by left].
    + (* 277 openFile: the file opens *)
      eapply awaited_update; [done|exact Haw|by left|]. intros [= ->]. congruence.
    + (* 322 push_back *)
      eapply awaited_update; [done|exact Haw| |by intros [=]].
      intros ?. left. apply elem_of_app. by left.
  - exfalso. destruct Hpj as (_ & Hjoin & _).
    unfold step_main in Hm. destruct (ended s); [done|].
    destruct (main_pc s) eqn:Hpc.
    + destruct (_ && _) eqn:Hall; [|done].
      apply andb_prop in Hall as [_ Hall].
      by rewrite (forallb_finished _ Hall b wb Hb) in Hbusy.
    + by rewrite (Hjoin ltac:(done) b wb Hb) in Hbusy.
    + by rewrite (Hjoin ltac:(done) b wb Hb) in Hbusy.
  - right. by apply fault_effect in Hk as (_ & -> & ?).
Qed.

(** *** Once [exit] has been called *)

(** A worker inside [exit] stays there until the process is gone. *)
Lemma step_exiting s s' : step fs s s' → exiting s → exiting s'.
Proof.
  intros [j s1 s2 Hstep|s1 s2 Hstep|s1 s2 Hstep] Hex.
  - worker_cases Hstep w Hw; repeat case_match; simplify_eq.
    all: unfold exiting in *; simpl; try done.
    all: by eapply exiting_update.
  - main_cases Hstep; unfold exiting in *; simpl; done.
  - by apply fault_effect in Hstep as (_ & -> & ?).
Qed.

(** A worker that has not returned keeps the main thread in [wait_done],
    so nothing has been printed. *)
Lemma busy_no_output s i w :
  print_after_join s → workers s !! i = Some w → is_finished w = false →
  main_pc s = MainWaiting ∧ stdout s = [].
Proof.
  intros (Hout & Hjoin & _) Hi Hw.
  assert (Hpc : main_pc s = MainWaiting).
  { destruct (main_pc s) eqn:Hpc; [done| |].
    all: by rewrite (Hjoin ltac:(done) i w Hi) in Hw. }
  split; [done|by apply Hout].
Qed.

(** With a worker that fails or has failed to open its file, the process
    can only end by that [exit] or by a signal. *)
Lemma step_ending s s' e :
  step fs s s' → print_after_join s → pop_safe s →
  (∃ i w, workers s !! i = Some w ∧ is_finished w = false) →
  ended s' = Some e → e = Exited 255 ∨ e = Killed.
Proof.
  intros [j s1 s2 Hstep|s1 s2 Hstep|s1 s2 Hstep] Hpj Hps (b & wb & Hb & Hbusy) He.
  - worker_cases Hstep w Hw; repeat case_match; simplify_eq; simpl in *.
    all: try congruence.
    all: try (exfalso; by eapply Hps).
    all: by left.
  - exfalso. destruct (busy_no_output _ _ _ Hpj Hb Hbusy) as [Hpc _].
    destruct Hpj as (_ & Hjoin & _).
    main_cases Hstep; simpl in He; try congruence.
  - apply fault_effect in Hstep as (_ & -> & _). right. simpl in He. congruence.
Qed.

Lemma next_buffer_exiting file unread :
  is_exiting (next_buffer file unread) = false.
Proof.
  unfold next_buffer. destruct unread; [done|]. by destruct (parse_include _).
Qed.

(** What is on standard error. *)
Lemma step_stderr s s' :
  step fs s s' →
  dirs s' = dirs s
  ∧ (stderr s' = stderr s
     ∨ ∃ g, openFile fs (dirs s) g = None
            ∧ stderr s' = stderr s ++ ["Error opening " +:+ g +:+ endl]).
Proof.
  intros [j s1 s2 Hstep|s1 s2 Hstep|s1 s2 Hstep].
  - worker_cases Hstep w Hw; repeat case_match; simplify_eq; simpl.
    all: split; [done|]; try (by left).
    right. by eexists.
  - main_cases Hstep; simpl; split; by auto.
  - apply fault_effect in Hstep as (_ & -> & _). split; by auto.
Qed.

Lemma step_reports s s' :
  step fs s s' → reports_unopenable fs s → reports_unopenable fs s'.
Proof.
  intros Hstep Hrep. destruct (step_stderr _ _ Hstep) as [Hdirs Herr].
  unfold reports_unopenable in *. rewrite Hdirs.
  destruct Herr as [->|(g & Hg & ->)]; [done|].
  apply Forall_app. split; [done|]. constructor; [by exists g|constructor].
Qed.

Lemma in_run_reports env argv s :
  workers (launch env argv) ≠ [] → in_run fs env argv s →
  reports_unopenable fs s.
Proof.
  intros Hpool Hrun.
  eapply (rtc_ind_r (λ s, reports_unopenable fs s)); [| |exact Hrun].
  - unfold reports_unopenable. revert Hpool. unfold launch.
    destruct (start env argv); simpl; [done|done|]. intros _. constructor.
  - intros s1 s2 _ Hstep Hinv. by eapply step_reports.
Qed.

(** A worker inside [exit] has written its message. *)
Lemma step_exit_reported s s' :
  step fs s s' → (exiting s → stderr s ≠ []) → exiting s' → stderr s' ≠ [].
Proof.
  intros Hstep Hex Hex'. destruct (step_stderr _ _ Hstep) as [_ Herr].
  destruct Herr as [Heq|(g & _ & ->)]; [|by destruct (stderr s)].
  rewrite Heq. apply Hex. clear Hex.
  destruct Hstep as [j s1 s2 Hstep|s1 s2 Hstep|s1 s2 Hstep].
  - destruct Hex' as (k & wk & Hk & Hwk). unfold exiting.
    worker_cases Hstep w Hw; repeat case_match; simplify_eq; simpl in *.
    all: try (by exists k, wk).
    all: try (destruct (decide (j = k)) as [->|Hjk];
              [rewrite list_lookup_insert_eq in Hk by (by eapply lookup_lt_Some);
               injection Hk as <-; try done
              |rewrite list_lookup_insert_ne in Hk by done; by exists k, wk]).
    all: try (exfalso; apply (f_equal length) in Heq;
              rewrite length_app in Heq; simpl in Heq; lia).
    by rewrite next_buffer_exiting in Hwk.
  - main_cases Hstep; simpl in *; done.
  - by apply fault_effect in Hstep as (_ & -> & _).
Qed.

Lemma in_run_exit_reported env argv s :
  in_run fs env argv s → exiting s → stderr s ≠ [].
Proof.
  intros Hrun.
  eapply (rtc_ind_r (λ s, exiting s → stderr s ≠ [])); [| |exact Hrun].
  - destruct (launch_workers env argv) as [n Hn].
    intros (k & wk & Hk & Hwk). rewrite Hn in Hk.
    by apply lookup_replicate in Hk as [-> _].
  - intros s1 s2 _ Hstep Hinv. by eapply step_exit_reported.
Qed.

(** *** Entries that the crawl never touches *)

Lemma next_buffer_file file unread :
  (file_of (next_buffer file unread) = Some file
   ∨ file_of (next_buffer file unread) = None)
  ∧ fresh_name (next_buffer file unread) = None.
Proof.
  unfold next_buffer. destruct unread; [by split; [right|]|].
  destruct (parse_include _); by split; [left|].
Qed.

Lemma untouched_update key (ws : list worker) i w w' :
  ws !! i = Some w →
  (∀ j w, ws !! j = Some w → file_of w ≠ Some key ∧ fresh_name w ≠ Some key) →
  file_of w' ≠ Some key → fresh_name w' ≠ Some key →
  ∀ j w, <[i := w']> ws !! j = Some w →
         file_of w ≠ Some key ∧ fresh_name w ≠ Some key.
Proof.
  intros Hi Hall Hf Hn j wj Hj. destruct (decide (i = j)) as [->|Hij].
  - rewrite list_lookup_insert_eq in Hj by by eapply lookup_lt_Some.
    by injection Hj as <-.
  - rewrite list_lookup_insert_ne in Hj by done. by eapply Hall.
Qed.

Lemma push_dep_lookup_ne file name (t : Table) key :
  file ≠ key → push_dep file name t !! key = t !! key.
Proof. intros Hne. unfold push_dep. by rewrite lookup_insert_ne. Qed.

Lemma step_untouched key l s s' :
  step fs s s' → untouched key l s → untouched key l s'.
Proof.
  intros [i s1 s2 Hstep|s1 s2 Hstep|s1 s2 Hstep] (Ht & Hq & Hws);
    [| |by apply fault_effect in Hstep as (_ & -> & _)].
  - assert (Hme : ∀ w, workers s1 !! i = Some w →
              file_of w ≠ Some key ∧ fresh_name w ≠ Some key) by (intros; by eapply Hws).
    worker_cases Hstep w Hw; repeat case_match; simplify_eq.
    all: destruct (Hme _ eq_refl) as [Hfile Hname]; simpl in Hfile, Hname.
    all: unfold untouched; simpl.
    all: try (split; [done|]; split; [done|];
              eapply untouched_update; [done|done|by simpl|by simpl]).
    all: try match goal with H : workQ _ = _ |- _ => rewrite H end.
    all: try (split; [done|]; split; [done|]; done).
    + (* 427 pop_front *)
      split; [done|]. split; [set_solver|].
      eapply untouched_update; [done|done| |done]. simpl. set_solver.
    + (* 430 getValue *)
      split; [by apply getValue_lookup|]. split; [done|].
      eapply untouched_update; [done|done|by simpl|by simpl].
    + (* 282 fgets *)
      split; [done|]. split; [done|].
      destruct (next_buffer_file file unread) as [[Hf|Hf] Hn].
      all: eapply untouched_update; [done|done| |]; by rewrite ?Hf, ?Hn.
    + (* 313 push_back *)
      split; [rewrite push_dep_lookup_ne; [done|congruence]|]. split; [done|].
      eapply untouched_update; [done|done|by simpl|by simpl].
    + (* 315 find: absent *)
      split; [done|]. split; [done|].
      eapply untouched_update; [done|done|by simpl|]. simpl.
      intros [= ->]. match goal with H : ¬ is_Some _ |- _ => apply H end. by eexists.
    + (* 320 insert *)
      split; [by apply map_insert_lookup|]. split; [done|].
      eapply untouched_update; [done|done|by simpl|by simpl].
    + (* 322 push_back *)
      split; [done|]. split; [|eapply untouched_update; [done|done|by simpl|by simpl]].
      intros [?| ->%list_elem_of_singleton]%elem_of_app; [done|]. by apply Hname.
  - main_cases Hstep; unfold untouched; simpl; try done.
    split; [by apply flatten_table_lookup|done].
Qed.

Lemma in_run_untouched env argv key l s :
  untouched key l (launch env argv) → in_run fs env argv s → untouched key l s.
Proof.
  intros Hinit Hrun. eapply (rtc_ind_r (λ s, untouched key l s)); [| |exact Hrun].
  - done.
  - intros s1 s2 _ Hstep Hinv. by eapply step_untouched.
Qed.

Lemma first_enabled_step candidates s s' :
  first_enabled fs candidates s = Some s' → step fs s s'.
Proof.
  induction candidates as [|i candidates IH]; simpl.
  - apply step_of_main.
  - destruct (step_worker fs i s) as [s1|] eqn:Hs; [|done].
    intros [= <-]. by eapply step_of_worker.
Qed.

Lemma drive_in_run env argv fuel s :
  in_run fs env argv s → in_run fs env argv (drive fs fuel s).
Proof.
  revert s. induction fuel as [|fuel IH]; intros s Hrun; simpl; [done|].
  destruct (first_enabled fs _ s) as [s'|] eqn:Hs; [|done].
  apply IH. eapply rtc_r; [exact Hrun|]. by eapply first_enabled_step.
Qed.

Lemma seed_returns_legal files sh sh' :
  seed files sh = Returns sh' → Forall legal_file files.
Proof.
  revert sh. induction files as [|f files IH]; intros sh Hs; simpl in Hs.
  - constructor.
  - destruct (legal (parseFile f).2) eqn:Hf; [|done].
    constructor; [done|]. by eapply IH.
Qed.

(** C6 (as amended).  When [main] gets as far as creating the threads, a
    target whose object name no earlier target shares has, at that point,
    its object name mapped to the one-element list of the source file and
    the source file mapped to the empty list, and the queue holds exactly
    the targets.  The entry of the object name stays as it is for the whole
    run, so that the line printed for the target starts with the source
    file. *)
Theorem seeded_target_lists_source (env : Env) (argv : list string)
    (n : Z) (ds files : list string) (sh : Shared)
    (pre : list string) (file : string) (post : list string) :
  start env argv = Ready n ds files sh →
  files = pre ++ file :: post →
  (∀ g, g ∈ pre → object_name g ≠ object_name file) →
  theTable sh !! object_name file = Some [file]
  ∧ theTable sh !! file = Some []
  ∧ workQ sh = files
  ∧ ∀ s, in_run fs env argv s →
         (∃ rest, flatten (theTable (shared s)) (object_name file) = file :: rest)
         ∧ ∀ todo, ended s = None → main_pc s = MainPrinting (file :: todo) →
                   ∃ rest s', step_main s = Some s'
                              ∧ stdout s' = stdout s
                                  ++ [dependency_line (object_name file) (file :: rest)].
Proof.
  intros Hstart -> Hpre.
  assert (Hseed : seed (pre ++ file :: post) (mkShared ∅ []) = Returns sh
                  ∧ launch env argv
                    = mkState (pre ++ file :: post) ds sh 1 1 n
                        (replicate (Z.to_nat n) AtWait) MainWaiting [] [] None).
  { unfold launch. rewrite Hstart. split; [|done].
    unfold start in Hstart. destruct (number_of_threads env); [|done].
    destruct (seed _ _) eqn:Hs; [|done]. by injection Hstart as <- <- <- <-. }
  destruct Hseed as [Hseed Hlaunch].
  pose proof (seed_returns_legal _ _ _ Hseed) as Hlegal.
  destruct (seed_entry pre file post (mkShared ∅ []) Hlegal)
    as (sh' & Hs' & Hq & Hobj & Hsrc & _); [done|done|done|].
  assert (sh' = sh) as -> by congruence. simpl in Hq.
  split; [done|]. split; [done|]. split; [done|].
  assert (Hflat : ∀ s, in_run fs env argv s →
            ∃ rest, flatten (theTable (shared s)) (object_name file) = file :: rest).
  { intros s Hrun.
    assert (Hun : untouched (object_name file) [file] s).
    { eapply in_run_untouched; [|exact Hrun]. rewrite Hlaunch.
      split; [done|]. simpl. split.
      - rewrite Hq. intros Hin. rewrite Forall_forall in Hlegal.
        by eapply legal_not_object; [apply Hlegal, Hin|].
      - by intros i w [-> _]%lookup_replicate. }
    destruct Hun as [Ht _].
    assert (Hhead : head (flatten (theTable (shared s)) (object_name file)) = Some file).
    { eapply flatten_head.
      - by rewrite deps_lookup, Ht.
      - apply Forall_app in Hlegal as [_ [Hf _]%Forall_cons].
        by apply legal_not_object. }
    destruct (flatten _ _) as [|d rest]; [done|]. injection Hhead as ->. by exists rest. }
  intros s Hrun. split; [by apply Hflat|].
  intros todo Hended Hpc. destruct (Hflat s Hrun) as [rest Hrest].
  exists rest. eexists. unfold step_main. rewrite Hended, Hpc. split; [done|].
  simpl. by rewrite Hrest.
Qed.

(** *** A worker left alone runs [process]

    The transitions of a worker between lines 430 and 326, taken with no
    other thread moving in between, compute what the sequential reading
    [process] of the same lines computes. *)

Lemma run_worker_cons i k s s1 s2 :
  step_worker fs i s = Some s1 →
  run fs (replicate k (Worker i)) s1 = Some s2 →
  run fs (replicate (S k) (Worker i)) s = Some s2.
Proof. intros Hs Hr. simpl. by rewrite Hs. Qed.

Lemma fgets_shrinks room c content :
  String.length (fgets (S room) (String c content)).2 ≤ String.length content.
Proof.
  simpl. destruct (Ascii.eqb c newline); simpl; [done|]. apply fgets_length.
Qed.

Local Ltac worker_step :=
  unfold step_worker, with_worker; cbn [ended workers];
  rewrite list_lookup_insert_eq by done;
  cbn -[fgets parse_include next_buffer];
  unfold set_worker, set_table, set_workQ, set_shared, set_bs, set_ended, put_stderr;
  cbn -[fgets parse_include next_buffer]; rewrite ?list_insert_insert_eq.

Lemma run_worker_add i k1 k2 s s1 s2 :
  run fs (replicate k1 (Worker i)) s = Some s1 →
  run fs (replicate k2 (Worker i)) s1 = Some s2 →
  run fs (replicate (k1 + k2) (Worker i)) s = Some s2.
Proof.
  revert s. induction k1 as [|k1 IH]; intros s Hr1 Hr2; simpl in *.
  - by injection Hr1 as ->.
  - destruct (step_worker fs i s) as [s'|]; [|done]. simpl in *. by apply IH.
Qed.

(** One buffer: from [fgets] to the next [fgets]. *)
Lemma line_alone i file s c unread sh :
  i < length (workers s) → ended s = None →
  ∃ k, run fs (replicate k (Worker i))
         (with_worker i (AtGets file (String c unread)) sh 1 s)
       = Some (with_worker i (AtGets file (fgets 4095 (String c unread)).2)
                 (process_line file sh (fgets 4095 (String c unread)).1) 1 s).
Proof.
  intros Hi Hended.
  destruct s as [tg ds sh0 b tl tc ws mp so se en]; cbn [ended workers] in *; subst en.
  assert (Hnext : next_buffer file (String c unread)
            = match parse_include (fgets 4095 (String c unread)).1 with
              | None => AtGets file (fgets 4095 (String c unread)).2
              | Some name => AtBsWait file name (fgets 4095 (String c unread)).2
              end) by done.
  remember (fgets 4095 (String c unread)) as r eqn:Hr. clear Hr.
  unfold process_line.
  destruct (parse_include r.1) as [name|] eqn:Hparse.
  - destruct (decide (is_Some (push_dep file name (theTable sh) !! name)))
      as [Hknown|Hnew].
    + exists 5.
      eapply run_worker_cons; [worker_step; by rewrite Hnext|].
      eapply run_worker_cons; [by worker_step|].
      eapply run_worker_cons; [by worker_step|].
      eapply run_worker_cons; [worker_step; by rewrite decide_True by done|].
      eapply run_worker_cons; [by worker_step|].
      by destruct sh.
    + exists 7.
      eapply run_worker_cons; [worker_step; by rewrite Hnext|].
      eapply run_worker_cons; [by worker_step|].
      eapply run_worker_cons; [by worker_step|].
      eapply run_worker_cons; [worker_step; by rewrite decide_False by done|].
      eapply run_worker_cons; [by worker_step|].
      eapply run_worker_cons; [by worker_step|].
      eapply run_worker_cons; [by worker_step|].
      done.
  - exists 1. eapply run_worker_cons; [worker_step; by rewrite Hnext|]. done.
Qed.

Lemma gets_alone i file s :
  i < length (workers s) → ended s = None →
  ∀ fuel unread sh,
    String.length unread ≤ fuel →
    ∃ k, run fs (replicate k (Worker i)) (with_worker i (AtGets file unread) sh 1 s)
         = Some (with_worker i AtWait
                   (fold_left (process_line file) (read_lines 4095 fuel unread) sh) 1 s).
Proof.
  intros Hi Hended fuel. induction fuel as [|fuel IH]; intros unread sh Hlen.
  - destruct unread; [|simpl in Hlen; lia]. exists 1.
    eapply run_worker_cons; [|reflexivity].
    destruct s as [tg ds sh0 b tl tc ws mp so se en]; cbn [ended workers] in *; subst en.
    worker_step. reflexivity.
  - destruct unread as [|c unread].
    { exists 1. eapply run_worker_cons; [|reflexivity].
      destruct s as [tg ds sh0 b tl tc ws mp so se en]; cbn [ended workers] in *; subst en.
      worker_step. reflexivity. }
    pose proof (fgets_shrinks 4094 c unread) as Hshrink.
    destruct (line_alone i file s c unread sh Hi Hended) as [k1 Hk1].
    rewrite read_lines_cons.
    revert Hshrink Hk1. generalize (fgets 4095 (String c unread)). intros r Hshrink Hk1.
    cbn [fold_left]. cbn [String.length] in Hlen.
    destruct (IH r.2 (process_line file sh r.1)) as [k2 Hk2]; [lia|].
    exists (k1 + k2). by eapply run_worker_add.
Qed.

Lemma with_worker_same i w s :
  workers s !! i = Some w → with_worker i w (shared s) (bs s) s = s.
Proof.
  intros Hw. unfold with_worker. rewrite list_insert_id by done. by destruct s.
Qed.

(** From the evaluation of the argument [theTable.getValue(filename)] to
    the return of [process], or to its [exit]. *)
Lemma worker_alone i filename s :
  ended s = None → workers s !! i = Some (AtGetValue filename) → bs s = 1%Z →
  match scan_alone fs (dirs s) filename (shared s) with
  | Returns sh' =>
      ∃ k, run fs (replicate k (Worker i)) s = Some (with_worker i AtWait sh' 1 s)
  | Exits code err =>
      ∃ s', run fs [Worker i; Worker i; Worker i] s = Some s'
            ∧ ended s' = Some (Exited (exit_status code))
            ∧ stderr s' = stderr s ++ [err]
            ∧ stdout s' = stdout s
  end.
Proof.
  intros Hended Hw Hbs.
  assert (Hi : i < length (workers s)) by by eapply lookup_lt_Some.
  unfold scan_alone, process.
  destruct (openFile fs (dirs s) filename) as [[path content]|] eqn:Hopen.
  - destruct (gets_alone i filename s Hi Hended (String.length content) content
                (mkShared (getValue (theTable (shared s)) filename).2 (workQ (shared s))))
      as [k Hk]; [done|].
    exists (S (S k)).
    destruct s as [tg ds sh0 b tl tc ws mp so se en].
    cbn [ended workers dirs shared bs] in *. subst en b.
    eapply run_worker_cons; [|eapply run_worker_cons; [|exact Hk]].
    + unfold step_worker. cbn [ended workers]. rewrite Hw. reflexivity.
    + unfold step_worker, set_worker, set_table, set_shared, with_worker.
      cbn [ended workers dirs shared bs threadlock t_count targets main_pc stdout stderr].
      rewrite list_lookup_insert_eq by done. cbn [dirs]. rewrite Hopen.
      by rewrite list_insert_insert_eq.
  - destruct s as [tg ds sh0 b tl tc ws mp so se en].
    cbn [ended workers dirs shared bs stdout stderr] in *. subst en b.
    eexists. split; [|split; [|split]].
    + change [Worker i; Worker i; Worker i] with (replicate 3 (Worker i)).
      eapply run_worker_cons;
        [|eapply run_worker_cons; [|eapply run_worker_cons; [|reflexivity]]].
      * unfold step_worker. cbn [ended workers]. rewrite Hw. reflexivity.
      * unfold step_worker, set_worker, set_table, set_shared.
        cbn [ended workers dirs shared bs threadlock t_count targets main_pc stdout stderr].
        rewrite list_lookup_insert_eq by done. rewrite Hopen. reflexivity.
      * unfold step_worker, set_worker, put_stderr.
        cbn [ended workers dirs shared bs threadlock t_count targets main_pc stdout stderr].
        rewrite list_lookup_insert_eq by (by rewrite length_insert). reflexivity.
    + done.
    + done.
    + done.
Qed.

(** Only [pop_front] at line 427 removes from the queue; the other
    operations leave it alone or append to it. *)
Lemma only_pop_removes s s' :
  step fs s s' →
  workQ (shared s') = workQ (shared s)
  ∨ (∃ name, workQ (shared s') = workQ (shared s) ++ [name])
  ∨ (∃ i filename, workers s !! i = Some AtPop
                   ∧ workQ (shared s) = filename :: workQ (shared s')).
Proof.
  intros [i s1 s2 Hstep|s1 s2 Hstep|s1 s2 Hstep];
    [| |apply fault_effect in Hstep as (_ & -> & _); by left].
  - worker_cases Hstep w Hw; simpl; try by left.
    + repeat case_match; simplify_eq; by left.
    + destruct (workQ (shared s1)) as [|f q] eqn:Hq; injection Hstep as <-; simpl.
      * left. by rewrite Hq.
      * right. right. by exists i, f.
    + repeat case_match; simplify_eq; by left.
    + right. left. by eexists.
  - main_cases Hstep; simpl; by left.
Qed.

(** C10. In every state of every run, [threadlock] is a mutex held by at
    most one worker between its [wait] and its [signal]; a worker that is
    about to call [pop_front] (it holds the lock and has seen a positive
    size) finds the queue non-empty, so its call returns the front element;
    and the process has not ended in the construction of a string from
    NULL, which is where the empty-queue branch of [pop_front] leads. *)
Theorem pop_front_never_on_empty_queue (env : Env) (argv : list string) (s : state) :
  in_run fs env argv s →
  mutex (threadlock s) (workers s)
  ∧ (∀ i, workers s !! i = Some AtPop →
          ∃ filename q, workQ (shared s) = filename :: q
                        ∧ (ended s = None →
                           step_worker fs i s
                           = Some (set_worker i (AtSignalPopped filename) (set_workQ q s))))
  ∧ ended s ≠ Some (Terminated logic_error).
Proof.
  intros Hrun. destruct (in_run_safe env argv s Hrun) as (Hm & Hp & He).
  split; [done|]. split; [|done].
  intros i Hi. specialize (Hp i Hi).
  destruct (workQ (shared s)) as [|filename q] eqn:Hq; [done|].
  exists filename, q. split; [done|]. intros Hended.
  unfold step_worker. by rewrite Hended, Hi, Hq.
Qed.

End PoolFacts.

Lemma pop_front_never_on_empty_queue_witness :
  let fs : FileSystem := {[ "./foo.c" := include_line "inc1.h" ]} in
  let argv := ["dependencyDiscoverer"; "foo.c"] in
  ∃ s, run fs [Worker 0; Worker 0] (launch ∅ argv) = Some s
       ∧ workers s = [AtPop; AtWait]
       ∧ workQ (shared s) = ["foo.c"]
       ∧ ended s ≠ Some (Terminated logic_error).
Proof.
  intros fs argv.
  destruct (run fs [Worker 0; Worker 0] (launch ∅ argv)) as [s|] eqn:Hrun;
    [|by vm_compute in Hrun].
  exists s. split; [reflexivity|].
  pose proof (pop_front_never_on_empty_queue fs ∅ argv s (run_in_run fs ∅ argv _ s Hrun))
    as (_ & _ & Hend).
  vm_compute in Hrun. injection Hrun as <-.
  split; [reflexivity|]. split; [reflexivity|]. exact Hend.
Defined.

(** C7 (counterexample).  With CRAWLER_THREADS set to 0 no worker exists:
    the target [missing.c] opens under no directory, yet the run prints its
    dependency line and ends with status 0, standard error empty. *)
Lemma unopened_target_is_printed :
  let env : Env := {[ "CRAWLER_THREADS" := "0" ]} in
  let argv := ["dependencyDiscoverer"; "missing.c"] in
  openFile ∅ (dirs (launch env argv)) "missing.c" = None
  ∧ ∃ s, run ∅ [Main; Main; Main] (launch env argv) = Some s
         ∧ stdout s = ["missing.o: missing.c" +:+ endl]
         ∧ stderr s = []
         ∧ ended s = Some (Exited 0).
Proof.
  split; [reflexivity|]. eexists. split; [vm_compute; reflexivity|]. done.
Qed.

Lemma seeded_target_lists_source_witness :
  let argv := ["dependencyDiscoverer"; "-Iinclude"; "foo.c"; "bar.y"] in
  theTable (seed_of (start ∅ argv)) !! "bar.o" = Some ["bar.y"]
  ∧ theTable (seed_of (start ∅ argv)) !! "bar.y" = Some []
  ∧ workQ (seed_of (start ∅ argv)) = ["foo.c"; "bar.y"]
  ∧ ∃ rest, flatten (theTable (shared (launch ∅ argv))) "bar.o" = "bar.y" :: rest.
Proof.
  intros argv.
  destruct (seeded_target_lists_source ∅ ∅ argv 2
              ["./"; "include/"] ["foo.c"; "bar.y"] (seed_of (start ∅ argv))
              ["foo.c"] "bar.y" [])
    as (Hobj & Hsrc & Hq & Hrun).
  - vm_compute. reflexivity.
  - reflexivity.
  - intros g ->%list_elem_of_singleton. vm_compute. discriminate.
  - split; [exact Hobj|]. split; [exact Hsrc|]. split; [exact Hq|].
    exact (proj1 (Hrun (launch ∅ argv) (rtc_refl _ _))).
Defined.

(** C6 (counterexample).  [foo.c] and [foo.y] share the object name
    [foo.o]; [insert] keeps the entry made for [foo.c], so the entry of the
    object name of [foo.y] lists [foo.c], and both lines printed start with
    [foo.c]. *)
Lemma shared_object_name_keeps_first :
  let argv := ["dependencyDiscoverer"; "foo.c"; "foo.y"] in
  let fs : FileSystem := {[ "./foo.c" := ""; "./foo.y" := "" ]} in
  legal_file "foo.y"
  ∧ theTable (seed_of (start ∅ argv)) !! object_name "foo.y" = Some ["foo.c"]
  ∧ stdout (drive fs 40 (launch ∅ argv))
    = ["foo.o: foo.c" +:+ endl; "foo.o: foo.c" +:+ endl]
  ∧ ended (drive fs 40 (launch ∅ argv)) = Some (Exited 0).
Proof. vm_compute. done. Qed.

(** The example of the header comment of the source, under the
    deterministic scheduler. *)
Example foo_inc1_inc2_inc3 :
  let fs : FileSystem :=
    {[ "./foo.c" := include_line "inc1.h";
       "./inc1.h" := include_line "inc2.h" +:+ include_line "inc3.h";
       "./inc2.h" := "";
       "./inc3.h" := "" ]} in
  let final := drive fs 200 (launch ∅ ["dependencyDiscoverer"; "foo.c"]) in
  stdout final = ["foo.o: foo.c inc1.h inc2.h inc3.h" +:+ endl]
  ∧ stderr final = []
  ∧ ended final = Some (Exited 0).
Proof. vm_compute. done. Qed.

(** ** Errors before the threads are created *)

Section EarlyExits.

Lemma launch_ended_fixed fs env argv e s :
  ended (launch env argv) = Some e → in_run fs env argv s → s = launch env argv.
Proof.
  intros He Hrun. unfold in_run in Hrun.
  destruct (rtc_inv _ _ Hrun) as [<-|(s1 & Hstep & _)]; [done|].
  exfalso. by eapply ended_no_step.
Qed.

(** C8 (as amended).  When CRAWLER_THREADS is absent or holds text that
    [std::stoi] accepts, the first file argument whose extension is none of
    c, y and l makes the program write the line
    [Illegal extension: <ext> - must be .c, .y or .l] to standard error and
    end with status 255: no worker is ever created, nothing is scanned and
    nothing is written to standard output. *)
Theorem illegal_extension_stops (env : Env) (argv : list string) (n : Z)
    (pre : list string) (bad : string) (post : list string) :
  number_of_threads env = inl n →
  file_args (tail argv) = pre ++ bad :: post →
  Forall legal_file pre →
  (parseFile bad).2 ≠ "c" → (parseFile bad).2 ≠ "y" → (parseFile bad).2 ≠ "l" →
  stderr (launch env argv)
  = ["Illegal extension: " +:+ (parseFile bad).2 +:+ " - must be .c, .y or .l" +:+ endl]
  ∧ ended (launch env argv) = Some (Exited 255)
  ∧ stdout (launch env argv) = []
  ∧ workers (launch env argv) = []
  ∧ ∀ fs s, in_run fs env argv s → s = launch env argv.
Proof.
  intros Hn Hargs Hpre Hc Hy Hl.
  assert (Hbad : legal (parseFile bad).2 = false).
  { apply not_true_is_false. rewrite legal_iff. tauto. }
  assert (Hlaunch : launch env argv
            = mkState [] [] (mkShared ∅ []) 1 1 0 [] MainWaiting []
                [illegal_extension (parseFile bad).2] (Some (Exited (exit_status (-1))))).
  { unfold launch, start. by rewrite Hn, Hargs, (seed_illegal pre bad post _ Hpre Hbad). }
  rewrite Hlaunch. simpl. repeat (split; [done|]).
  intros fs s Hrun. rewrite <- Hlaunch. eapply launch_ended_fixed; [|exact Hrun].
  by rewrite Hlaunch.
Qed.

Lemma illegal_extension_stops_witness :
  let argv := ["dependencyDiscoverer"; "-Iinclude"; "foo.c"; "notes.txt"; "bar.y"] in
  stderr (launch ∅ argv) = ["Illegal extension: txt - must be .c, .y or .l" +:+ endl]
  ∧ ended (launch ∅ argv) = Some (Exited 255)
  ∧ stdout (launch ∅ argv) = []
  ∧ workers (launch ∅ argv) = [].
Proof.
  intros argv.
  destruct (illegal_extension_stops ∅ argv 2 ["foo.c"] "notes.txt" ["bar.y"])
    as (Herr & Hend & Hout & Hws & _).
  - reflexivity.
  - reflexivity.
  - repeat constructor.
  - vm_compute. discriminate.
  - vm_compute. discriminate.
  - vm_compute. discriminate.
  - split; [exact Herr|]. split; [exact Hend|]. split; [exact Hout|exact Hws].
Defined.

(** C8 (counterexamples).  With CRAWLER_THREADS set to [abc], [std::stoi]
    throws before the arguments are looked at: the process is terminated
    and the line about the extension of [foo.txt] is never written.  With
    two illegal arguments, only the first is reported. *)
Lemma illegal_extension_not_reported :
  let env : Env := {[ "CRAWLER_THREADS" := "abc" ]} in
  let argv := ["dependencyDiscoverer"; "foo.txt"] in
  let argv' := ["dependencyDiscoverer"; "a.txt"; "b.md"] in
  (parseFile "foo.txt").2 = "txt"
  ∧ ended (launch env argv) = Some (Terminated invalid_argument)
  ∧ stderr (launch env argv) = []
  ∧ (parseFile "b.md").2 = "md"
  ∧ stderr (launch ∅ argv') = ["Illegal extension: txt - must be .c, .y or .l" +:+ endl].
Proof. vm_compute. done. Qed.

(** *** Which texts [std::stoi] rejects *)





(** [std::stoi] reads the digits a text starts with and ignores the rest. *)
Example stoi_reads_a_prefix :
  stoi "3.9" = inl 3%Z ∧ stoi "12abc" = inl 12%Z
  ∧ stoi "1e3" = inl 1%Z ∧ stoi "0x10" = inl 0%Z
  ∧ stoi " 7" = inl 7%Z ∧ stoi "x7" = inr invalid_argument
  ∧ stoi "99999999999" = inr out_of_range.
Proof. vm_compute. done. Qed.


End EarlyExits.

(** * Further properties *)

Import Texts Locks Outcome Ownership Contents Progress.

(** ** The table after printing *)

Section PrinterMore.

Lemma printDependencies_dom fuel st st' :
  printDependencies fuel st = Some st' →
  ∃ out, written st' = written st ++ out
         ∧ dom (table st') = dom (table st) ∪ list_to_set (toProcess st) ∪ list_to_set out
         ∧ ∀ k l, table st' !! k = Some l → table st !! k = Some l ∨ l = [].
Proof.
  revert st. induction fuel as [|fuel IH]; intros st Hrun; simpl in Hrun.
  - destruct (toProcess st) as [|name rest] eqn:Hq; [|done].
    injection Hrun as <-. exists []. rewrite app_nil_r.
    split; [done|]. split; [set_solver|]. by left.
  - destruct (toProcess st) as [|name rest] eqn:Hq.
    + injection Hrun as <-. exists []. rewrite app_nil_r.
      split; [done|]. split; [set_solver|]. by left.
    + apply IH in Hrun as (out & Hw & Hd & Hl).
      unfold iteration in Hw, Hd, Hl.
      destruct (getValue (table st) name) as [ll t'] eqn:Hg.
      rewrite fold_visit in Hw, Hd, Hl. simpl in Hw, Hd, Hl.
      set (new := (discover (printed st) ll).2) in *.
      exists (new ++ out). split; [by rewrite Hw, app_assoc|].
      assert (Ht' : dom t' = {[name]} ∪ dom (table st)
                    ∧ ∀ k l, t' !! k = Some l → table st !! k = Some l ∨ l = []).
      { unfold getValue in Hg. destruct (table st !! name) as [l0|] eqn:Hn.
        - injection Hg as <- <-. split; [|by left].
          apply elem_of_dom_2 in Hn. set_solver.
        - injection Hg as <- <-. split; [by rewrite dom_insert_L|].
          intros k l Hk. destruct (decide (name = k)) as [->|Hne].
          + rewrite lookup_insert_eq in Hk. injection Hk as <-. by right.
          + rewrite lookup_insert_ne in Hk by done. by left. }
      destruct Ht' as [Hdom Hold]. split.
      * rewrite Hd, Hdom. rewrite !list_to_set_app_L. set_solver.
      * intros k l Hk. destruct (Hl k l Hk) as [Hk'| ->]; [|by right].
        by apply Hold.
Qed.

Lemma flatten_table_spec t root k l :
  flatten_table t root !! k = Some l ↔
  t !! k = Some l ∨ (t !! k = None ∧ l = [] ∧ (k = root ∨ k ∈ flatten t root)).
Proof.
  destruct (flatten_run t root) as (st' & Hrun & _ & _ & Hf & Ht & Hold & _).
  apply printDependencies_dom in Hrun as (out & Hw & Hd & Hl).
  simpl in Hw, Hd, Hl. rewrite Hf, Ht, Hw. split.
  - intros Hk. destruct (t !! k) as [l0|] eqn:Hk0.
    + left. apply Hold in Hk0. congruence.
    + right. split; [done|]. destruct (Hl k l Hk) as [?| ->]; [congruence|].
      split; [done|]. apply elem_of_dom_2 in Hk. rewrite Hd in Hk.
      apply not_elem_of_dom in Hk0. set_solver.
  - intros [Hk|(Hk & -> & Hin)]; [by apply Hold|].
    assert (Hdk : k ∈ dom (table st')) by (rewrite Hd; set_solver).
    apply elem_of_dom in Hdk as [l Hkl].
    destruct (Hl k l Hkl) as [?| ->]; [congruence|done].
Qed.

(** X1. What [printDependencies] leaves in the table: every entry that was
    there is unchanged, and the only entries it adds are empty lists, one for
    the root and one for each name it writes that had no entry (they come from
    the [operator[]] behind [MapSafe::getValue]). *)
Theorem flatten_table_adds_empty_entries t root k l :
  flatten_table t root !! k = Some l ↔
  t !! k = Some l ∨ (t !! k = None ∧ l = [] ∧ (k = root ∨ k ∈ flatten t root)).
Proof. apply flatten_table_spec. Qed.

Lemma walk_fuel_agree D fuel fuel' seen q r r' :
  walk D fuel seen q = Some r → walk D fuel' seen q = Some r' → r = r'.
Proof.
  intros H H'.
  apply (walk_fuel_mono _ _ (fuel `max` fuel')) in H; [|lia].
  apply (walk_fuel_mono _ _ (fuel `max` fuel')) in H'; [|lia].
  congruence.
Qed.

Lemma flatten_deps_ext t t' root :
  (∀ n, deps t n = deps t' n) → flatten t root = flatten t' root.
Proof.
  intros Hext.
  destruct (flatten_run t root) as (st1 & _ & Hw1 & _ & Hf1 & _).
  destruct (flatten_run t' root) as (st2 & _ & Hw2 & _ & Hf2 & _).
  rewrite (walk_ext _ (deps t')) in Hw1 by done.
  pose proof (walk_fuel_agree _ _ _ _ _ _ _ Hw1 Hw2) as Heq.
  rewrite Hf1, Hf2. congruence.
Qed.

(** X2. The entries added while one target is printed do not change what is
    printed for a later one: the names written for [root] are the same from
    the table left by the traversal of [first] as from the table before it. *)
Theorem flatten_after_flatten_table t first root :
  flatten (flatten_table t first) root = flatten t root.
Proof. apply flatten_deps_ext. intros n. apply flatten_table_deps. Qed.

End PrinterMore.

(** ** Buffers, names and the effect of [process] *)

Section ScannerMore.

Local Arguments String.append !s1 s2 : simpl nomatch.

Lemma string_length_append a b :
  String.length (a +:+ b) = String.length a + String.length b.
Proof. induction a as [|c a IH]; simpl; [done|]. by rewrite IH. Qed.



(** *** [openFile] *)

(** X3. [openFile] tries the directories of [dirs] in order: it opens the file
    under the first directory [d] where [d + file] exists, whatever the later
    directories hold, and it returns NULL exactly when the file exists under
    none of them. *)
Theorem openFile_first_match fs dirs file :
  (∀ path content,
     openFile fs dirs file = Some (path, content) ↔
     ∃ pre d post, dirs = pre ++ d :: post ∧ path = d +:+ file
                   ∧ fs !! path = Some content
                   ∧ ∀ d', d' ∈ pre → fs !! (d' +:+ file) = None)
  ∧ (openFile fs dirs file = None ↔
     ∀ d, d ∈ dirs → fs !! (d +:+ file) = None).
Proof.
  split; [|apply openFile_None]. intros path content. split.
  - induction dirs as [|d dirs IH]; simpl; [done|].
    destruct (fs !! (d +:+ file)) as [c|] eqn:Hd.
    + intros [= <- <-]. exists [], d, dirs. repeat split; [done|].
      intros d' Hd'. by apply elem_of_nil in Hd'.
    + intros (pre & d0 & post & -> & -> & Hc & Hpre)%IH.
      exists (d :: pre), d0, post. repeat split; [done|].
      intros d' [->|Hd']%elem_of_cons; [done|by apply Hpre].
  - intros (pre & d & post & -> & -> & Hc & Hpre). by apply openFile_first.
Qed.

(** *** [fgets] and the buffers of a file *)

Lemma fgets_fst_room room content : String.length (fgets room content).1 ≤ room.
Proof.
  revert content. induction room as [|room IH]; intros [|c content]; simpl; try lia.
  destruct (Ascii.eqb c newline); simpl; [lia|].
  specialize (IH content). lia.
Qed.

Lemma fgets_nonempty room c content :
  (fgets (S room) (String c content)).1 ≠ EmptyString.
Proof. simpl. by destruct (Ascii.eqb c newline). Qed.

Lemma fgets_newline_last room content pre post :
  (fgets room content).1 = pre +:+ String newline post → post = EmptyString.
Proof.
  revert content pre. induction room as [|room IH]; intros [|c content] pre; simpl.
  1-3: by destruct pre.
  destruct (Ascii.eqb c newline) eqn:Hc; simpl.
  - destruct pre as [|a pre]; simpl; [congruence|].
    intros [= _ H]. by destruct pre.
  - destruct pre as [|a pre]; simpl.
    + intros [= -> _]. by rewrite Ascii.eqb_refl in Hc.
    + intros [= _ H]. by eapply IH.
Qed.

Lemma fgets_full room content :
  (fgets room content).2 ≠ EmptyString →
  String.length (fgets room content).1 = room
  ∨ back (fgets room content).1 = newline.
Proof.
  revert content. induction room as [|room IH]; intros [|c content]; simpl;
    try done; try by left.
  destruct (Ascii.eqb c newline) eqn:Hc; simpl.
  - intros _. right. by apply Ascii.eqb_eq.
  - intros Hr. destruct (IH content Hr) as [Hl|Hb]; [left; by rewrite Hl|].
    right. destruct (fgets room content).1 as [|a r]; [|done].
    by vm_compute in Hb.
Qed.

Lemma read_lines_fuel room fuel fuel' content :
  String.length content ≤ fuel → String.length content ≤ fuel' →
  read_lines (S room) fuel content = read_lines (S room) fuel' content.
Proof.
  revert fuel' content. induction fuel as [|fuel IH]; intros [|fuel'] [|c content];
    simpl; try done; try lia.
  intros Hf Hf'. f_equal.
  pose proof (fgets_shrinks room c content) as Hs. simpl in Hs.
  apply IH; lia.
Qed.

Lemma read_lines_shape room fuel content :
  String.length content ≤ fuel →
  Forall (λ buf, buf ≠ EmptyString ∧ String.length buf ≤ S room
                 ∧ ∀ pre post, buf = pre +:+ String newline post → post = EmptyString)
    (read_lines (S room) fuel content)
  ∧ ∀ i buf, read_lines (S room) fuel content !! i = Some buf →
             S i < length (read_lines (S room) fuel content) →
             String.length buf = S room ∨ back buf = newline.
Proof.
  revert content. induction fuel as [|fuel IH]; intros [|c content] Hf.
  1-3: simpl; split; [constructor|by intros i buf Hi].
  rewrite read_lines_cons.
  pose proof (fgets_shrinks room c content) as Hs.
  destruct (IH (fgets (S room) (String c content)).2) as [IH1 IH2].
  { simpl in Hf. lia. }
  split.
  - constructor; [|done]. split; [apply fgets_nonempty|].
    split; [apply fgets_fst_room|]. intros pre post. apply fgets_newline_last.
  - intros [|i] buf Hi Hlen.
    + assert (buf = (fgets (S room) (String c content)).1) as ->
        by (by injection Hi).
      apply fgets_full. intros Hnil.
      revert Hlen. rewrite Hnil. destruct fuel; simpl; lia.
    + apply (IH2 i buf Hi). cbn [length] in Hlen. lia.
Qed.

(** X4. The buffers that the [fgets] loop of [process] reads cut the text of
    the file into consecutive pieces: put end to end they give the text back;
    none is empty or longer than 4095 characters; a newline can only be the
    last character of a buffer; and every buffer but the last one is full or
    ends with a newline. *)
Theorem lines_of_partition content :
  fold_right String.append EmptyString (lines_of content) = content
  ∧ Forall (λ buf, buf ≠ EmptyString ∧ String.length buf ≤ 4095
                   ∧ ∀ pre post, buf = pre +:+ String newline post →
                                 post = EmptyString)
      (lines_of content)
  ∧ ∀ i buf, lines_of content !! i = Some buf →
             S i < length (lines_of content) →
             String.length buf = 4095 ∨ back buf = newline.
Proof.
  split; [apply lines_of_concat|].
  unfold lines_of. apply (read_lines_shape 4094). lia.
Qed.


(** *** The name buffer *)

Lemma c_str_length buf : String.length (c_str buf) ≤ String.length buf.
Proof.
  induction buf as [|c buf IH]; simpl; [done|].
  destruct (Ascii.eqb c nul); simpl; lia.
Qed.

Lemma skip_space_length p : String.length (skip_space p) ≤ String.length p.
Proof.
  induction p as [|c p IH]; simpl; [done|].
  destruct (isspace c); simpl; lia.
Qed.

Lemma collect_length p : String.length (collect p) ≤ String.length p.
Proof.
  induction p as [|c p IH]; simpl; [done|].
  destruct (Ascii.eqb c quote); simpl; lia.
Qed.

Lemma parse_include_length buf name :
  parse_include buf = Some name → String.length name + 9 ≤ String.length buf.
Proof.
  unfold parse_include.
  pose proof (c_str_length buf) as Hc.
  pose proof (skip_space_length (c_str buf)) as Hs.
  set (p := skip_space (c_str buf)) in *.
  destruct (String.prefix "#include" p) eqn:Hp; [|done]. cbn [negb].
  apply prefix_split in Hp. apply (f_equal String.length) in Hp.
  rewrite string_length_append in Hp.
  change (String.length "#include") with 8 in Hp.
  pose proof (skip_space_length (advance 8 p)) as Hs'.
  destruct (skip_space (advance 8 p)) as [|c p'] eqn:Hq; [done|].
  destruct (Ascii.eqb c quote); [|done]. intros [= <-].
  pose proof (collect_length p') as Hn. cbn [String.length] in Hs'. lia.
Qed.

(** X5. A name copied out of a buffer of the file has at most 4086 characters,
    so the copy loop of [process] stays within [char name[4096]], the
    terminating zero included. *)
Theorem name_fits_buffer content buf name :
  buf ∈ lines_of content → parse_include buf = Some name →
  String.length name ≤ 4086.
Proof.
  intros Hin Hp. apply parse_include_length in Hp.
  destruct (read_lines_shape 4094 (String.length content) content) as [Hall _];
    [done|].
  rewrite Forall_forall in Hall. destruct (Hall _ Hin) as (_ & Hle & _). lia.
Qed.

(** *** What the matcher accepts *)

(** X6. The matcher of [process] yields [name] exactly on the buffers that
    [includes] describes: as a C string, white space, [#include], white space,
    a double quote, [name] with no double quote in it, and then either a
    double quote followed by anything or the end of the string. *)
Theorem parse_include_matches buf name :
  parse_include buf = Some name ↔ includes name (c_str buf).
Proof.
  split; [|apply parse_include_includes].
  intros Hp. pose proof (parse_include_cases buf) as Hc. by rewrite Hp in Hc.
Qed.

(** *** Lines longer than the buffer *)

Lemma fgets_exact pre rest :
  occurs newline pre = false →
  fgets (String.length pre) (pre +:+ rest) = (pre, rest).
Proof.
  induction pre as [|c pre IH]; simpl; [done|].
  intros [Hc Hpre]%orb_false_iff. rewrite Hc, IH by done. done.
Qed.

Lemma read_lines_cut room fuel pre rest :
  String.length pre = S room → occurs newline pre = false →
  String.length (pre +:+ rest) ≤ fuel →
  read_lines (S room) fuel (pre +:+ rest)
  = pre :: read_lines (S room) (String.length rest) rest.
Proof.
  intros Hlen Hpre Hfuel.
  destruct pre as [|c pre]; [done|]. destruct fuel as [|fuel]; [simpl in Hfuel; lia|].
  change (String c pre +:+ rest) with (String c (pre +:+ rest)).
  rewrite read_lines_cons.
  change (String c (pre +:+ rest)) with (String c pre +:+ rest).
  pose proof (fgets_exact (String c pre) rest Hpre) as Hg.
  rewrite Hlen in Hg. rewrite Hg. cbn [fst snd]. f_equal.
  apply read_lines_fuel; [|done].
  rewrite string_length_append in Hfuel. cbn [String.length] in Hfuel. lia.
Qed.

(** X7. A stretch of 4095 characters without a newline fills the buffer:
    [fgets] returns it as it stands, and what follows is read as if a new line
    began there. *)
Theorem long_line_is_cut pre rest :
  String.length pre = 4095 → occurs newline pre = false →
  lines_of (pre +:+ rest) = pre :: lines_of rest.
Proof.
  intros Hlen Hpre. unfold lines_of. by apply (read_lines_cut 4094).
Qed.


(** *** Whole lines of at most 4095 characters *)

Lemma fgets_empty room : fgets room EmptyString = (EmptyString, EmptyString).
Proof. by destruct room. Qed.

Lemma back_cons c a s : back (String c (String a s)) = back (String a s).
Proof. done. Qed.

(** A line that fits the buffer is what one call of [fgets] returns. *)
Lemma fgets_line room line rest :
  String.length line ≤ room → line ≠ EmptyString →
  (∀ pre post, line = pre +:+ String newline post → post = EmptyString) →
  (rest = EmptyString ∨ back line = newline) →
  fgets room (line +:+ rest) = (line, rest).
Proof.
  revert room. induction line as [|c l IH]; intros room Hlen Hne Hnl Hend; [done|].
  destruct room as [|room]; [simpl in Hlen; lia|].
  change (String c l +:+ rest) with (String c (l +:+ rest)). cbn [fgets].
  destruct (Ascii.eqb c newline) eqn:Hc.
  - apply Ascii.eqb_eq in Hc as ->.
    by rewrite (Hnl EmptyString l eq_refl).
  - destruct l as [|a l].
    + destruct Hend as [->|Hb].
      * by rewrite fgets_empty.
      * simpl in Hb. subst c. by rewrite Ascii.eqb_refl in Hc.
    + rewrite IH; [done| | | |].
      * simpl in Hlen |- *. lia.
      * done.
      * intros pre post Heq. apply (Hnl (String c pre) post). simpl. by rewrite Heq.
      * destruct Hend as [->|Hb]; [by left|right]. by rewrite back_cons in Hb.
Qed.

(** [fgets] on a text that ends with a newline does not look at what
    follows the text. *)
Lemma fgets_prefix room before rest :
  before ≠ EmptyString → back before = newline →
  fgets (S room) (before +:+ rest)
  = ((fgets (S room) before).1, (fgets (S room) before).2 +:+ rest).
Proof.
  revert room. induction before as [|c b IH]; intros room Hne Hb; [done|].
  change (String c b +:+ rest) with (String c (b +:+ rest)). cbn [fgets].
  destruct (Ascii.eqb c newline) eqn:Hc; [done|].
  destruct b as [|a b].
  { simpl in Hb. subst c. by rewrite Ascii.eqb_refl in Hc. }
  rewrite back_cons in Hb. destruct room as [|room]; [done|].
  by rewrite (IH room).
Qed.

Lemma fgets_rest_back room before :
  before ≠ EmptyString → back before = newline →
  (fgets room before).2 = EmptyString ∨ back (fgets room before).2 = newline.
Proof.
  revert room. induction before as [|c b IH]; intros room Hne Hb; [done|].
  destruct room as [|room]; [by right|]. cbn [fgets].
  destruct (Ascii.eqb c newline) eqn:Hc; cbn [snd].
  - destruct b as [|a b]; [by left|right]. by rewrite back_cons in Hb.
  - destruct b as [|a b].
    { simpl in Hb. subst c. by rewrite Ascii.eqb_refl in Hc. }
    rewrite back_cons in Hb. by apply IH.
Qed.

Lemma read_lines_app room fuel1 fuel2 fuel before rest :
  before = EmptyString ∨ back before = newline →
  String.length before ≤ fuel1 → String.length rest ≤ fuel2 →
  String.length (before +:+ rest) ≤ fuel →
  read_lines (S room) fuel (before +:+ rest)
  = read_lines (S room) fuel1 before ++ read_lines (S room) fuel2 rest.
Proof.
  revert fuel before. induction fuel1 as [|fuel1 IH]; intros fuel before Hb H1 H2 H.
  - destruct before; [|simpl in H1; lia]. by apply read_lines_fuel.
  - destruct before as [|c b]; [by apply read_lines_fuel|].
    destruct Hb as [|Hb]; [done|].
    destruct fuel as [|fuel]; [simpl in H; lia|].
    change (String c b +:+ rest) with (String c (b +:+ rest)).
    rewrite !read_lines_cons.
    change (String c (b +:+ rest)) with (String c b +:+ rest).
    rewrite fgets_prefix by done. cbn [fst snd app]. f_equal.
    pose proof (fgets_shrinks room c b) as Hs.
    apply IH.
    + destruct (fgets_rest_back (S room) (String c b)); by auto.
    + simpl in H1. lia.
    + done.
    + rewrite string_length_append in *. simpl in H. lia.
Qed.

Lemma lines_of_app before rest :
  before = EmptyString ∨ back before = newline →
  lines_of (before +:+ rest) = lines_of before ++ lines_of rest.
Proof. intros Hb. unfold lines_of. by apply (read_lines_app 4094). Qed.

Lemma read_lines_line room fuel line rest :
  String.length line ≤ S room → line ≠ EmptyString →
  (∀ pre post, line = pre +:+ String newline post → post = EmptyString) →
  (rest = EmptyString ∨ back line = newline) →
  String.length (line +:+ rest) ≤ fuel →
  read_lines (S room) fuel (line +:+ rest)
  = line :: read_lines (S room) (String.length rest) rest.
Proof.
  intros Hlen Hne Hnl Hend Hfuel.
  destruct line as [|c l]; [done|]. destruct fuel as [|fuel]; [simpl in Hfuel; lia|].
  change (String c l +:+ rest) with (String c (l +:+ rest)).
  rewrite read_lines_cons.
  change (String c (l +:+ rest)) with (String c l +:+ rest).
  rewrite fgets_line by done. cbn [fst snd]. f_equal.
  apply read_lines_fuel; [|done].
  rewrite string_length_append in Hfuel. cbn [String.length] in Hfuel. lia.
Qed.

Lemma lines_of_line line rest :
  String.length line ≤ 4095 → line ≠ EmptyString →
  (∀ pre post, line = pre +:+ String newline post → post = EmptyString) →
  (rest = EmptyString ∨ back line = newline) →
  lines_of (line +:+ rest) = line :: lines_of rest.
Proof. intros. unfold lines_of. by apply (read_lines_line 4094). Qed.

(** C4 (as amended).  Take an input line of at most 4095 characters, its
    newline included: a text [line] that is not empty, holds no newline
    before its last character, starts where a line starts (at the start of
    the file or after a newline) and ends with a newline unless the file
    ends there.  If, after its leading white space, the line does not begin
    with [#include], or if what follows [#include] and white space is not a
    double quote, then the line is read as one buffer, that buffer leaves
    the table and the queue as they were, and [process] does to them what
    it does on the file without the line.  The bound is needed: a longer
    line is read in pieces, see the counterexample at the end of the file. *)
Theorem short_ignored_line_contributes_nothing
    (fs fs' : FileSystem) (ds : list string) (file : string) (sh : Shared)
    (path path' before line after : string) :
  before = EmptyString ∨ back before = newline →
  line ≠ EmptyString →
  (∀ pre post, line = pre +:+ String newline post → post = EmptyString) →
  after = EmptyString ∨ back line = newline →
  String.length line ≤ 4095 →
  ignored (c_str line) →
  openFile fs ds file = Some (path, before +:+ line +:+ after) →
  openFile fs' ds file = Some (path', before +:+ after) →
  lines_of (before +:+ line +:+ after) = lines_of before ++ line :: lines_of after
  ∧ process_line file sh line = sh
  ∧ process fs ds file sh = process fs' ds file sh.
Proof.
  intros Hbefore Hne Hnl Hafter Hlen Hign Hopen Hopen'.
  assert (Hlines : lines_of (before +:+ line +:+ after)
                   = lines_of before ++ line :: lines_of after).
  { rewrite lines_of_app by done. f_equal. by apply lines_of_line. }
  split; [done|]. split; [by apply process_line_ignored|].
  unfold process. rewrite Hopen, Hopen'. f_equal.
  rewrite Hlines, lines_of_app by done. rewrite !fold_left_app. cbn [fold_left].
  by rewrite process_line_ignored.
Qed.


(** *** The effect of [process] on the table and the queue *)

Lemma push_dep_dom file name (t : Table) :
  dom (push_dep file name t) = {[file]} ∪ dom t.
Proof. unfold push_dep. by rewrite dom_insert_L. Qed.

Lemma map_insert_dom k v (t : Table) : dom (map_insert k v t) = {[k]} ∪ dom t.
Proof.
  unfold map_insert. destruct (t !! k) eqn:Hk; [|by rewrite dom_insert_L].
  apply elem_of_dom_2 in Hk. set_solver.
Qed.

Lemma scan_effect file lines sh :
  let found := discover ({[file]} ∪ dom (theTable sh)) (omap parse_include lines) in
  let sh' := fold_left (process_line file) lines sh in
  workQ sh' = workQ sh ++ found.2
  ∧ {[file]} ∪ dom (theTable sh') = found.1
  ∧ ∀ k, k ≠ file →
         theTable sh' !! k
         = if decide (k ∈ found.2) then Some [] else theTable sh !! k.
Proof.
  revert sh. induction lines as [|buf lines IH]; intros sh; cbn zeta.
  - simpl. rewrite app_nil_r. split; [done|]. split; [done|].
    intros k _. destruct (decide (k ∈ [])) as [Hk|]; [|done].
    by apply elem_of_nil in Hk.
  - cbn [fold_left omap list_omap]. unfold process_line at 2 4 6.
    destruct (parse_include buf) as [name|] eqn:Hp; [|apply IH].
    set (t1 := push_dep file name (theTable sh)).
    assert (Hd1 : dom t1 = {[file]} ∪ dom (theTable sh)) by apply push_dep_dom.
    destruct (decide (is_Some (t1 !! name))) as [Hin|Hout].
    + specialize (IH (mkShared t1 (workQ sh))). cbn zeta in IH. simpl in IH.
      apply elem_of_dom in Hin. rewrite Hd1 in Hin.
      cbn [discover]. rewrite decide_True by done.
      replace ({[file]} ∪ dom t1) with ({[file]} ∪ dom (theTable sh)) in IH
        by (rewrite Hd1; set_solver).
      destruct IH as (Hq & Hd & Hl). split; [done|]. split; [done|].
      intros k Hk. rewrite (Hl k Hk). destruct (decide _); [done|].
      by apply push_dep_lookup_ne.
    + specialize (IH (mkShared (map_insert name [] t1) (workQ sh ++ [name]))).
      cbn zeta in IH. simpl in IH.
      assert (Hnot : name ∉ ({[file]} ∪ dom (theTable sh) : gset string)).
      { rewrite <- Hd1. by rewrite elem_of_dom. }
      cbn [discover]. rewrite decide_False by done. cbn [fst snd].
      replace ({[file]} ∪ dom (map_insert name [] t1))
        with ({[name]} ∪ ({[file]} ∪ dom (theTable sh)) : gset string) in IH
        by (rewrite map_insert_dom, Hd1; set_solver).
      set (r := discover ({[name]} ∪ ({[file]} ∪ dom (theTable sh))) (omap parse_include lines)) in *.
      destruct IH as (Hq & Hd & Hl). split; [by rewrite Hq, <- app_assoc|].
      split; [done|]. intros k Hk. rewrite (Hl k Hk).
      assert (Hnr : name ∉ r.2).
      { unfold r. rewrite discover_new. set_solver. }
      destruct (decide (k = name)) as [->|Hkn].
      * rewrite decide_False by done. rewrite decide_True by set_solver.
        apply map_insert_new. by apply eq_None_not_Some.
      * destruct (decide (k ∈ r.2)) as [Hkr|Hkr].
        -- rewrite decide_True by set_solver. done.
        -- rewrite decide_False by set_solver.
           rewrite map_insert_lookup_ne by done. by apply push_dep_lookup_ne.
Qed.

(** X8. [process] on a file that opens returns, and this is all it does: the
    matched names are appended to the list of the file, in order and with
    their repeats; each matched name that is not the file and has no entry yet
    gets an empty entry and is appended to the work queue, once, in the order
    of first occurrence; every other entry stays as it was. *)
Theorem process_effect fs ds file sh path content :
  openFile fs ds file = Some (path, content) →
  ∃ sh', process fs ds file sh = Returns sh'
    ∧ let found := discover ({[file]} ∪ dom (theTable sh)) (matched content) in
      workQ sh' = workQ sh ++ found.2
      ∧ {[file]} ∪ dom (theTable sh') = found.1
      ∧ deps (theTable sh') file = deps (theTable sh) file ++ matched content
      ∧ ∀ k, k ≠ file →
             theTable sh' !! k
             = if decide (k ∈ found.2) then Some [] else theTable sh !! k.
Proof.
  intros Hopen. unfold process. rewrite Hopen. eexists. split; [done|].
  cbn zeta. unfold matched.
  destruct (scan_effect file (lines_of content) sh) as (Hq & Hd & Hl).
  split; [done|]. split; [done|]. split; [apply scan_deps|done].
Qed.

End ScannerMore.

(** ** The helpers of [main] *)

Section StartupMore.

Local Arguments String.append !s1 s2 : simpl nomatch.

(** *** [dirName] *)

Lemma back_dirName s : back (dirName s) = "/"%char.
Proof.
  unfold dirName. destruct (Ascii.eqb (back s) "/") eqn:Hb.
  - by apply Ascii.eqb_eq.
  - apply (back_append s "/" EmptyString).
Qed.

Lemma dirName_fixed s : back s = "/"%char → dirName s = s.
Proof. intros Hb. unfold dirName. by rewrite Hb. Qed.

(** X9. [dirName] of a non-empty string is the string itself or the string
    with one slash appended; it is the string itself exactly when the string
    already ends with a slash; the result always ends with a slash, so
    applying [dirName] twice is the same as applying it once. *)
Theorem dirName_ends_with_slash s :
  s ≠ EmptyString →
  (dirName s = s ∨ dirName s = s +:+ "/")
  ∧ (dirName s = s ↔ back s = "/"%char)
  ∧ back (dirName s) = "/"%char
  ∧ dirName (dirName s) = dirName s.
Proof.
  intros _. split; [|split; [|split]].
  - unfold dirName. destruct (Ascii.eqb (back s) "/"); by auto.
  - split; [|apply dirName_fixed]. intros Heq.
    rewrite <- Heq. apply back_dirName.
  - apply back_dirName.
  - apply dirName_fixed, back_dirName.
Qed.

(** *** [parseFile] *)

Lemma rfind_None c s : rfind c s = None ↔ occurs c s = false.
Proof.
  induction s as [|a s IH]; simpl; [done|].
  destruct (rfind c s) as [k|].
  - split; [done|]. intros [_ H]%orb_false_iff. by apply IH in H.
  - destruct (Ascii.eqb a c); simpl; [done|]. split; [|done]. intros _. by apply IH.
Qed.

Lemma rfind_tail c s k :
  rfind c s = Some k →
  occurs c (String.substring (S k) (String.length s - S k) s) = false.
Proof.
  revert k. induction s as [|a s IH]; intros k; simpl; [done|].
  destruct (rfind c s) as [j|] eqn:Hr.
  - intros [= <-]. by apply IH.
  - destruct (Ascii.eqb a c); [|done]. intros [= <-].
    rewrite Nat.sub_0_r, substring_all. by apply rfind_None.
Qed.

Lemma rfind_append c a b :
  occurs c b = false → rfind c (a +:+ String c b) = Some (String.length a).
Proof.
  intros Hb. induction a as [|x a IH]; simpl.
  - apply rfind_None in Hb. rewrite Hb. by rewrite Ascii.eqb_refl.
  - by rewrite IH.
Qed.

Lemma substring_append_l a b : String.substring 0 (String.length a) (a +:+ b) = a.
Proof.
  induction a as [|x a IH]; simpl; [by destruct b|]. by rewrite IH.
Qed.

Lemma substring_append_r a x b :
  String.substring (S (String.length a)) (String.length (a +:+ String x b) - S (String.length a))
    (a +:+ String x b) = b.
Proof.
  induction a as [|y a IH]; simpl.
  - rewrite Nat.sub_0_r. apply substring_all.
  - apply IH.
Qed.

Lemma parseFile_append root ext :
  occurs "." ext = false → parseFile (root +:+ "." +:+ ext) = (root, ext).
Proof.
  intros Hext. unfold parseFile.
  change ("." +:+ ext) with (String "." ext).
  rewrite rfind_append by done.
  by rewrite substring_append_l, substring_append_r.
Qed.

(** X10. [parseFile] splits at the last dot: a root and an extension without a
    dot, joined by a dot, are given back as they were; the extension returned
    never holds a dot; a name with a dot is its root, a dot and its extension;
    a name without a dot is returned whole, with an empty extension. *)
Theorem parseFile_round_trip :
  (∀ root ext, occurs "." ext = false →
               parseFile (root +:+ "." +:+ ext) = (root, ext))
  ∧ (∀ file, occurs "." (parseFile file).2 = false
             ∧ if occurs "." file
               then file = (parseFile file).1 +:+ "." +:+ (parseFile file).2
               else parseFile file = (file, EmptyString)).
Proof.
  split; [apply parseFile_append|].
  - intros file. unfold parseFile.
    destruct (rfind "." file) as [k|] eqn:Hr; simpl.
    + split; [by apply rfind_tail|].
      destruct (occurs "." file) eqn:Ho.
      * by apply rfind_split.
      * apply rfind_None in Ho. congruence.
    + split; [done|]. apply rfind_None in Hr. by rewrite Hr.
Qed.

(** *** The extension check and the object name *)

(** X11. The extension check of [main] accepts exactly the names that end in
    [.c], [.y] or [.l], and the object name of such a file is what stands
    before that ending, followed by [.o]. *)
Theorem legal_file_shape :
  (∀ file, legal_file file ↔
           ∃ root ext, file = root +:+ "." +:+ ext
                       ∧ (ext = "c" ∨ ext = "y" ∨ ext = "l"))
  ∧ (∀ root ext, ext = "c" ∨ ext = "y" ∨ ext = "l" →
                 object_name (root +:+ "." +:+ ext) = root +:+ ".o").
Proof.
  assert (Hparse : ∀ root ext, ext = "c" ∨ ext = "y" ∨ ext = "l" →
            parseFile (root +:+ "." +:+ ext) = (root, ext)).
  { intros root ext He. apply parseFile_append.
    by destruct He as [->|[->| ->]]. }
  split.
  - intros file. unfold legal_file. rewrite legal_iff. split.
    + intros He. exists (parseFile file).1, (parseFile file).2. split; [|done].
      apply parseFile_split. by destruct He as [->|[->| ->]].
    + intros (root & ext & -> & He). by rewrite Hparse.
  - intros root ext He. unfold object_name. by rewrite Hparse.
Qed.

(** *** The fields of CPATH *)

Lemma cpath_fields_nonempty str : cpath_fields str ≠ [].
Proof.
  destruct str as [|c str]; simpl; [done|].
  destruct (Ascii.eqb c ":"); [done|]. by destruct (cpath_fields str).
Qed.

(** X12. The loop over CPATH cuts the string at every colon and loses nothing:
    the fields joined by colons give CPATH back, and no field holds a colon
    (empty fields are kept). *)
Theorem cpath_fields_round_trip str :
  String.concat ":" (cpath_fields str) = str
  ∧ Forall (λ field, occurs ":" field = false) (cpath_fields str).
Proof.
  induction str as [|c str [IH1 IH2]]; simpl.
  - split; [done|]. by constructor.
  - pose proof (cpath_fields_nonempty str) as Hne.
    destruct (Ascii.eqb c ":") eqn:Hc.
    + apply Ascii.eqb_eq in Hc as ->.
      destruct (cpath_fields str) as [|f fields]; [done|].
      split; [|by constructor]. cbn [String.concat]. cbn [String.concat] in IH1.
      by rewrite IH1.
    + destruct (cpath_fields str) as [|f fields]; [done|].
      apply Forall_cons in IH2 as [Hf Hfs]. split.
      * destruct fields; simpl in IH1 |- *; by rewrite IH1.
      * constructor; [|done]. simpl. by rewrite Hc.
Qed.

(** *** Flags and file arguments *)

(** X13. The arguments are the leading [-I] flags followed by the file
    arguments: every flag starts with [-I], and the first file argument, if
    there is one, does not. *)
Theorem flags_come_first args :
  args = flag_args args ++ file_args args
  ∧ Forall (λ a, is_flag a = true) (flag_args args)
  ∧ ∀ a rest, file_args args = a :: rest → is_flag a = false.
Proof.
  induction args as [|a args (IH1 & IH2 & IH3)]; simpl.
  - split; [done|]. split; [constructor|done].
  - destruct (is_flag a) eqn:Ha.
    + split; [simpl; by f_equal|]. split; [by constructor|done].
    + split; [done|]. split; [constructor|]. by intros a' rest [= <- _].
Qed.

(** *** Seeding *)

Lemma seed_effect files sh :
  Forall legal_file files →
  ∃ sh', seed files sh = Returns sh'
         ∧ workQ sh' = workQ sh ++ files
         ∧ dom (theTable sh')
           = dom (theTable sh) ∪ list_to_set files
             ∪ list_to_set (object_name <$> files)
         ∧ ∀ k l, theTable sh !! k = Some l → theTable sh' !! k = Some l.
Proof.
  intros Hlegal. revert sh.
  induction Hlegal as [|file files Hfile _ IH]; intros sh; simpl.
  - exists sh. rewrite app_nil_r. split; [done|]. split; [done|].
    split; [set_solver|done].
  - unfold legal_file in Hfile. rewrite Hfile.
    edestruct IH as (sh' & -> & Hq & Hd & Hl). exists sh'. split; [done|].
    simpl in Hq, Hd, Hl. split; [by rewrite Hq, <- app_assoc|]. split.
    + rewrite Hd, !map_insert_dom. set_solver.
    + intros k l Hk. by apply Hl, map_insert_lookup, map_insert_lookup.
Qed.

(** X14. When every file argument has a legal extension, the seeding loop of
    [main] runs to its end: it appends the file arguments to the work queue in
    the order of the command line, the table gains an entry for each file and
    for each object name and for nothing else, and every entry the table had
    is kept. *)
Theorem seed_enqueues_in_order files sh :
  Forall legal_file files →
  ∃ sh', seed files sh = Returns sh'
         ∧ workQ sh' = workQ sh ++ files
         ∧ dom (theTable sh')
           = dom (theTable sh) ∪ list_to_set files
             ∪ list_to_set (object_name <$> files)
         ∧ ∀ k l, theTable sh !! k = Some l → theTable sh' !! k = Some l.
Proof. apply seed_effect. Qed.

End StartupMore.

(** ** The semaphore [bs] and the growth of the table *)

Section LockFacts.

Context (fs : FileSystem).

Local Ltac worker_cases H w Hw :=
  unfold step_worker in H;
  match type of H with
  | context [ended ?s] => destruct (ended s) eqn:?; [discriminate H|]
  end;
  match type of H with
  | context [workers ?s !! ?i] =>
      destruct (workers s !! i) as [w|] eqn:Hw; [|discriminate H]
  end;
  destruct w; simplify_option_eq.

Local Ltac main_cases H :=
  unfold step_main in H; repeat case_match; simplify_eq.

Lemma guarded_unique holds v ws i j w w' :
  guarded holds v ws → ws !! i = Some w → holds w = true →
  ws !! j = Some w' → holds w' = true → i = j.
Proof.
  intros [[_ Hnone]|(_ & k & wk & Hk & Hwk & Hothers)] Hi Hw Hj Hw'.
  - rewrite (Hnone _ _ Hi) in Hw. done.
  - destruct (decide (i = k)) as [->|Hik].
    + destruct (decide (j = k)) as [->|Hjk]; [done|].
      rewrite (Hothers _ _ Hjk Hj) in Hw'. done.
    + rewrite (Hothers _ _ Hik Hi) in Hw. done.
Qed.

Lemma guarded_held holds v ws i w :
  guarded holds v ws → ws !! i = Some w → holds w = true → v = 0%Z.
Proof.
  intros [[_ Hnone]|[-> _]] Hi Hw; [|done].
  rewrite (Hnone _ _ Hi) in Hw. done.
Qed.

Lemma guarded_keep holds v ws i w w' :
  ws !! i = Some w → holds w' = holds w →
  guarded holds v ws → guarded holds v (<[i := w']> ws).
Proof.
  intros Hi Hh [[-> Hnone]|(-> & k & wk & Hk & Hwk & Hothers)].
  - left. split; [done|]. intros j wj Hj.
    destruct (decide (i = j)) as [->|Hij].
    + rewrite list_lookup_insert_eq in Hj by by eapply lookup_lt_Some.
      injection Hj as <-. rewrite Hh. by eapply Hnone.
    + rewrite list_lookup_insert_ne in Hj by done. by eapply Hnone.
  - right. split; [done|]. destruct (decide (i = k)) as [->|Hik].
    + exists k, w'. rewrite list_lookup_insert_eq by by eapply lookup_lt_Some.
      split; [done|]. split; [rewrite Hh; congruence|].
      intros j wj Hjk Hj. rewrite list_lookup_insert_ne in Hj by done.
      by eapply Hothers.
    + exists k, wk. rewrite list_lookup_insert_ne by done.
      split; [done|]. split; [done|]. intros j wj Hjk Hj.
      destruct (decide (i = j)) as [->|Hij].
      * rewrite list_lookup_insert_eq in Hj by by eapply lookup_lt_Some.
        injection Hj as <-. rewrite Hh. by eapply Hothers.
      * rewrite list_lookup_insert_ne in Hj by done. by eapply Hothers.
Qed.

Lemma guarded_acquire holds v v' ws i w w' :
  ws !! i = Some w → holds w = false → holds w' = true →
  sem_wait v = Some v' → guarded holds v ws → guarded holds v' (<[i := w']> ws).
Proof.
  intros Hi Hw Hw' Hsem [[-> Hnone]|(-> & _)]; [|done].
  injection Hsem as <-. right. split; [done|]. exists i, w'.
  rewrite list_lookup_insert_eq by by eapply lookup_lt_Some.
  split; [done|]. split; [done|]. intros j wj Hji Hj.
  rewrite list_lookup_insert_ne in Hj by done. by eapply Hnone.
Qed.

Lemma guarded_release holds v v' ws i w w' :
  ws !! i = Some w → holds w = true → holds w' = false →
  sem_signal v = Some v' → guarded holds v ws → guarded holds v' (<[i := w']> ws).
Proof.
  intros Hi Hw Hw' Hsem [[-> Hnone]|(-> & k & wk & Hk & Hwk & Hothers)].
  - rewrite (Hnone _ _ Hi) in Hw. done.
  - injection Hsem as <-. left. split; [done|]. intros j wj Hj.
    destruct (decide (i = j)) as [->|Hij].
    + rewrite list_lookup_insert_eq in Hj by by eapply lookup_lt_Some.
      by injection Hj as <-.
    + rewrite list_lookup_insert_ne in Hj by done.
      destruct (decide (j = k)) as [->|Hjk]; [|by eapply Hothers].
      destruct (decide (i = k)) as [->|Hik]; [done|].
      rewrite (Hothers _ _ Hik Hi) in Hw. done.
Qed.

Lemma next_buffer_holds_bs file unread : holds_bs (next_buffer file unread) = false.
Proof.
  unfold next_buffer. destruct unread; [done|]. by destruct (parse_include _).
Qed.

Lemma step_guarded_bs s s' :
  step fs s s' → guarded holds_bs (bs s) (workers s) →
  guarded holds_bs (bs s') (workers s').
Proof.
  intros [i s1 s2 Hstep|s1 s2 Hstep|s1 s2 Hstep] Hg;
    [| |by apply fault_effect in Hstep as (_ & -> & _)].
  - worker_cases Hstep w Hw; repeat case_match; simplify_eq; simpl.
    all: try done.
    all: try (by eapply guarded_keep).
    all: try (by eapply guarded_acquire).
    all: try (by eapply guarded_release).
    eapply guarded_keep; [done| |done]. apply next_buffer_holds_bs.
  - main_cases Hstep; simpl; done.
Qed.

Lemma launch_guarded_bs env argv :
  guarded holds_bs (bs (launch env argv)) (workers (launch env argv)).
Proof.
  left. split; [unfold launch; by destruct (start env argv)|].
  destruct (launch_workers env argv) as [n ->].
  by intros i w [-> _]%lookup_replicate.
Qed.

Lemma in_run_guarded_bs env argv s :
  in_run fs env argv s → guarded holds_bs (bs s) (workers s).
Proof.
  unfold in_run. intros Hrun.
  eapply (rtc_ind_r (λ s, guarded holds_bs (bs s) (workers s))); [| |exact Hrun].
  - apply launch_guarded_bs.
  - intros s1 s2 _ Hstep Hg. by eapply step_guarded_bs.
Qed.

(** X15. In every state of every run the semaphore [bs] is a lock on lines 312
    to 323 of [process]: its value is 1 and no worker is between the [wait] of
    line 312 and the [signal] of line 316 or 323, or its value is 0 and
    exactly one worker is. *)
Theorem bs_is_a_lock env argv s :
  in_run fs env argv s → guarded holds_bs (bs s) (workers s).
Proof. apply in_run_guarded_bs. Qed.

(** X16. A worker that is about to call [BinarySemaphore::signal], on
    [threadlock] or on [bs], can always go on: the value of the semaphore is 0
    at that point, so the loop [while (val > 0)] of [signal] never waits. *)
Theorem signal_never_blocks env argv s i w :
  in_run fs env argv s → ended s = None →
  workers s !! i = Some w → at_signal w = true →
  is_Some (step_worker fs i s).
Proof.
  intros Hrun He Hw Hs.
  pose proof (in_run_guarded_bs _ _ _ Hrun) as Hbs.
  destruct (in_run_safe fs _ _ _ Hrun) as (Hth & _).
  unfold step_worker. rewrite He, Hw.
  destruct w; try done; simpl.
  - rewrite (guarded_held holds_threadlock _ _ _ _ Hth Hw) by done. done.
  - rewrite (guarded_held _ _ _ _ _ Hbs Hw) by done. done.
  - rewrite (guarded_held _ _ _ _ _ Hbs Hw) by done. done.
  - rewrite (guarded_held holds_threadlock _ _ _ _ Hth Hw) by done. done.
Qed.

(** *** The table only grows *)

Lemma step_table_grows s s' k l :
  step fs s s' → theTable (shared s) !! k = Some l →
  ∃ l', theTable (shared s') !! k = Some (l ++ l').
Proof.
  intros [i s1 s2 Hstep|s1 s2 Hstep|s1 s2 Hstep] Hk;
    [| |apply fault_effect in Hstep as (_ & -> & _); exists [];
        by rewrite app_nil_r].
  - worker_cases Hstep w Hw; repeat case_match; simplify_eq; simpl.
    all: try (exists []; by rewrite app_nil_r).
    + exists []. rewrite app_nil_r. by apply getValue_lookup.
    + unfold push_dep. destruct (decide (file = k)) as [->|Hne].
      * exists [name]. rewrite lookup_insert_eq, deps_lookup, Hk. done.
      * exists []. rewrite app_nil_r, lookup_insert_ne by done. done.
    + exists []. rewrite app_nil_r. by apply map_insert_lookup.
  - main_cases Hstep; simpl.
    all: try (exists []; by rewrite app_nil_r).
    exists []. rewrite app_nil_r. by apply flatten_table_lookup.
Qed.

Lemma rtc_table_grows s s' k l :
  rtc (step fs) s s' → theTable (shared s) !! k = Some l →
  ∃ l', theTable (shared s') !! k = Some (l ++ l').
Proof.
  intros Hrun. revert l. induction Hrun as [s|s1 s2 s3 Hstep _ IH]; intros l Hk.
  - exists []. by rewrite app_nil_r.
  - destruct (step_table_grows _ _ _ _ Hstep Hk) as [l1 H1].
    destruct (IH _ H1) as [l2 H2]. exists (l1 ++ l2). by rewrite app_assoc.
Qed.

(** X17. Along any sequence of steps an entry of the table is never removed or
    shortened: the list of a name can only get names appended. *)
Theorem table_only_grows s s' k l :
  rtc (step fs) s s' → theTable (shared s) !! k = Some l →
  ∃ l', theTable (shared s') !! k = Some (l ++ l').
Proof. apply rtc_table_grows. Qed.

End LockFacts.

(** ** A worker left alone *)

Section LoneWorker.

Context (fs : FileSystem).

(** X18. The steps of a worker left alone from the call of line 430, with [bs]
    free, amount to the sequential [process]: when [process] returns, the
    worker comes back to the top of its loop with the table and the queue that
    [process] computes and with [bs] free again; when the file cannot be
    opened, three steps ([getValue], the failed [openFile] with its message,
    [exit]) end the program with the status of [exit(-1)] and the message on
    the error stream, the output being untouched. *)
Theorem lone_worker_runs_process i filename s :
  ended s = None → workers s !! i = Some (AtGetValue filename) → bs s = 1%Z →
  match scan_alone fs (dirs s) filename (shared s) with
  | Returns sh' =>
      ∃ k, run fs (replicate k (Worker i)) s = Some (with_worker i AtWait sh' 1 s)
  | Exits code err =>
      ∃ s', run fs [Worker i; Worker i; Worker i] s = Some s'
            ∧ ended s' = Some (Exited (exit_status code))
            ∧ stderr s' = stderr s ++ [err]
            ∧ stdout s' = stdout s
  end.
Proof. apply worker_alone. Qed.

End LoneWorker.

(** ** Output, exit status and absence of deadlock *)

Section OutcomeFacts.

Context (fs : FileSystem).

Local Ltac worker_cases H w Hw :=
  unfold step_worker in H;
  match type of H with
  | context [ended ?s] => destruct (ended s) eqn:?; [discriminate H|]
  end;
  match type of H with
  | context [workers ?s !! ?i] =>
      destruct (workers s !! i) as [w|] eqn:Hw; [|discriminate H]
  end;
  destruct w; simplify_option_eq.

Local Ltac main_cases H :=
  unfold step_main in H; repeat case_match; simplify_eq.

Lemma step_frame s s' :
  step fs s s' → dirs s' = dirs s ∧ targets s' = targets s.
Proof.
  intros [i s1 s2 Hstep|s1 s2 Hstep|s1 s2 Hstep].
  - worker_cases Hstep w Hw; repeat case_match; simplify_eq; done.
  - main_cases Hstep; done.
  - by apply fault_effect in Hstep as (_ & -> & _).
Qed.

Lemma in_run_frame env argv s :
  in_run fs env argv s →
  dirs s = dirs (launch env argv) ∧ targets s = targets (launch env argv).
Proof.
  unfold in_run. intros Hrun.
  eapply (rtc_ind_r (λ s, dirs s = dirs (launch env argv)
                          ∧ targets s = targets (launch env argv)));
    [| |exact Hrun]; [done|].
  intros s1 s2 _ Hstep [Hd Ht]. apply step_frame in Hstep as [-> ->]. done.
Qed.

(** A worker can move only while the main thread waits. *)
Lemma worker_step_waiting env argv s i s' :
  in_run fs env argv s → step_worker fs i s = Some s' →
  main_pc s = MainWaiting ∧ main_pc s' = MainWaiting.
Proof.
  intros Hrun Hstep.
  destruct (in_run_print_after_join fs _ _ _ Hrun) as (_ & Hjoin & _).
  assert (Hwait : main_pc s = MainWaiting).
  { destruct (main_pc s) eqn:Hpc; [done| |]; exfalso.
    all: unfold step_worker in Hstep; destruct (ended s); [done|].
    all: destruct (workers s !! i) as [w|] eqn:Hw; [|done].
    all: rewrite (Hjoin ltac:(done) i w Hw) in Hstep; done. }
  split; [done|].
  worker_cases Hstep w Hw; repeat case_match; simplify_eq; done.
Qed.

Lemma line_of_ext t t' file :
  (∀ n, deps t n = deps t' n) → line_of t file = line_of t' file.
Proof. intros Hext. unfold line_of. by rewrite (flatten_deps_ext t t'). Qed.

Lemma step_listing env argv s s' :
  in_run fs env argv s → step fs s s' → listing s → listing s'.
Proof.
  intros Hrun Hstep Hl.
  destruct Hstep as [i s1 s2 Hstep|s1 s2 Hstep|s1 s2 Hstep];
    [| |by apply fault_effect in Hstep as (_ & -> & _)].
  - destruct (worker_step_waiting _ _ _ _ _ Hrun Hstep) as [Hw Hw'].
    unfold listing in *. rewrite Hw in Hl. rewrite Hw'.
    worker_cases Hstep w Hw0; repeat case_match; simplify_eq; done.
  - main_cases Hstep; unfold listing in *; simpl;
      match goal with H : main_pc _ = _ |- _ => rewrite H in Hl; rename H into Hpc end.
    + by exists [].
    + destruct Hl as (done & Ht & Hout). rewrite app_nil_r in Ht. by subst.
    + destruct Hl as (done & Ht & Hout).
      match type of Hpc with _ = MainPrinting (?f :: _) =>
        exists (done ++ [f]) end.
      split; [by rewrite Ht, <- app_assoc|].
      rewrite map_app, Hout. simpl. f_equal.
      * apply map_ext. intros g. symmetry. apply line_of_ext.
        intros n. apply flatten_table_deps.
      * f_equal. symmetry. apply line_of_ext. intros n. apply flatten_table_deps.
Qed.

Lemma launch_listing env argv : listing (launch env argv).
Proof. unfold listing, launch. by destruct (start env argv). Qed.

Lemma in_run_listing env argv s : in_run fs env argv s → listing s.
Proof.
  unfold in_run. intros Hrun. remember (launch env argv) as s0 eqn:Hs0.
  assert (Hgo : in_run fs env argv s0 ∧ listing s0).
  { subst s0. split; [apply rtc_refl|apply launch_listing]. }
  clear Hs0. revert Hgo.
  induction Hrun as [s|s1 s2 s3 Hstep _ IH]; intros [Hr Hl]; [done|].
  apply IH. split; [by eapply rtc_r|by eapply step_listing].
Qed.

Lemma stoi_exception str e :
  stoi str = inr e → e = invalid_argument ∨ e = out_of_range.
Proof.
  unfold stoi. destruct (skip_space (c_str str)) as [|c p].
  - vm_compute. intros [= <-]. by left.
  - set (sp := match String c p with
               | String "-" p' => (true, p')
               | String "+" p' => (false, p')
               | _ => (false, String c p)
               end).
    destruct sp as [negative p']. destruct (digits 0 0 p') as [v count].
    destruct (count =? 0)%nat; [intros [= <-]; by left|].
    destruct (_ && _); [done|]. intros [= <-]. by right.
Qed.

Lemma launch_ending_ok env argv : ending_ok (launch env argv).
Proof.
  unfold ending_ok, launch, start, number_of_threads.
  destruct (env !! "CRAWLER_THREADS") as [str|].
  - destruct (stoi str) as [n|e] eqn:Hs; simpl.
    + destruct (seed _ _) as [sh|code err] eqn:Hseed; simpl; [done|].
      apply seed_exit_code in Hseed as ->. right. by eauto.
    + apply stoi_exception in Hs. done.
  - destruct (seed _ _) as [sh|code err] eqn:Hseed; simpl; [done|].
    apply seed_exit_code in Hseed as ->. right. by eauto.
Qed.

Lemma step_ending_ok env argv s s' :
  in_run fs env argv s → step fs s s' → ending_ok s → ending_ok s'.
Proof.
  intros Hrun Hstep Hok.
  assert (Hrun' : in_run fs env argv s') by by eapply rtc_r.
  pose proof (in_run_print_after_join fs _ _ _ Hrun) as Hpj.
  destruct (in_run_safe fs _ _ _ Hrun') as (_ & _ & Hlogic).
  pose proof (in_run_exit_reported fs _ _ _ Hrun) as Hrep.
  destruct Hstep as [i s1 s2 Hstep|s1 s2 Hstep|s1 s2 Hstep].
  - destruct (worker_step_waiting _ _ _ _ _ Hrun Hstep) as [Hw Hw'].
    assert (Hex : ∀ f, workers s1 !! i = Some (AtExit f) → stderr s1 ≠ [])
      by (intros f ?; apply Hrep; by exists i, (AtExit f)).
    worker_cases Hstep w Hw0; repeat case_match; simplify_eq;
      unfold ending_ok in *; simpl in *;
      match goal with H : ended _ = None |- _ => rewrite ?H in * end;
      try congruence.
    right. split; [done|]. split; [done|]. by eapply Hex.
  - assert (Hquiet : main_pc s1 ≠ MainWaiting → stderr s1 = []).
    { intros Hpc. destruct Hpj as (_ & Hjoin & Herr).
      destruct (stderr s1) as [|line err]; [done|]. exfalso.
      destruct Herr as [(k & wk & Hk & Hwk)|(e & He & _)]; [done| |].
      - by rewrite (Hjoin Hpc k _ Hk) in Hwk.
      - unfold step_main in Hstep. by rewrite He in Hstep. }
    main_cases Hstep; unfold ending_ok in *; simpl in *;
      match goal with H : ended _ = None |- _ => rewrite ?H in * end;
      try congruence.
    left. split; [done|]. split; [done|]. apply Hquiet. congruence.
  - apply fault_effect in Hstep as (He & -> & k & wk & Hk & Hwk).
    unfold ending_ok; simpl.
    assert (Hbusy : is_finished wk = false) by by destruct wk.
    destruct (busy_no_output _ k wk Hpj Hk Hbusy) as [Hpc _].
    split; [done|]. apply Hrep. by exists k, wk.
Qed.

Lemma in_run_ending_ok env argv s : in_run fs env argv s → ending_ok s.
Proof.
  unfold in_run. intros Hrun. remember (launch env argv) as s0 eqn:Hs0.
  assert (Hgo : in_run fs env argv s0 ∧ ending_ok s0).
  { subst s0. split; [apply rtc_refl|apply launch_ending_ok]. }
  clear Hs0. revert Hgo.
  induction Hrun as [s|s1 s2 s3 Hstep _ IH]; intros [Hr Hl]; [done|].
  apply IH. split; [by eapply rtc_r|by eapply step_ending_ok].
Qed.

Lemma success_listing env argv s :
  in_run fs env argv s → ended s = Some (Exited 0) →
  stdout s = map (line_of (theTable (shared s))) (targets s)
  ∧ stderr s = []
  ∧ ∀ i w, workers s !! i = Some w → w = Finished.
Proof.
  intros Hrun He.
  pose proof (in_run_ending_ok _ _ _ Hrun) as Hok.
  pose proof (in_run_listing _ _ _ Hrun) as Hl.
  destruct (in_run_print_after_join fs _ _ _ Hrun) as (_ & Hjoin & _).
  unfold ending_ok in Hok. rewrite He in Hok.
  destruct Hok as [(_ & Hpc & Herr)|(? & _)]; [|done].
  unfold listing in Hl. rewrite Hpc in Hl.
  split; [done|]. split; [done|]. apply Hjoin. by rewrite Hpc.
Qed.



(** X20. Output and failure exclude each other.  In every state of every
    run, if anything has been written to the output, then nothing has been
    written to the error stream, every worker has returned, and the program
    still runs or has ended with status 0; so a run that ends in any other
    way, whatever the status, the exception or the signal, has written
    nothing to the output. *)
Theorem failure_prints_nothing env argv s :
  in_run fs env argv s →
  (stdout s ≠ [] →
   stderr s = []
   ∧ (∀ i w, workers s !! i = Some w → w = Finished)
   ∧ (ended s = None ∨ ended s = Some (Exited 0)))
  ∧ (∀ e, ended s = Some e → e ≠ Exited 0 → stdout s = []).
Proof.
  intros Hrun.
  pose proof (in_run_ending_ok _ _ _ Hrun) as Hok.
  destruct (in_run_print_after_join fs _ _ _ Hrun) as (Hout & Hjoin & Herr).
  assert (Hfail : ∀ e, ended s = Some e → e ≠ Exited 0 →
                       main_pc s = MainWaiting).
  { intros e He Hne. unfold ending_ok in Hok. rewrite He in Hok.
    destruct e as [status|x|].
    - by destruct Hok as [(-> & _)|(_ & Hpc & _)].
    - by destruct Hok as (_ & Hpc & _).
    - by destruct Hok as (Hpc & _). }
  split.
  - intros Hprinted.
    assert (Hpc : main_pc s ≠ MainWaiting) by (intros Hpc; by apply Hprinted, Hout).
    assert (Hend : ended s = None ∨ ended s = Some (Exited 0)).
    { destruct (ended s) as [e|] eqn:He; [|by left]. right. f_equal.
      assert (Hne : e ≠ Exited 0 → False)
        by (intros Hne; apply Hpc; by eapply Hfail).
      destruct e as [status|x|]; [|by destruct Hne..].
      destruct (decide (status = 0%Z)) as [->|Hz]; [done|].
      destruct Hne. congruence. }
    split; [|by split; [apply Hjoin|]].
    destruct (stderr s) as [|line err]; [done|]. exfalso.
    destruct Herr as [(k & wk & Hk & Hwk)|(e & He & Hne)]; [done| |].
    + by rewrite (Hjoin Hpc k _ Hk) in Hwk.
    + apply Hpc. by eapply Hfail.
  - intros e He Hne. apply Hout. by eapply Hfail.
Qed.


(** *** A pool without workers *)

Lemma no_worker_listing env argv n ds files sh s e :
  start env argv = Ready n ds files sh → (n ≤ 0)%Z →
  in_run fs env argv s → ended s = Some e →
  e = Exited 0 ∧ stdout s = map (line_of (theTable sh)) files.
Proof.
  intros Hstart Hn Hrun He.
  assert (Hinv : workers s = [] ∧ targets s = files
                 ∧ (∀ x, deps (theTable (shared s)) x = deps (theTable sh) x)
                 ∧ (ended s = None ∨ ended s = Some (Exited 0))).
  { unfold in_run in Hrun.
    eapply (rtc_ind_r (λ s, workers s = [] ∧ targets s = files
                 ∧ (∀ x, deps (theTable (shared s)) x = deps (theTable sh) x)
                 ∧ (ended s = None ∨ ended s = Some (Exited 0))));
      [| |exact Hrun].
    - unfold launch. rewrite Hstart. simpl.
      replace (Z.to_nat n) with 0 by lia. by auto.
    - intros s1 s2 _ Hstep (Hws & Hts & Hdeps & Hend).
      destruct Hstep as [i s1 s2 Hstep|s1 s2 Hstep|s1 s2 Hstep].
      + unfold step_worker in Hstep. rewrite Hws in Hstep.
        by destruct (ended s1).
      + main_cases Hstep; simpl; repeat split; auto.
        intros x. by rewrite flatten_table_deps.
      + apply fault_effect in Hstep as (_ & _ & k & wk & Hk & _).
        by rewrite Hws in Hk. }
  destruct Hinv as (_ & Hts & Hdeps & [Hend|Hend]); [congruence|].
  assert (e = Exited 0) as -> by congruence. split; [done|].
  destruct (success_listing _ _ _ Hrun He) as (-> & _).
  rewrite Hts. apply map_ext. intros f. by apply line_of_ext.
Qed.

(** X21. When CRAWLER_THREADS is zero or negative no file is read: every run
    that ends does so with status 0, and prints for each file argument the
    line computed from the seeded table alone, whatever the file system holds.
    *)
Theorem no_worker_no_scan env argv n ds files sh s e :
  start env argv = Ready n ds files sh → (n ≤ 0)%Z →
  in_run fs env argv s → ended s = Some e →
  e = Exited 0 ∧ stdout s = map (line_of (theTable sh)) files.
Proof. apply no_worker_listing. Qed.

(** *** No deadlock *)

Lemma unfinished_insert ws i w w' :
  ws !! i = Some w →
  unfinished (<[i := w']> ws) + (if is_finished w then 0 else 1)
  = unfinished ws + (if is_finished w' then 0 else 1).
Proof.
  revert i. induction ws as [|x ws IH]; intros [|i] Hi; simpl in *; try done.
  - injection Hi as ->. lia.
  - specialize (IH i Hi). lia.
Qed.

Lemma unfinished_replicate n : unfinished (replicate n AtWait) = n.
Proof. induction n as [|n IH]; simpl; [done|]. by rewrite IH. Qed.

Lemma unfinished_none ws :
  forallb is_finished ws = true → unfinished ws = 0.
Proof.
  induction ws as [|w ws IH]; simpl; [done|].
  intros [-> H]%andb_prop. by rewrite IH.
Qed.

Lemma forallb_false_lookup ws :
  forallb is_finished ws = false → ∃ i w, ws !! i = Some w ∧ is_finished w = false.
Proof.
  induction ws as [|w ws IH]; simpl; [done|].
  destruct (is_finished w) eqn:Hw; simpl.
  - intros (i & w' & Hi & Hw')%IH. by exists (S i), w'.
  - intros _. by exists 0, w.
Qed.

Lemma next_buffer_unfinished file unread :
  is_finished (next_buffer file unread) = false.
Proof.
  unfold next_buffer. destruct unread; [done|]. by destruct (parse_include _).
Qed.

Lemma step_tracker s s' :
  step fs s s' →
  (t_count s ≤ Z.of_nat (unfinished (workers s)))%Z →
  (t_count s' ≤ Z.of_nat (unfinished (workers s')))%Z.
Proof.
  intros [i s1 s2 Hstep|s1 s2 Hstep|s1 s2 Hstep] Hle;
    [| |by apply fault_effect in Hstep as (_ & -> & _)].
  - worker_cases Hstep w Hw; repeat case_match; simplify_eq; simpl.
    all: try done.
    all: match goal with
         | |- context [<[_ := ?w']> (workers _)] =>
             pose proof (unfinished_insert _ _ _ w' Hw) as Hu
         end.
    all: simpl in Hu; try rewrite next_buffer_unfinished in Hu; lia.
  - main_cases Hstep; simpl; done.
Qed.

Lemma in_run_tracker env argv s :
  in_run fs env argv s → (t_count s ≤ Z.of_nat (unfinished (workers s)))%Z.
Proof.
  unfold in_run. intros Hrun.
  eapply (rtc_ind_r (λ s, (t_count s ≤ Z.of_nat (unfinished (workers s)))%Z));
    [| |exact Hrun].
  - unfold launch. destruct (start env argv); simpl; try done.
    rewrite unfinished_replicate. lia.
  - intros s1 s2 _ Hstep Hle. by eapply step_tracker.
Qed.

Lemma holder_enabled s i w :
  ended s = None → workers s !! i = Some w →
  guarded holds_threadlock (threadlock s) (workers s) →
  guarded holds_bs (bs s) (workers s) →
  holds_threadlock w = true ∨ holds_bs w = true →
  is_Some (step_worker fs i s).
Proof.
  intros He Hw Hth Hbs Hh. unfold step_worker. rewrite He, Hw.
  destruct w; simpl in Hh; try (by destruct Hh); simpl; try done.
  - by destruct (0 <? _).
  - by destruct (workQ _).
  - rewrite (guarded_held _ _ _ _ _ Hth Hw) by done. done.
  - destruct (decide _); done.
  - rewrite (guarded_held _ _ _ _ _ Hbs Hw) by done. done.
  - rewrite (guarded_held _ _ _ _ _ Hbs Hw) by done. done.
  - rewrite (guarded_held _ _ _ _ _ Hth Hw) by done. done.
Qed.

Lemma can_step env argv s :
  in_run fs env argv s → ended s = None → ∃ s', step fs s s'.
Proof.
  intros Hrun He.
  pose proof (in_run_guarded_bs fs _ _ _ Hrun) as Hbs.
  destruct (in_run_safe fs _ _ _ Hrun) as (Hth & _).
  pose proof (in_run_tracker _ _ _ Hrun) as Htr.
  pose proof (in_run_ending_ok _ _ _ Hrun) as Hok.
  unfold ending_ok in Hok. rewrite He in Hok.
  destruct (forallb is_finished (workers s)) eqn:Hall.
  - assert (is_Some (step_main s)) as [s' Hs'].
    { unfold step_main. rewrite He.
      destruct (main_pc s) as [|[|f todo]|]; [|done|done|done].
      rewrite Hall, (unfinished_none _ Hall) in *.
      replace (t_count s <=? 0)%Z with true by (symmetry; apply Z.leb_le; lia).
      done. }
    exists s'. by apply step_of_main.
  - apply forallb_false_lookup in Hall as (i & w & Hw & Hf).
    assert (Hgo : ∃ j, is_Some (step_worker fs j s)).
    { destruct (holds_threadlock w || holds_bs w) eqn:Hh.
      { exists i. eapply holder_enabled; [done..|]. by apply orb_prop. }
      apply orb_false_elim in Hh as [Hh1 Hh2].
      destruct w; try done.
      - pose proof Hth as [[Hv _]|(Hv & k & wk & Hk & Hwk & _)].
        + exists i. unfold step_worker. rewrite He, Hw, Hv. done.
        + exists k. eapply holder_enabled; [done..|]. by left.
      - exists i. unfold step_worker. rewrite He, Hw. done.
      - exists i. unfold step_worker. rewrite He, Hw. simpl.
        by destruct (openFile _ _ _) as [[??]|].
      - exists i. unfold step_worker. rewrite He, Hw. done.
      - pose proof Hbs as [[Hv _]|(Hv & k & wk & Hk & Hwk & _)].
        + exists i. unfold step_worker. rewrite He, Hw, Hv. done.
        + exists k. eapply holder_enabled; [done..|]. by right.
      - exists i. unfold step_worker. rewrite He, Hw. done.
      - exists i. unfold step_worker. rewrite He, Hw. done. }
    destruct Hgo as (j & s' & Hs'). exists s'. by eapply step_of_worker.
Qed.

(** X22. No run gets stuck, a thread blocked in [wait], [wait_done] or [join]
    being one that cannot step: in every state that a run reaches and in which
    the program has not ended, some thread can take a step. *)
Theorem deadlock_free env argv s :
  in_run fs env argv s → ended s = None → ∃ s', step fs s s'.
Proof. apply can_step. Qed.

End OutcomeFacts.

(** ** Every name is handled once *)

Section OwnershipFacts.

Context (fs : FileSystem).

Local Ltac worker_cases H w Hw :=
  unfold step_worker in H;
  match type of H with
  | context [ended ?s] => destruct (ended s) eqn:?; [discriminate H|]
  end;
  match type of H with
  | context [workers ?s !! ?i] =>
      destruct (workers s !! i) as [w|] eqn:Hw; [|discriminate H]
  end;
  destruct w; simplify_option_eq.

Local Ltac main_cases H :=
  unfold step_main in H; repeat case_match; simplify_eq.

Lemma omap_insert_same {A} (f : worker → option A) (ws : list worker) i w w' :
  ws !! i = Some w → f w' = f w → omap f (<[i := w']> ws) = omap f ws.
Proof.
  unfold omap.
  revert i. induction ws as [|x ws IH]; intros [|i] Hi Hf; simpl in *; try done.
  - injection Hi as ->. by rewrite Hf.
  - by rewrite (IH i).
Qed.

Lemma omap_insert_gain {A} (f : worker → option A) (ws : list worker) i w w' x :
  ws !! i = Some w → f w = None → f w' = Some x →
  omap f (<[i := w']> ws) ≡ₚ x :: omap f ws.
Proof.
  unfold omap.
  revert i. induction ws as [|y ws IH]; intros [|i] Hi Hf Hf'; simpl in *; try done.
  - injection Hi as ->. by rewrite Hf, Hf'.
  - destruct (f y); rewrite (IH i) by done; [apply Permutation_swap|done].
Qed.

Lemma omap_insert_lose {A} (f : worker → option A) (ws : list worker) i w w' x :
  ws !! i = Some w → f w = Some x → f w' = None →
  omap f ws ≡ₚ x :: omap f (<[i := w']> ws).
Proof.
  unfold omap.
  revert i. induction ws as [|y ws IH]; intros [|i] Hi Hf Hf'; simpl in *; try done.
  - injection Hi as ->. by rewrite Hf, Hf'.
  - destruct (f y); rewrite (IH i) by done; [apply Permutation_swap|done].
Qed.

Lemma omap_lookup {A} (f : worker → option A) (ws : list worker) i w x :
  ws !! i = Some w → f w = Some x → x ∈ omap f ws.
Proof.
  intros Hi Hf. apply list_elem_of_omap. exists w. split; [|done].
  by eapply list_elem_of_lookup_2.
Qed.

Lemma omap_NoDup_lookup {A} (f : worker → option A) (ws : list worker) i j w w' x :
  NoDup (omap f ws) → ws !! i = Some w → ws !! j = Some w' →
  f w = Some x → f w' = Some x → i = j.
Proof.
  revert i j. induction ws as [|y ws IH]; intros [|i] [|j] Hn Hi Hj Hf Hf';
    cbn [lookup list_lookup omap list_omap] in *; try done.
  - injection Hi as ->. rewrite Hf in Hn. apply NoDup_cons in Hn as [Hx _].
    exfalso. apply Hx. by eapply omap_lookup.
  - injection Hj as ->. rewrite Hf' in Hn. apply NoDup_cons in Hn as [Hx _].
    exfalso. apply Hx. by eapply omap_lookup.
  - f_equal. eapply IH; [|done..]. destruct (f y); [|done].
    by apply NoDup_cons in Hn as [_ Hn].
Qed.


Lemma fresh_update (t : Table) (ws : list worker) i w' :
  (∀ j f n u, j ≠ i → ws !! j = Some (AtInsert f n u) → t !! n = None) →
  (∀ f n u, w' = AtInsert f n u → t !! n = None) →
  ∀ j f n u, <[i := w']> ws !! j = Some (AtInsert f n u) → t !! n = None.
Proof.
  intros Hold Hnew j f n u [(-> & Heq & _)|[Hne Hj]]%list_lookup_insert_Some.
  - by eapply Hnew.
  - by eapply Hold.
Qed.

Lemma owned_local t q (ws : list worker) i w w' :
  ws !! i = Some w → file_of w' = file_of w → pushing w' = pushing w →
  (∀ f n u, w' = AtInsert f n u → t !! n = None) →
  owned_at t q ws → owned_at t q (<[i := w']> ws).
Proof.
  intros Hi Hf Hp Hins (Hn & Hk & Hfresh). unfold owned_at, in_flight in *.
  rewrite (omap_insert_same file_of _ _ _ _ Hi Hf).
  rewrite (omap_insert_same pushing _ _ _ _ Hi Hp).
  split; [done|]. split; [done|].
  apply fresh_update; [|done]. intros j f n u _ Hj. by eapply Hfresh.
Qed.

Lemma owned_table (t t' : Table) q (ws : list worker) :
  (∀ k, is_Some (t !! k) → is_Some (t' !! k)) →
  (∀ i f n u, ws !! i = Some (AtInsert f n u) → t' !! n = None) →
  owned_at t q ws → owned_at t' q ws.
Proof.
  intros Hkeys Hins (Hn & Hk & _). split; [done|]. split; [|done].
  intros x Hx. by apply Hkeys, Hk.
Qed.

Lemma owned_pop t f q (ws : list worker) i :
  ws !! i = Some AtPop →
  owned_at t (f :: q) ws → owned_at t q (<[i := AtSignalPopped f]> ws).
Proof.
  intros Hi (Hn & Hk & Hfresh). unfold owned_at, in_flight in *.
  rewrite (omap_insert_same pushing _ _ _ _ Hi) by done.
  assert (Hperm : q ++ omap file_of (<[i := AtSignalPopped f]> ws) ++ omap pushing ws
                  ≡ₚ (f :: q) ++ omap file_of ws ++ omap pushing ws).
  { rewrite (omap_insert_gain file_of _ _ _ _ f Hi) by done.
    simpl. symmetry. apply Permutation_middle. }
  split; [by rewrite Hperm|]. split.
  - intros x Hx. apply Hk. by rewrite <- Hperm.
  - apply fresh_update; [|done]. intros j f' n u _ Hj. by eapply Hfresh.
Qed.

Lemma owned_release t q (ws : list worker) i w w' f :
  ws !! i = Some w → file_of w = Some f → file_of w' = None →
  pushing w' = pushing w →
  (∀ f n u, w' ≠ AtInsert f n u) →
  owned_at t q ws → owned_at t q (<[i := w']> ws).
Proof.
  intros Hi Hf Hf' Hp Hins (Hn & Hk & Hfresh). unfold owned_at, in_flight in *.
  rewrite (omap_insert_same pushing _ _ _ _ Hi Hp).
  assert (Hperm : q ++ omap file_of ws ++ omap pushing ws
                  ≡ₚ f :: q ++ omap file_of (<[i := w']> ws) ++ omap pushing ws).
  { rewrite (omap_insert_lose file_of _ _ _ w' f Hi) by done.
    simpl. symmetry. apply Permutation_middle. }
  rewrite Hperm in Hn. apply NoDup_cons in Hn as [_ Hn].
  split; [done|]. split.
  - intros x Hx. apply Hk. rewrite Hperm. by right.
  - apply fresh_update.
    + intros j f' n u _ Hj. by eapply Hfresh.
    + intros f' n u Hw'. by eapply Hins in Hw'.
Qed.

Lemma owned_insert t q (ws : list worker) i f n u :
  ws !! i = Some (AtInsert f n u) →
  (∀ j w, j ≠ i → ws !! j = Some w → holds_bs w = false) →
  owned_at t q ws →
  owned_at (map_insert n [] t) q (<[i := AtPushQ f n u]> ws).
Proof.
  intros Hi Hothers (Hn & Hk & Hfresh). unfold owned_at, in_flight in *.
  rewrite (omap_insert_same file_of _ _ _ _ Hi) by done.
  assert (Hperm : q ++ omap file_of ws ++ omap pushing (<[i := AtPushQ f n u]> ws)
                  ≡ₚ n :: q ++ omap file_of ws ++ omap pushing ws).
  { rewrite (omap_insert_gain pushing _ _ _ _ n Hi) by done.
    rewrite <- (Permutation_middle (omap file_of ws)).
    by rewrite <- (Permutation_middle q). }
  pose proof (Hfresh _ _ _ _ Hi) as Hnone.
  split; [|split].
  - rewrite Hperm. apply NoDup_cons. split; [|done].
    intros Hin. apply Hk in Hin. rewrite Hnone in Hin. by destruct Hin.
  - intros x Hx. rewrite Hperm in Hx. apply elem_of_cons in Hx as [->|Hx].
    + apply map_insert_is_Some.
    + destruct (Hk x Hx) as [l Hl]. exists l. by apply map_insert_lookup.
  - apply fresh_update; [|done]. intros j f' n' u' Hne Hj.
    by specialize (Hothers _ _ Hne Hj).
Qed.

Lemma owned_push t q (ws : list worker) i f n u :
  ws !! i = Some (AtPushQ f n u) →
  owned_at t q ws →
  owned_at t (q ++ [n]) (<[i := AtBsSignalNew f u]> ws).
Proof.
  intros Hi (Hn & Hk & Hfresh). unfold owned_at, in_flight in *.
  rewrite (omap_insert_same file_of _ _ _ _ Hi) by done.
  assert (Hperm : (q ++ [n]) ++ omap file_of ws
                     ++ omap pushing (<[i := AtBsSignalNew f u]> ws)
                  ≡ₚ q ++ omap file_of ws ++ omap pushing ws).
  { rewrite (omap_insert_lose pushing _ _ _ (AtBsSignalNew f u) n Hi) by done.
    rewrite <- !app_assoc. simpl. apply Permutation_app_head.
    by rewrite <- (Permutation_middle (omap file_of ws)). }
  split; [by rewrite Hperm|]. split.
  - intros x Hx. apply Hk. by rewrite <- Hperm.
  - apply fresh_update; [|done]. intros j f' n' u' _ Hj. by eapply Hfresh.
Qed.


Lemma getValue_key (t : Table) k : is_Some (t !! k) → (getValue t k).2 = t.
Proof. intros [l Hl]. unfold getValue. by rewrite Hl. Qed.

Lemma push_dep_is_Some file name (t : Table) k :
  is_Some (t !! k) → is_Some (push_dep file name t !! k).
Proof.
  intros Hk. unfold push_dep. destruct (decide (file = k)) as [->|Hne].
  - rewrite lookup_insert_eq. by eexists.
  - by rewrite lookup_insert_ne.
Qed.

Lemma next_buffer_cases file unread :
  (unread = EmptyString ∧ next_buffer file unread = AtWait)
  ∨ (unread ≠ EmptyString
     ∧ file_of (next_buffer file unread) = Some file
     ∧ pushing (next_buffer file unread) = None
     ∧ (∀ f n u, next_buffer file unread ≠ AtInsert f n u)
     ∧ taken (next_buffer file unread) = None).
Proof.
  unfold next_buffer. destruct unread as [|c u]; [by left|]. right.
  split; [done|]. by destruct (parse_include _).
Qed.

Lemma step_owned env argv s s' :
  in_run fs env argv s → step fs s s' → owned s → owned s'.
Proof.
  intros Hrun Hstep Ho.
  pose proof (in_run_guarded_bs fs _ _ _ Hrun) as Hbs.
  destruct (in_run_print_after_join fs _ _ _ Hrun) as (_ & Hjoin & _).
  destruct Hstep as [i s1 s2 Hstep|s1 s2 Hstep|s1 s2 Hstep];
    [| |by apply fault_effect in Hstep as (_ & -> & _)].
  - assert (Hothers : ∀ w, workers s1 !! i = Some w → holds_bs w = true →
              ∀ j wj, j ≠ i → workers s1 !! j = Some wj → holds_bs wj = false).
    { intros w Hw Hh j wj Hne Hj. destruct (holds_bs wj) eqn:Hhj; [|done].
      exfalso. apply Hne. symmetry. by eapply guarded_unique. }
    assert (Hnone : ∀ w, workers s1 !! i = Some w → holds_bs w = true →
              (∀ f n u, w ≠ AtInsert f n u) →
              ∀ j f n u, workers s1 !! j = Some (AtInsert f n u) → False).
    { intros w Hw Hh Hw' j f n u Hj. destruct (decide (j = i)) as [->|Hne].
      - rewrite Hw in Hj. injection Hj as ->. by eapply Hw'.
      - by specialize (Hothers _ Hw Hh _ _ Hne Hj). }
    unfold owned in *.
    worker_cases Hstep w Hw; repeat case_match; simplify_eq; simpl.

    all: try done.
    all: try (by eapply owned_local; [done..|]; done).
    + match goal with H : workQ _ = _ |- _ => by rewrite H end.
    + by eapply owned_pop.
    + rewrite getValue_key.
      * by eapply owned_local.
      * destruct Ho as (_ & Hk & _). apply Hk. unfold in_flight.
        apply elem_of_app. right. apply elem_of_app. left.
        by eapply (omap_lookup file_of).
    + destruct (next_buffer_cases file unread) as [[-> ->]|(Hu & Hf & Hp & Hi & _)].
      * by eapply (owned_release _ _ _ _ (AtGets file EmptyString)).
      * eapply owned_local; [done..| |done]. intros f n u Heq. by apply Hi in Heq.
    + eapply owned_local; [done..|].
      eapply owned_table; [apply push_dep_is_Some| |done].
      intros j f n u Hj. exfalso. by eapply (Hnone (AtPushDep file name unread)).
    + eapply owned_local; [done..| |done]. intros f n u [= _ <- _].
      by apply eq_None_not_Some.
    + eapply owned_insert; [done| |done]. by eapply Hothers.
    + by eapply owned_push.
  - unfold owned in *. main_cases Hstep; simpl; try done.
    eapply owned_table; [| |done].
    + intros k [? Hl]. eexists. by apply flatten_table_lookup.
    + intros i f n u Hi. exfalso.
      by specialize (Hjoin ltac:(done) _ _ Hi).
Qed.


Lemma start_ready env argv n ds files sh :
  start env argv = Ready n ds files sh →
  number_of_threads env = inl n
  ∧ ds = assemble_dirs env (tail argv)
  ∧ files = file_args (tail argv)
  ∧ seed files (mkShared ∅ []) = Returns sh.
Proof.
  unfold start. destruct (number_of_threads env) as [m|e]; [|done].
  destruct (seed _ _) as [sh'|code err] eqn:Hseed; [|done].
  by intros [= <- <- <- <-].
Qed.

Lemma omap_replicate_wait {A} (f : worker → option A) n :
  f AtWait = None → omap f (replicate n AtWait) = [].
Proof.
  intros Hf. unfold omap. induction n as [|n IH]; simpl; [done|].
  by rewrite Hf.
Qed.

Lemma launch_shared env argv n ds files sh :
  start env argv = Ready n ds files sh →
  workQ sh = files
  ∧ dom (theTable sh)
    = list_to_set files ∪ list_to_set (object_name <$> files)
  ∧ Forall legal_file files.
Proof.
  intros (_ & _ & _ & Hseed)%start_ready.
  pose proof (seed_returns_legal _ _ _ Hseed) as Hlegal.
  destruct (seed_effect files (mkShared ∅ []) Hlegal) as (sh' & Hs & Hq & Hd & _).
  rewrite Hseed in Hs. injection Hs as <-. simpl in Hq, Hd.
  split; [done|]. split; [|done]. rewrite Hd. set_solver.
Qed.

Lemma launch_owned env argv :
  NoDup (file_args (tail argv)) → owned (launch env argv).
Proof.
  intros Hnd. unfold owned, launch.
  destruct (start env argv) as [e|code err|n ds files sh] eqn:Hstart; simpl.
  1-2: split; [constructor|]; split; [by intros x ?%elem_of_nil|done].
  destruct (launch_shared _ _ _ _ _ _ Hstart) as (Hq & Hd & _).
  apply start_ready in Hstart as (_ & _ & Hf & _).
  unfold owned_at, in_flight.
  rewrite !omap_replicate_wait, !app_nil_r by done.
  split; [by rewrite Hq, Hf|]. split.
  - intros x Hx. apply elem_of_dom. rewrite Hd, <- Hq. set_solver.
  - by intros i f name u [? _]%lookup_replicate.
Qed.

Lemma in_run_owned env argv s :
  NoDup (file_args (tail argv)) → in_run fs env argv s → owned s.
Proof.
  intros Hnd. unfold in_run. intros Hrun.
  remember (launch env argv) as s0 eqn:Hs0.
  assert (Hgo : in_run fs env argv s0 ∧ owned s0).
  { subst s0. split; [apply rtc_refl|by apply launch_owned]. }
  clear Hs0. revert Hgo.
  induction Hrun as [s|s1 s2 s3 Hstep _ IH]; intros [Hr Ho]; [done|].
  apply IH. split; [by eapply rtc_r|by eapply step_owned].
Qed.

(** X23. When the file arguments are pairwise distinct, no name is held twice:
    the names on the work queue, the files in the hands of the workers and the
    names the workers are about to enqueue are pairwise distinct, and each of
    them has an entry in the table. *)
Theorem names_held_once env argv s :
  NoDup (file_args (tail argv)) → in_run fs env argv s →
  NoDup (workQ (shared s) ++ omap file_of (workers s) ++ omap pushing (workers s))
  ∧ ∀ x, x ∈ workQ (shared s) ++ omap file_of (workers s) ++ omap pushing (workers s) →
         is_Some (theTable (shared s) !! x).
Proof.
  intros Hnd Hrun. destruct (in_run_owned _ _ _ Hnd Hrun) as (Hn & Hk & _).
  by split.
Qed.

(** *** No file is opened twice *)

Lemma started_update (ws : list worker) file i w' :
  (∀ j w, ws !! j = Some w → taken w ≠ Some file ∧ pushing w ≠ Some file) →
  taken w' ≠ Some file → pushing w' ≠ Some file →
  ∀ j w, <[i := w']> ws !! j = Some w →
         taken w ≠ Some file ∧ pushing w ≠ Some file.
Proof.
  intros Hold Ht Hp j w [(-> & <- & _)|[Hne Hj]]%list_lookup_insert_Some; [done|].
  by eapply Hold.
Qed.

Lemma step_started s s' file :
  owned s → step fs s s' → started s file → started s' file.
Proof.
  intros (_ & _ & Hfresh) Hstep (Hkey & Hq & Hws).
  assert (Hkey' : is_Some (theTable (shared s') !! file)).
  { destruct Hkey as [l Hl].
    destruct (step_table_grows fs _ _ _ _ Hstep Hl) as [l' Hl']. by eexists. }
  split; [done|]. clear Hkey'.
  destruct Hstep as [i s1 s2 Hstep|s1 s2 Hstep|s1 s2 Hstep];
    [| |by apply fault_effect in Hstep as (_ & -> & _)].
  - worker_cases Hstep w Hw; repeat case_match; simplify_eq; simpl.
    all: try (split; [done|]; by apply started_update).
    all: try done.
    + split; [|done]. match goal with H : workQ _ = _ |- _ => by rewrite H end.
    + split; [|apply started_update; [done| |done]].
      * by apply not_elem_of_cons in Hq as [_ Hq].
      * apply not_elem_of_cons in Hq as [Hne _]. simpl. congruence.
    + split; [done|]. apply started_update; [done|simpl|done].
      destruct (Hws _ _ Hw) as [Ht _]. done.
    + split; [done|]. apply started_update; [done|simpl|done].
      destruct (Hws _ _ Hw) as [Ht _]. done.
    + split; [done|].
      destruct (next_buffer_cases file0 unread) as [[-> ->]|(_ & _ & Hp & _ & Ht)].
      * by apply started_update.
      * apply started_update; [done| |]; congruence.
    + split; [done|]. apply started_update; [done|done|]. simpl.
      intros [= ->]. destruct Hkey as [l Hl].
      by rewrite (Hfresh _ _ _ _ Hw) in Hl.
    + split; [|by apply started_update].
      destruct (Hws _ _ Hw) as [_ Hp]. simpl in Hp.
      rewrite not_elem_of_app, not_elem_of_cons. split; [done|].
      split; [congruence|apply not_elem_of_nil].
  - main_cases Hstep; simpl; done.
Qed.

Lemma taken_file_of w file : taken w = Some file → file_of w = Some file.
Proof. destruct w; simpl; congruence. Qed.

Lemma open_started s s' i file :
  owned s → workers s !! i = Some (AtOpen file) →
  step_worker fs i s = Some s' → ended s' = None → started s' file.
Proof.
  intros (Hn & Hk & _) Hw Hstep He.
  assert (Hin : file ∈ omap file_of (workers s)) by by eapply (omap_lookup file_of).
  unfold in_flight in *.
  apply NoDup_app in Hn as (_ & Hq & Hn).
  apply NoDup_app in Hn as (Hfiles & Hp & _).
  unfold step_worker in Hstep. destruct (ended s) eqn:Hes; [done|].
  rewrite Hw in Hstep. simpl in Hstep.
  destruct (openFile fs (dirs s) file) as [[path content]|]; simplify_eq;
    simpl in *.
  all: split; [apply Hk; set_solver|].
  all: split; [intros ?; eapply Hq; [done|set_solver]|].
  all: intros j w [(-> & <- & _)|[Hne Hj]]%list_lookup_insert_Some; [done|].
  all: split.
  all: try (intros Ht%taken_file_of; apply Hne; symmetry;
            by eapply (omap_NoDup_lookup file_of)).
  all: intros Hpush; eapply Hp; [done|]; by eapply (omap_lookup pushing).
Qed.

Lemma opened_ended schedule s e :
  ended s = Some e → opened fs schedule s = [].
Proof.
  intros He. destruct schedule as [|[|i] schedule]; simpl; [done| |].
  - unfold step_main. by rewrite He.
  - unfold step_worker. by rewrite He.
Qed.

Lemma opened_once env argv schedule s :
  in_run fs env argv s → (∀ s', in_run fs env argv s' → owned s') →
  NoDup (opened fs schedule s)
  ∧ ∀ file, file ∈ opened fs schedule s → ¬ started s file.
Proof.
  intros Hrun Hall. revert s Hrun.
  induction schedule as [|[|i] schedule IH]; intros s Hrun; simpl.
  - split; [constructor|]. by intros file ?%elem_of_nil.
  - destruct (step_main s) as [s'|] eqn:Hstep.
    2: { split; [constructor|]. by intros file ?%elem_of_nil. }
    assert (Hstep' : step fs s s') by by apply step_of_main.
    destruct (IH s') as [Hn Hs]; [by eapply rtc_r|].
    split; [done|]. intros file Hin Hst. apply (Hs file Hin).
    eapply step_started; [by apply Hall|done..].
  - destruct (step_worker fs i s) as [s'|] eqn:Hstep.
    2: { split; [constructor|]. by intros file ?%elem_of_nil. }
    assert (Hstep' : step fs s s') by by eapply step_of_worker.
    destruct (IH s') as [Hn Hs]; [by eapply rtc_r|].
    assert (Hmono : ∀ file, file ∈ opened fs schedule s' → ¬ started s file).
    { intros file Hin Hst. apply (Hs file Hin).
      eapply step_started; [by apply Hall|done..]. }
    destruct (workers s !! i) as [w|] eqn:Hw; [|done].
    destruct w; try done.
    destruct (ended s') as [e|] eqn:He.
    { rewrite (opened_ended _ _ _ He). split; [apply NoDup_singleton|].
      intros f ->%list_elem_of_singleton (_ & _ & Hws).
      by destruct (Hws _ _ Hw) as [Ht _]. }
    split.
    + apply NoDup_cons. split; [|done]. intros Hin.
      apply (Hs _ Hin). eapply open_started; [by apply Hall|done..].
    + intros f [->|Hin]%elem_of_cons; [|by apply Hmono].
      intros (_ & _ & Hws). by destruct (Hws _ _ Hw) as [Ht _].
Qed.

(** X24. When the file arguments are pairwise distinct, [openFile] is called
    at most once per name along any schedule: no file is scanned twice,
    however often it is included. *)
Theorem each_file_opened_once env argv schedule :
  NoDup (file_args (tail argv)) →
  NoDup (opened fs schedule (launch env argv)).
Proof.
  intros Hnd. eapply opened_once; [apply rtc_refl|].
  intros s' Hs'. by eapply in_run_owned.
Qed.

End OwnershipFacts.

(** ** The table holds what the files include *)

Section ContentsFacts.

Context (fs : FileSystem).

Local Ltac worker_cases H w Hw :=
  unfold step_worker in H;
  match type of H with
  | context [ended ?s] => destruct (ended s) eqn:?; [discriminate H|]
  end;
  match type of H with
  | context [workers ?s !! ?i] =>
      destruct (workers s !! i) as [w|] eqn:Hw; [|discriminate H]
  end;
  destruct w; simplify_option_eq.

Local Ltac main_cases H :=
  unfold step_main in H; repeat case_match; simplify_eq.

Local Arguments matched : simpl never.

(** *** How the names in flight change *)

Lemma in_flight_same q (ws : list worker) i w w' :
  ws !! i = Some w → file_of w' = file_of w → pushing w' = pushing w →
  in_flight q (<[i := w']> ws) = in_flight q ws.
Proof.
  intros Hi Hf Hp. unfold in_flight.
  by rewrite (omap_insert_same file_of _ _ _ _ Hi Hf),
             (omap_insert_same pushing _ _ _ _ Hi Hp).
Qed.

Lemma in_flight_pop f q (ws : list worker) i :
  ws !! i = Some AtPop →
  in_flight q (<[i := AtSignalPopped f]> ws) ≡ₚ in_flight (f :: q) ws.
Proof.
  intros Hi. unfold in_flight.
  rewrite (omap_insert_same pushing _ _ _ _ Hi) by done.
  rewrite (omap_insert_gain file_of _ _ _ _ f Hi) by done.
  simpl. symmetry. apply Permutation_middle.
Qed.

Lemma in_flight_release q (ws : list worker) i w w' f :
  ws !! i = Some w → file_of w = Some f → file_of w' = None →
  pushing w' = pushing w →
  in_flight q ws ≡ₚ f :: in_flight q (<[i := w']> ws).
Proof.
  intros Hi Hf Hf' Hp. unfold in_flight.
  rewrite (omap_insert_same pushing _ _ _ _ Hi Hp).
  rewrite (omap_insert_lose file_of _ _ _ w' f Hi) by done.
  simpl. symmetry. apply Permutation_middle.
Qed.

Lemma in_flight_insert q (ws : list worker) i f n u :
  ws !! i = Some (AtInsert f n u) →
  in_flight q (<[i := AtPushQ f n u]> ws) ≡ₚ n :: in_flight q ws.
Proof.
  intros Hi. unfold in_flight.
  rewrite (omap_insert_same file_of _ _ _ _ Hi) by done.
  rewrite (omap_insert_gain pushing _ _ _ _ n Hi) by done.
  rewrite <- (Permutation_middle (omap file_of ws)).
  by rewrite <- (Permutation_middle q).
Qed.

Lemma in_flight_push q (ws : list worker) i f n u :
  ws !! i = Some (AtPushQ f n u) →
  in_flight (q ++ [n]) (<[i := AtBsSignalNew f u]> ws) ≡ₚ in_flight q ws.
Proof.
  intros Hi. unfold in_flight.
  rewrite (omap_insert_same file_of _ _ _ _ Hi) by done.
  rewrite (omap_insert_lose pushing _ _ _ (AtBsSignalNew f u) n Hi) by done.
  rewrite <- !app_assoc. simpl. apply Permutation_app_head.
  by rewrite <- (Permutation_middle (omap file_of ws)).
Qed.

(** *** What [owned_at] says about one worker's file *)

Lemma owned_file t q (ws : list worker) i w f :
  owned_at t q ws → ws !! i = Some w → file_of w = Some f →
  is_Some (t !! f) ∧ (f ∉ q)
  ∧ (∀ j wj, j ≠ i → ws !! j = Some wj → file_of wj ≠ Some f)
  ∧ (∀ j wj, ws !! j = Some wj → pushing wj ≠ Some f).
Proof.
  intros (Hn & Hk & _) Hi Hf. unfold in_flight in *.
  assert (Hin : f ∈ omap file_of ws) by by eapply (omap_lookup file_of).
  apply NoDup_app in Hn as (_ & Hq & Hn).
  apply NoDup_app in Hn as (Hfiles & Hp & _).
  split; [apply Hk; set_solver|]. split; [intros ?; eapply Hq; [done|set_solver]|].
  split.
  - intros j wj Hne Hj Hfj. apply Hne. by eapply (omap_NoDup_lookup file_of).
  - intros j wj Hj Hpj. eapply Hp; [done|]. by eapply (omap_lookup pushing).
Qed.

Lemma entry_ok_ext ds (t t' : Table) w :
  (∀ g, file_of w = Some g → t' !! g = t !! g) →
  (∀ n, pushing w = Some n → t' !! n = t !! n) →
  entry_ok fs ds t w → entry_ok fs ds t' w.
Proof.
  intros Hf Hp. unfold entry_ok, reading.
  destruct w; simpl in *; try done.
  all: try (rewrite Hf by done; done).
  rewrite Hf, Hp by done. done.
Qed.

Lemma entries_update ds (t : Table) (ws : list worker) i w' :
  (∀ j w, j ≠ i → ws !! j = Some w → entry_ok fs ds t w) →
  entry_ok fs ds t w' →
  ∀ j w, <[i := w']> ws !! j = Some w → entry_ok fs ds t w.
Proof.
  intros Hold Hnew j w [(-> & <- & _)|[Hne Hj]]%list_lookup_insert_Some; [done|].
  by eapply Hold.
Qed.

Lemma finding_update (ws : list worker) i w w' d :
  ws !! i = Some w →
  (∃ j wj, ws !! j = Some wj ∧ finding wj = Some d) →
  (finding w = Some d → finding w' = Some d) →
  ∃ j wj, <[i := w']> ws !! j = Some wj ∧ finding wj = Some d.
Proof.
  intros Hi (j & wj & Hj & Hd) Hkeep. destruct (decide (j = i)) as [->|Hne].
  - exists i, w'. rewrite list_lookup_insert_eq by by eapply lookup_lt_Some.
    split; [done|]. apply Hkeep. congruence.
  - exists j, wj. by rewrite list_lookup_insert_ne.
Qed.

Lemma crawl_local ds objs t q (ws : list worker) i w w' :
  ws !! i = Some w → file_of w' = file_of w → pushing w' = pushing w →
  entry_ok fs ds t w' →
  (∀ d, finding w = Some d → is_Some (t !! d) ∨ finding w' = Some d) →
  crawl_at fs ds objs t q ws → crawl_at fs ds objs t q (<[i := w']> ws).
Proof.
  intros Hi Hf Hp He Hfind (Hq & Hw & Hdone & Hclosed).
  split; [done|]. split; [|split].
  - apply entries_update; [|done]. intros j wj _ Hj. by eapply Hw.
  - rewrite (in_flight_same _ _ _ _ _ Hi Hf Hp). done.
  - intros k l d Hk Hd. destruct (Hclosed k l d Hk Hd) as [?|(j & wj & Hj & Hdj)];
      [by left|].
    destruct (decide (j = i)) as [->|Hne].
    + assert (wj = w) as -> by congruence.
      destruct (Hfind d Hdj) as [?|Hd']; [by left|]. right.
      exists i, w'. by rewrite list_lookup_insert_eq by by eapply lookup_lt_Some.
    + right. exists j, wj. by rewrite list_lookup_insert_ne.
Qed.

Lemma crawl_pop ds objs t f q (ws : list worker) i :
  ws !! i = Some AtPop →
  crawl_at fs ds objs t (f :: q) ws →
  crawl_at fs ds objs t q (<[i := AtSignalPopped f]> ws).
Proof.
  intros Hi (Hq & Hw & Hdone & Hclosed).
  split; [|split; [|split]].
  - intros x Hx. apply Hq. by right.
  - apply entries_update; [|simpl; apply Hq; by left].
    intros j wj _ Hj. by eapply Hw.
  - intros k l Hk Hko Hkf. apply (Hdone k l Hk Hko).
    by rewrite <- (in_flight_pop _ _ _ _ Hi).
  - intros k l d Hk Hd. destruct (Hclosed k l d Hk Hd) as [?|Hex]; [by left|].
    right. eapply finding_update; [done..|]. done.
Qed.


Lemma crawl_push_dep ds objs t q (ws : list worker) i f n u :
  ws !! i = Some (AtPushDep f n u) →
  owned_at t q ws →
  (∀ j w, j ≠ i → ws !! j = Some w → holds_bs w = false) →
  crawl_at fs ds objs t q ws →
  crawl_at fs ds objs (push_dep f n t) q (<[i := AtFind f n u]> ws).
Proof.
  intros Hi Ho Hothers (Hq & Hw & Hdone & Hclosed).
  destruct (owned_file _ _ _ _ _ f Ho Hi) as (Hkey & Hfq & Hfw & Hfp); [done|].
  pose proof (Hw _ _ Hi) as (path & content & l & Hopen & Hl & Hrest).
  assert (Hne : ∀ k, k ≠ f → push_dep f n t !! k = t !! k).
  { intros k Hk. by apply push_dep_lookup_ne. }
  assert (Hf : push_dep f n t !! f = Some (l ++ [n])).
  { unfold push_dep. by rewrite lookup_insert_eq, deps_lookup, Hl. }
  split; [|split; [|split]].
  - intros x Hx. rewrite Hne; [by apply Hq|]. by intros ->.
  - apply entries_update.
    + intros j wj Hj Hwj. eapply entry_ok_ext; [| |by eapply Hw].
      * intros g Hg. apply Hne. intros ->. by eapply Hfw.
      * intros m Hm. apply Hne. intros ->. by eapply Hfp.
    + exists path, content, (l ++ [n]). split; [done|]. split; [done|].
      by rewrite <- app_assoc.
  - intros k l0 Hk Hko Hkf.
    rewrite (in_flight_same _ _ _ (AtPushDep f n u)) in Hkf by done.
    assert (k ≠ f) as Hkne.
    { intros ->. apply Hkf. unfold in_flight.
      apply elem_of_app. right. apply elem_of_app. left.
      by eapply (omap_lookup file_of). }
    rewrite Hne in Hk by done. by eapply Hdone.
  - assert (Hgrow : ∀ d, is_Some (t !! d) → is_Some (push_dep f n t !! d)).
    { intros d. apply push_dep_is_Some. }
    assert (Hold : ∀ k l0 d, t !! k = Some l0 → d ∈ l0 →
                             is_Some (push_dep f n t !! d)).
    { intros k l0 d Hk Hd.
      destruct (Hclosed k l0 d Hk Hd) as [?|(j & wj & Hj & Hdj)]; [by apply Hgrow|].
      exfalso. destruct (decide (j = i)) as [->|Hji].
      - rewrite Hi in Hj. by injection Hj as <-.
      - specialize (Hothers _ _ Hji Hj). by destruct wj. }
    intros k l0 d Hk Hd. destruct (decide (k = f)) as [->|Hkf].
    + rewrite Hf in Hk. injection Hk as <-.
      apply elem_of_app in Hd as [Hd|Hd%list_elem_of_singleton].
      * left. by eapply Hold.
      * subst d. right. exists i, (AtFind f n u).
        by rewrite list_lookup_insert_eq by by eapply lookup_lt_Some.
    + rewrite Hne in Hk by done. left. by eapply Hold.
Qed.

Lemma crawl_insert ds objs t q (ws : list worker) i f n u :
  ws !! i = Some (AtInsert f n u) →
  owned_at t q ws →
  (∀ j w, j ≠ i → ws !! j = Some w → holds_bs w = false) →
  crawl_at fs ds objs t q ws →
  crawl_at fs ds objs (map_insert n [] t) q (<[i := AtPushQ f n u]> ws).
Proof.
  intros Hi Ho Hothers (Hq & Hw & Hdone & Hclosed).
  pose proof Ho as (_ & Hkeys & Hfresh).
  pose proof (Hfresh _ _ _ _ Hi) as Hn.
  assert (Hne : ∀ k, is_Some (t !! k) → map_insert n [] t !! k = t !! k).
  { intros k Hk. apply map_insert_lookup_ne. intros <-.
    rewrite Hn in Hk. by destruct Hk. }
  assert (Hnew : map_insert n [] t !! n = Some []) by by apply map_insert_new.
  assert (Hflight : ∀ x, x ∈ in_flight q ws → map_insert n [] t !! x = t !! x).
  { intros x Hx. by apply Hne, Hkeys. }
  split; [|split; [|split]].
  - intros x Hx. rewrite Hflight; [by apply Hq|].
    unfold in_flight. set_solver.
  - apply entries_update.
    + intros j wj Hj Hwj. eapply entry_ok_ext; [| |by eapply Hw].
      * intros g Hg. apply Hflight. unfold in_flight.
        apply elem_of_app. right. apply elem_of_app. left.
        by eapply (omap_lookup file_of).
      * intros m Hm. apply Hflight. unfold in_flight.
        apply elem_of_app. right. apply elem_of_app. right.
        by eapply (omap_lookup pushing).
    + pose proof (Hw _ _ Hi) as (path & content & l & Hopen & Hl & Hrest).
      split; [|done]. exists path, content, l. split; [done|]. split; [|done].
      rewrite Hne; [done|by eexists].
  - intros k l Hk Hko Hkf.
    rewrite (in_flight_insert _ _ _ _ _ _ Hi) in Hkf.
    apply not_elem_of_cons in Hkf as [Hkn Hkf].
    rewrite map_insert_lookup_ne in Hk by done. by eapply Hdone.
  - intros k l d Hk Hd. left.
    destruct (decide (k = n)) as [->|Hkn].
    { rewrite Hnew in Hk. injection Hk as <-. by apply elem_of_nil in Hd. }
    rewrite map_insert_lookup_ne in Hk by done.
    destruct (Hclosed k l d Hk Hd) as [[l' Hl']|(j & wj & Hj & Hdj)].
    + exists l'. by apply map_insert_lookup.
    + destruct (decide (j = i)) as [->|Hji].
      * rewrite Hi in Hj. injection Hj as <-. injection Hdj as <-. by eexists.
      * specialize (Hothers _ _ Hji Hj). by destruct wj.
Qed.

Lemma crawl_push ds objs t q (ws : list worker) i f n u :
  ws !! i = Some (AtPushQ f n u) →
  crawl_at fs ds objs t q ws →
  crawl_at fs ds objs t (q ++ [n]) (<[i := AtBsSignalNew f u]> ws).
Proof.
  intros Hi (Hq & Hw & Hdone & Hclosed).
  pose proof (Hw _ _ Hi) as [Hread Hn].
  split; [|split; [|split]].
  - intros x [Hx|Hx%list_elem_of_singleton]%elem_of_app; [by apply Hq|by subst].
  - apply entries_update; [|done]. intros j wj _ Hj. by eapply Hw.
  - intros k l Hk Hko Hkf. apply (Hdone k l Hk Hko).
    by rewrite <- (in_flight_push _ _ _ _ _ _ Hi).
  - intros k l d Hk Hd. destruct (Hclosed k l d Hk Hd) as [?|Hex]; [by left|].
    right. eapply finding_update; [done..|]. done.
Qed.

Lemma matched_nil : matched EmptyString = [].
Proof. done. Qed.

Lemma crawl_release ds objs t q (ws : list worker) i f :
  ws !! i = Some (AtGets f EmptyString) →
  owned_at t q ws →
  crawl_at fs ds objs t q ws →
  crawl_at fs ds objs t q (<[i := AtWait]> ws).
Proof.
  intros Hi Ho (Hq & Hw & Hdone & Hclosed).
  pose proof (Hw _ _ Hi) as (path & content & l & Hopen & Hl & Hrest).
  rewrite matched_nil, app_nil_r in Hrest.
  split; [done|]. split; [|split].
  - apply entries_update; [|done]. intros j wj _ Hj. by eapply Hw.
  - intros k l0 Hk Hko Hkf. destruct (decide (k = f)) as [->|Hne].
    + exists path, content. split; [done|]. congruence.
    + apply (Hdone k l0 Hk Hko).
      rewrite (in_flight_release _ _ _ (AtGets f EmptyString) AtWait f) by done.
      by apply not_elem_of_cons.
  - intros k l0 d Hk Hd. destruct (Hclosed k l0 d Hk Hd) as [?|Hex]; [by left|].
    right. eapply finding_update; [done..|]. done.
Qed.

(** *** The buffers still to be read *)

Lemma lines_of_step c u :
  lines_of (String c u)
  = (fgets 4095 (String c u)).1 :: lines_of (fgets 4095 (String c u)).2.
Proof.
  unfold lines_of. cbn [String.length]. rewrite read_lines_cons. f_equal.
  change 4095 with (S 4094). apply read_lines_fuel; [|done].
  apply fgets_shrinks.
Qed.

Lemma matched_step c u :
  matched (String c u)
  = from_option (λ n, [n]) [] (parse_include (fgets 4095 (String c u)).1)
    ++ matched (fgets 4095 (String c u)).2.
Proof.
  unfold matched. rewrite lines_of_step.
  generalize (fgets 4095 (String c u)). intros r. cbn [omap list_omap].
  by destruct (parse_include r.1).
Qed.

Lemma next_buffer_step f c u :
  next_buffer f (String c u)
  = match parse_include (fgets 4095 (String c u)).1 with
    | None => AtGets f (fgets 4095 (String c u)).2
    | Some name => AtBsWait f name (fgets 4095 (String c u)).2
    end.
Proof. reflexivity. Qed.

Lemma next_buffer_entry ds t f u :
  u ≠ EmptyString →
  entry_ok fs ds t (AtGets f u) → entry_ok fs ds t (next_buffer f u).
Proof.
  intros Hu (path & content & l & Hopen & Hl & Hrest).
  destruct u as [|c u]; [done|].
  rewrite matched_step in Hrest. rewrite next_buffer_step.
  revert Hrest. generalize (fgets 4095 (String c u)). intros r Hrest.
  destruct (parse_include r.1) as [name|]; exists path, content, l;
    (split; [exact Hopen|]); (split; [exact Hl|]); exact Hrest.
Qed.


(** *** The printer leaves a closed table as it is *)

Lemma flatten_table_closed (t : Table) root :
  is_Some (t !! root) →
  (∀ k l d, t !! k = Some l → d ∈ l → is_Some (t !! d)) →
  flatten_table t root = t.
Proof.
  intros Hroot Hclosed. apply map_eq. intros k.
  destruct (t !! k) as [l|] eqn:Hk; [by apply flatten_table_lookup|].
  destruct (flatten_table t root !! k) as [l|] eqn:Hf; [|done]. exfalso.
  apply flatten_table_spec in Hf as [Hf|(_ & _ & [->|Hin])]; [congruence| |].
  - rewrite Hk in Hroot. by destruct Hroot.
  - apply flatten_elem in Hin as [_ [n Hreach]].
    assert (Hdom : k ∈ dom t).
    { eapply (closed_reach t root (dom t)); [by apply elem_of_dom| |exact Hreach].
      intros x Hx d Hd. apply elem_of_dom in Hx as [lx Hlx].
      rewrite deps_lookup, Hlx in Hd. apply elem_of_dom. by eapply Hclosed. }
    apply elem_of_dom in Hdom. rewrite Hk in Hdom. by destruct Hdom.
Qed.

Lemma in_run_objects env argv s f :
  in_run fs env argv s → f ∈ targets s →
  is_Some (theTable (shared s) !! object_name f).
Proof.
  intros Hrun Hf. destruct (in_run_frame fs _ _ _ Hrun) as [_ Ht].
  rewrite Ht in Hf.
  assert (Hl : is_Some (theTable (shared (launch env argv)) !! object_name f)).
  { unfold launch in *.
    destruct (start env argv) as [e|code err|n ds files sh] eqn:Hstart;
      simpl in *; try by apply elem_of_nil in Hf.
    destruct (launch_shared _ _ _ _ _ _ Hstart) as (_ & Hd & _).
    apply elem_of_dom. rewrite Hd. apply elem_of_union_r.
    apply elem_of_list_to_set, list_elem_of_fmap. by exists f. }
  destruct Hl as [l Hl].
  destruct (rtc_table_grows fs _ _ _ _ Hrun Hl) as [l' Hl']. by eexists.
Qed.

Lemma step_crawl_ok env argv s s' :
  in_run fs env argv s → owned s → step fs s s' → crawl_ok fs s → crawl_ok fs s'.
Proof.
  intros Hrun Ho Hstep Hc.
  pose proof (in_run_guarded_bs fs _ _ _ Hrun) as Hbs.
  destruct (in_run_print_after_join fs _ _ _ Hrun) as (_ & Hjoin & _).
  pose proof (λ f, in_run_objects _ _ _ f Hrun) as Hobjs.
  destruct Hstep as [i s1 s2 Hstep|s1 s2 Hstep|s1 s2 Hstep];
    [| |by apply fault_effect in Hstep as (_ & -> & _)].
  - assert (Hothers : ∀ w, workers s1 !! i = Some w → holds_bs w = true →
              ∀ j wj, j ≠ i → workers s1 !! j = Some wj → holds_bs wj = false).
    { intros w Hw Hh j wj Hne Hj. destruct (holds_bs wj) eqn:Hhj; [|done].
      exfalso. apply Hne. symmetry. by eapply guarded_unique. }
    unfold crawl_ok, owned in *.
    assert (Hentry : ∀ w, workers s1 !! i = Some w →
              entry_ok fs (dirs s1) (theTable (shared s1)) w).
    { intros w Hw. destruct Hc as (_ & Hws & _). by eapply Hws. }
    worker_cases Hstep w Hw; repeat case_match; simplify_eq; simpl.
    all: try done.
    all: try (by eapply crawl_local; [done..| |done]; intros d [=]).
    + match goal with H : workQ _ = _ |- _ => by rewrite H end.
    + by eapply crawl_pop.
    + eapply crawl_local; [done..|exact (Hentry _ eq_refl)| |done]. by intros d [=].
    + rewrite getValue_key.
      * eapply crawl_local; [done..|exact (Hentry _ eq_refl)| |done].
        by intros d [=].
      * pose proof (Hentry _ eq_refl) as He. simpl in He. by eexists.
    + eapply crawl_local; [done..| | |done]; [|by intros d [=]].
      eexists _, _, []. split; [done|]. split; [|done].
      exact (Hentry _ eq_refl).
    + destruct (next_buffer_cases file unread) as [[-> ->]|(Hu & Hf & Hp & _)].
      * by eapply crawl_release.
      * eapply crawl_local; [done..| | |done]; [|by intros d [=]].
        apply next_buffer_entry; [done|]. exact (Hentry _ eq_refl).
    + eapply crawl_local; [done..|exact (Hentry _ eq_refl)| |done]. by intros d [=].
    + eapply crawl_push_dep; [done|done| |done]. by eapply Hothers.
    + eapply crawl_local; [done..|exact (Hentry _ eq_refl)| |done].
      intros d [= <-]. by left.
    + eapply crawl_local; [done..|exact (Hentry _ eq_refl)| |done].
      intros d [= <-]. by right.
    + eapply crawl_local; [done..|exact (Hentry _ eq_refl)| |done]. by intros d [=].
    + eapply crawl_insert; [done|done| |done]. by eapply Hothers.
    + by eapply crawl_push.
    + eapply crawl_local; [done..|exact (Hentry _ eq_refl)| |done]. by intros d [=].
  - pose proof (in_run_listing fs _ _ _ Hrun) as Hl. unfold listing in Hl.
    unfold crawl_ok in *. main_cases Hstep; simpl; try done.
    destruct Hl as (done & Ht & _).
    rewrite flatten_table_closed; [done| |].
    + apply Hobjs. rewrite Ht. set_solver.
    + destruct Hc as (_ & _ & _ & Hclosed). intros k l0 d Hk Hd.
      destruct (Hclosed k l0 d Hk Hd) as [?|(j & wj & Hj & Hdj)]; [done|].
      rewrite (Hjoin ltac:(congruence) _ _ Hj) in Hdj. done.
Qed.

End ContentsFacts.

(** ** The result does not depend on the schedule *)

Section ResultFacts.

Context (fs : FileSystem).

Local Arguments matched : simpl never.

Lemma map_insert_Some k v (t : Table) n l :
  map_insert k v t !! n = Some l → t !! n = Some l ∨ (n = k ∧ l = v).
Proof.
  unfold map_insert. destruct (t !! k) eqn:Hk; [by left|].
  destruct (decide (k = n)) as [->|Hne].
  - rewrite lookup_insert_eq. intros [= <-]. by right.
  - rewrite lookup_insert_ne by done. by left.
Qed.

Lemma seed_lists files sh0 sh :
  seed files sh0 = Returns sh →
  ∀ k l, theTable sh !! k = Some l →
         theTable sh0 !! k = Some l
         ∨ (l = [] ∧ k ∈ files)
         ∨ ∃ f, f ∈ files ∧ k = object_name f ∧ l = [f].
Proof.
  revert sh0. induction files as [|f files IH]; intros sh0; simpl.
  - intros [= <-] k l Hk. by left.
  - destruct (legal _); [|done]. intros Hseed k l Hk.
    destruct (IH _ Hseed k l Hk) as [Hk1|[[-> Hin]|(g & Hg & -> & ->)]].
    + simpl in Hk1.
      apply map_insert_Some in Hk1 as [Hk1|[-> ->]].
      * apply map_insert_Some in Hk1 as [Hk1|[-> ->]]; [by left|].
        right. right. exists f. split; [by left|done].
      * right. left. split; [done|by left].
    + right. left. split; [done|by right].
    + right. right. exists g. split; [by right|done].
Qed.

Lemma launch_crawl_ok env argv : crawl_ok fs (launch env argv).
Proof.
  unfold crawl_ok, launch.
  destruct (start env argv) as [e|code err|n ds files sh] eqn:Hstart; simpl.
  1-2: split; [by intros x ?%elem_of_nil|]; split; [by intros i w ?|];
       split; by intros k l.
  destruct (launch_shared _ _ _ _ _ _ Hstart) as (Hq & Hd & Hlegal).
  apply start_ready in Hstart as (_ & _ & _ & Hseed).
  pose proof (seed_lists _ _ _ Hseed) as Hlists.
  assert (Hkey : ∀ x, x ∈ files → is_Some (theTable sh !! x)).
  { intros x Hx. apply elem_of_dom. rewrite Hd. set_solver. }
  split; [|split; [|split]].
  - rewrite Hq. intros x Hx. destruct (Hkey x Hx) as [l Hl]. rewrite Hl.
    destruct (Hlists x l Hl) as [H0|[[-> _]|(g & Hg & -> & ->)]]; [done|done|].
    exfalso. rewrite Forall_forall in Hlegal.
    by apply (legal_not_object (object_name g) g (Hlegal _ Hx)).
  - by intros i w [-> _]%lookup_replicate.
  - intros k l Hk Hko Hkf. exfalso. apply elem_of_dom_2 in Hk.
    rewrite Hd in Hk. apply elem_of_union in Hk as [Hk|Hk].
    + apply Hkf. unfold in_flight. rewrite Hq. set_solver.
    + apply Hko. by apply elem_of_list_to_set in Hk.
  - intros k l d Hk Hd'. left.
    destruct (Hlists k l Hk) as [H0|[[-> _]|(g & Hg & -> & ->)]]; [done| |].
    + by apply elem_of_nil in Hd'.
    + apply list_elem_of_singleton in Hd' as ->. by apply Hkey.
Qed.

Lemma in_run_crawl_ok env argv s :
  NoDup (file_args (tail argv)) → in_run fs env argv s → crawl_ok fs s.
Proof.
  intros Hnd. unfold in_run. intros Hrun.
  remember (launch env argv) as s0 eqn:Hs0.
  assert (Hgo : in_run fs env argv s0 ∧ crawl_ok fs s0).
  { subst s0. split; [apply rtc_refl|by apply launch_crawl_ok]. }
  clear Hs0. revert Hgo.
  induction Hrun as [s|s1 s2 s3 Hstep _ IH]; intros [Hr Hc]; [done|].
  apply IH. split; [by eapply rtc_r|].
  eapply step_crawl_ok; [done| |done|done]. by eapply in_run_owned.
Qed.


(** *** The table when the crawl is over *)

Lemma omap_finished {A} (f : worker → option A) (ws : list worker) :
  f Finished = None → (∀ i w, ws !! i = Some w → w = Finished) →
  omap f ws = [].
Proof.
  intros Hf. unfold omap. induction ws as [|w ws IH]; intros Hall; simpl; [done|].
  rewrite (Hall 0 w eq_refl), Hf. apply IH. intros i w' Hi. by apply (Hall (S i)).
Qed.

Lemma launch_ready env argv n ds files sh :
  start env argv = Ready n ds files sh →
  launch env argv
  = mkState files ds sh 1 1 n (replicate (Z.to_nat n) AtWait) MainWaiting [] [] None.
Proof. intros Hstart. unfold launch. by rewrite Hstart. Qed.

Lemma object_untouched env argv n ds files sh s f :
  start env argv = Ready n ds files sh → in_run fs env argv s → f ∈ files →
  theTable (shared s) !! object_name f = theTable sh !! object_name f.
Proof.
  intros Hstart Hrun Hf.
  destruct (launch_shared _ _ _ _ _ _ Hstart) as (Hq & Hd & Hlegal).
  assert (Hkey : is_Some (theTable sh !! object_name f)).
  { apply elem_of_dom. rewrite Hd. apply elem_of_union_r.
    apply elem_of_list_to_set, list_elem_of_fmap. by exists f. }
  destruct Hkey as [l Hl]. rewrite Hl.
  assert (Hu : untouched (object_name f) l (launch env argv)).
  { rewrite (launch_ready _ _ _ _ _ _ Hstart). split; [done|]. simpl. split.
    - rewrite Hq. intros Hin. rewrite Forall_forall in Hlegal.
      by apply (legal_not_object (object_name f) f (Hlegal _ Hin)).
    - by intros i w [-> _]%lookup_replicate. }
  by destruct (in_run_untouched fs _ _ _ _ _ Hu Hrun) as [Hs _].
Qed.

Lemma final_table env argv n ds files sh s :
  start env argv = Ready n ds files sh → (0 < n)%Z → NoDup files →
  in_run fs env argv s → ended s = Some (Exited 0) →
  (∀ k l, theTable (shared s) !! k = Some l →
          l = included fs ds files (theTable sh) k)
  ∧ (∀ k l d, theTable (shared s) !! k = Some l → d ∈ l →
              is_Some (theTable (shared s) !! d))
  ∧ (∀ f, f ∈ files → is_Some (theTable (shared s) !! object_name f)).
Proof.
  intros Hstart Hn Hnd Hrun He.
  pose proof Hstart as (_ & _ & Hfiles & _)%start_ready.
  destruct (success_listing fs _ _ _ Hrun He) as (_ & _ & Hfin).
  pose proof (in_run_frame fs _ _ _ Hrun) as [Hds Hts].
  rewrite (launch_ready _ _ _ _ _ _ Hstart) in Hds, Hts. simpl in Hds, Hts.
  assert (Hq : workQ (shared s) = []).
  { destruct (workQ (shared s)) as [|x q] eqn:Hq; [done|]. exfalso.
    assert (Hst : staffed s).
    { eapply in_run_staffed; [|done].
      rewrite (launch_ready _ _ _ _ _ _ Hstart). simpl.
      destruct (Z.to_nat n) eqn:Hz; [lia|done]. }
    destruct Hst as (i & w & Hw & Hr); [by rewrite Hq|].
    by rewrite (Hfin _ _ Hw) in Hr. }
  assert (Hflight : in_flight (workQ (shared s)) (workers s) = []).
  { unfold in_flight. by rewrite Hq, !omap_finished. }
  assert (Hc : crawl_ok fs s) by (eapply in_run_crawl_ok; [|done]; congruence).
  destruct Hc as (_ & _ & Hdone & Hclosed).
  rewrite Hflight, Hds, Hts in Hdone.
  split; [|split].
  - intros k l Hk. unfold included.
    destruct (decide (k ∈ object_name <$> files)) as [Hko|Hko].
    + apply list_elem_of_fmap in Hko as (f & -> & Hf).
      rewrite (object_untouched _ _ _ _ _ _ _ _ Hstart Hrun Hf) in Hk.
      by rewrite deps_lookup, Hk.
    + destruct (Hdone k l Hk Hko) as (path & content & -> & ->).
      * apply not_elem_of_nil.
      * done.
  - intros k l d Hk Hd.
    destruct (Hclosed k l d Hk Hd) as [?|(j & wj & Hj & Hdj)]; [done|].
    by rewrite (Hfin _ _ Hj) in Hdj.
  - intros f Hf. eapply in_run_objects; [done|]. by rewrite Hts.
Qed.

(** X25. When a run with at least one worker and pairwise distinct file
    arguments ends with status 0, the table is complete: every listed name has
    an entry; the entry of an object name is the one the seeding made; and any
    other name is a file that opens, its entry being the names matched in its
    text, in order. *)
Theorem crawl_records_includes env argv n ds files sh s k l :
  start env argv = Ready n ds files sh → (0 < n)%Z → NoDup files →
  in_run fs env argv s → ended s = Some (Exited 0) →
  theTable (shared s) !! k = Some l →
  (∀ d, d ∈ l → is_Some (theTable (shared s) !! d))
  ∧ ((k ∈ object_name <$> files ∧ theTable sh !! k = Some l)
     ∨ ((k ∉ object_name <$> files)
        ∧ ∃ path content, openFile fs ds k = Some (path, content)
                          ∧ l = matched content)).
Proof.
  intros Hstart Hn Hnd Hrun He Hk.
  destruct (final_table _ _ _ _ _ _ _ Hstart Hn Hnd Hrun He)
    as (Hincl & Hclosed & _).
  split; [intros d Hd; by eapply Hclosed|].
  destruct (decide (k ∈ object_name <$> files)) as [Hko|Hko].
  - left. split; [done|].
    apply list_elem_of_fmap in Hko as (f & -> & Hf).
    by rewrite <- (object_untouched _ _ _ _ _ _ _ _ Hstart Hrun Hf).
  - right. split; [done|].
    pose proof Hstart as (_ & _ & Hfiles & _)%start_ready.
    destruct (success_listing fs _ _ _ Hrun He) as (_ & _ & Hfin).
    pose proof (in_run_frame fs _ _ _ Hrun) as [Hds Hts].
    rewrite (launch_ready _ _ _ _ _ _ Hstart) in Hds, Hts. simpl in Hds, Hts.
    assert (Hc : crawl_ok fs s) by (eapply in_run_crawl_ok; [|done]; congruence).
    destruct Hc as (_ & _ & Hdone & _). rewrite Hds, Hts in Hdone.
    apply (Hdone k l Hk Hko).
    assert (Hq : workQ (shared s) = []).
    { destruct (workQ (shared s)) as [|x q] eqn:Hq; [done|]. exfalso.
      assert (Hst : staffed s).
      { eapply in_run_staffed; [|done].
        rewrite (launch_ready _ _ _ _ _ _ Hstart). simpl.
        destruct (Z.to_nat n) eqn:Hz; [lia|done]. }
      destruct Hst as (i & w & Hw & Hr); [by rewrite Hq|].
      by rewrite (Hfin _ _ Hw) in Hr. }
    unfold in_flight. rewrite Hq, !omap_finished by done. apply not_elem_of_nil.
Qed.


(** *** The output does not depend on the schedule *)

Lemma walk_ext_on (S : gset string) D D' fuel seen q :
  (∀ n, n ∈ S → D n = D' n) →
  (∀ n d, n ∈ S → d ∈ D n → d ∈ S) →
  (∀ n, n ∈ q → n ∈ S) →
  walk D fuel seen q = walk D' fuel seen q.
Proof.
  intros Heq Hclosed. revert seen q.
  induction fuel as [|fuel IH]; intros seen [|n rest] Hq; simpl; try done.
  assert (Hn : n ∈ S) by (apply Hq; by left).
  rewrite <- (Heq n Hn). rewrite IH; [done|].
  intros x [Hx|Hx]%elem_of_app; [apply Hq; by right|].
  apply discover_new in Hx as [Hx _]. by eapply Hclosed.
Qed.

Lemma flatten_ext_on (G : string → list string) (t t' : Table) root :
  (∀ k l d, t !! k = Some l → d ∈ l → is_Some (t !! d)) →
  (∀ k l d, t' !! k = Some l → d ∈ l → is_Some (t' !! d)) →
  (∀ k l, t !! k = Some l → l = G k) →
  (∀ k l, t' !! k = Some l → l = G k) →
  is_Some (t !! root) → is_Some (t' !! root) →
  flatten t root = flatten t' root.
Proof.
  intros Hc Hc' Hg Hg' Hr Hr'.
  assert (Hwalk : ∀ (u : Table) fuel,
            (∀ k l d, u !! k = Some l → d ∈ l → is_Some (u !! d)) →
            (∀ k l, u !! k = Some l → l = G k) → is_Some (u !! root) →
            walk (deps u) fuel {[root]} [root] = walk G fuel {[root]} [root]).
  { intros u fuel Hcu Hgu Hru. apply (walk_ext_on (dom u)).
    - intros n [l Hl]%elem_of_dom. rewrite deps_lookup, Hl. by apply Hgu.
    - intros n d [l Hl]%elem_of_dom Hd. rewrite deps_lookup, Hl in Hd.
      apply elem_of_dom. by eapply Hcu.
    - intros n ->%list_elem_of_singleton. by apply elem_of_dom. }
  destruct (flatten_run t root) as (st1 & _ & Hw1 & _ & Hf1 & _).
  destruct (flatten_run t' root) as (st2 & _ & Hw2 & _ & Hf2 & _).
  rewrite Hwalk in Hw1, Hw2 by done.
  pose proof (walk_fuel_agree _ _ _ _ _ _ _ Hw1 Hw2) as Heq.
  rewrite Hf1, Hf2. congruence.
Qed.

(** X26. With pairwise distinct file arguments, what is printed does not
    depend on the interleaving of the threads: two runs from the same
    environment, arguments and file system that end with status 0 have the
    same output. *)
Theorem output_is_schedule_independent env argv s1 s2 :
  NoDup (file_args (tail argv)) →
  in_run fs env argv s1 → in_run fs env argv s2 →
  ended s1 = Some (Exited 0) → ended s2 = Some (Exited 0) →
  stdout s1 = stdout s2.
Proof.
  intros Hnd Hrun1 Hrun2 He1 He2.
  destruct (start env argv) as [e|code err|n ds files sh] eqn:Hstart.
  - assert (Hl : ended (launch env argv) = Some (Terminated e))
      by (unfold launch; by rewrite Hstart).
    rewrite (launch_ended_fixed fs _ _ _ _ Hl Hrun1).
    by rewrite (launch_ended_fixed fs _ _ _ _ Hl Hrun2).
  - assert (Hl : ended (launch env argv) = Some (Exited (exit_status code)))
      by (unfold launch; by rewrite Hstart).
    rewrite (launch_ended_fixed fs _ _ _ _ Hl Hrun1).
    by rewrite (launch_ended_fixed fs _ _ _ _ Hl Hrun2).
  - destruct (decide (n ≤ 0)%Z) as [Hn|Hn].
    + destruct (no_worker_listing fs _ _ _ _ _ _ _ _ Hstart Hn Hrun1 He1) as [_ ->].
      by destruct (no_worker_listing fs _ _ _ _ _ _ _ _ Hstart Hn Hrun2 He2) as [_ ->].
    + pose proof Hstart as (_ & _ & Hfiles & _)%start_ready.
      rewrite <- Hfiles in Hnd.
      destruct (final_table _ _ _ _ _ _ _ Hstart ltac:(lia) Hnd Hrun1 He1)
        as (Hg1 & Hc1 & Ho1).
      destruct (final_table _ _ _ _ _ _ _ Hstart ltac:(lia) Hnd Hrun2 He2)
        as (Hg2 & Hc2 & Ho2).
      destruct (success_listing fs _ _ _ Hrun1 He1) as (-> & _).
      destruct (success_listing fs _ _ _ Hrun2 He2) as (-> & _).
      destruct (in_run_frame fs _ _ _ Hrun1) as [_ ->].
      destruct (in_run_frame fs _ _ _ Hrun2) as [_ ->].
      rewrite (launch_ready _ _ _ _ _ _ Hstart). simpl.
      apply map_ext_in. intros f Hf%list_elem_of_In. unfold line_of. f_equal.
      eapply (flatten_ext_on (included fs ds files (theTable sh))); auto.
Qed.

End ResultFacts.

(** ** Every run ends *)

Section ProgressFacts.

Context (fs : FileSystem).

Local Arguments matched : simpl never.

Local Ltac worker_cases H w Hw :=
  unfold step_worker in H;
  match type of H with
  | context [ended ?s] => destruct (ended s) eqn:?; [discriminate H|]
  end;
  match type of H with
  | context [workers ?s !! ?i] =>
      destruct (workers s !! i) as [w|] eqn:Hw; [|discriminate H]
  end;
  destruct w; simplify_option_eq.

Local Ltac main_cases H :=
  unfold step_main in H; repeat case_match; simplify_eq.

(** *** Names with entries *)

Lemma keyed_local t q (ws : list worker) i w w' :
  ws !! i = Some w → file_of w' = file_of w → pushing w' = pushing w →
  (∀ f n u, w' = AtInsert f n u → t !! n = None) →
  keyed_at t q ws → keyed_at t q (<[i := w']> ws).
Proof.
  intros Hi Hf Hp Hins (Hk & Hfresh). split.
  - by rewrite (in_flight_same _ _ _ _ _ Hi Hf Hp).
  - apply fresh_update; [|done]. intros j f n u _ Hj. by eapply Hfresh.
Qed.

Lemma keyed_table (t t' : Table) q (ws : list worker) :
  (∀ k, is_Some (t !! k) → is_Some (t' !! k)) →
  (∀ i f n u, ws !! i = Some (AtInsert f n u) → t' !! n = None) →
  keyed_at t q ws → keyed_at t' q ws.
Proof. intros Hkeys Hins (Hk & _). split; [|done]. intros x Hx. by apply Hkeys, Hk. Qed.

Lemma keyed_pop t f q (ws : list worker) i :
  ws !! i = Some AtPop →
  keyed_at t (f :: q) ws → keyed_at t q (<[i := AtSignalPopped f]> ws).
Proof.
  intros Hi (Hk & Hfresh). split.
  - intros x Hx. apply Hk. by rewrite <- (in_flight_pop _ _ _ _ Hi).
  - apply fresh_update; [|done]. intros j f' n u _ Hj. by eapply Hfresh.
Qed.

Lemma keyed_release t q (ws : list worker) i f :
  ws !! i = Some (AtGets f EmptyString) →
  keyed_at t q ws → keyed_at t q (<[i := AtWait]> ws).
Proof.
  intros Hi (Hk & Hfresh). split.
  - intros x Hx. apply Hk.
    rewrite (in_flight_release _ _ _ (AtGets f EmptyString) AtWait f) by done.
    by right.
  - apply fresh_update; [|done]. intros j f' n u _ Hj. by eapply Hfresh.
Qed.

Lemma keyed_insert t q (ws : list worker) i f n u :
  ws !! i = Some (AtInsert f n u) →
  (∀ j w, j ≠ i → ws !! j = Some w → holds_bs w = false) →
  keyed_at t q ws →
  keyed_at (map_insert n [] t) q (<[i := AtPushQ f n u]> ws).
Proof.
  intros Hi Hothers (Hk & Hfresh). split.
  - intros x Hx. rewrite (in_flight_insert _ _ _ _ _ _ Hi) in Hx.
    apply elem_of_cons in Hx as [->|Hx].
    + apply map_insert_is_Some.
    + destruct (Hk x Hx) as [l Hl]. exists l. by apply map_insert_lookup.
  - apply fresh_update; [|done]. intros j f' n' u' Hne Hj.
    by specialize (Hothers _ _ Hne Hj).
Qed.

Lemma keyed_push t q (ws : list worker) i f n u :
  ws !! i = Some (AtPushQ f n u) →
  keyed_at t q ws → keyed_at t (q ++ [n]) (<[i := AtBsSignalNew f u]> ws).
Proof.
  intros Hi (Hk & Hfresh). split.
  - intros x Hx. apply Hk. by rewrite <- (in_flight_push _ _ _ _ _ _ Hi).
  - apply fresh_update; [|done]. intros j f' n' u' _ Hj. by eapply Hfresh.
Qed.

Lemma step_keyed env argv s s' :
  in_run fs env argv s → step fs s s' →
  keyed_at (theTable (shared s)) (workQ (shared s)) (workers s) →
  keyed_at (theTable (shared s')) (workQ (shared s')) (workers s').
Proof.
  intros Hrun Hstep Ho.
  pose proof (in_run_guarded_bs fs _ _ _ Hrun) as Hbs.
  destruct (in_run_print_after_join fs _ _ _ Hrun) as (_ & Hjoin & _).
  destruct Hstep as [i s1 s2 Hstep|s1 s2 Hstep|s1 s2 Hstep];
    [| |by apply fault_effect in Hstep as (_ & -> & _)].
  - assert (Hothers : ∀ w, workers s1 !! i = Some w → holds_bs w = true →
              ∀ j wj, j ≠ i → workers s1 !! j = Some wj → holds_bs wj = false).
    { intros w Hw Hh j wj Hne Hj. destruct (holds_bs wj) eqn:Hhj; [|done].
      exfalso. apply Hne. symmetry. by eapply guarded_unique. }
    assert (Hnone : ∀ w, workers s1 !! i = Some w → holds_bs w = true →
              (∀ f n u, w ≠ AtInsert f n u) →
              ∀ j f n u, workers s1 !! j = Some (AtInsert f n u) → False).
    { intros w Hw Hh Hw' j f n u Hj. destruct (decide (j = i)) as [->|Hne].
      - rewrite Hw in Hj. injection Hj as ->. by eapply Hw'.
      - by specialize (Hothers _ Hw Hh _ _ Hne Hj). }
    worker_cases Hstep w Hw; repeat case_match; simplify_eq; simpl.
    all: try done.
    all: try (by eapply keyed_local; [done..|]; done).
    + match goal with H : workQ _ = _ |- _ => by rewrite H end.
    + by eapply keyed_pop.
    + rewrite getValue_key.
      * by eapply keyed_local.
      * destruct Ho as (Hk & _). apply Hk. unfold in_flight.
        apply elem_of_app. right. apply elem_of_app. left.
        by eapply (omap_lookup file_of).
    + destruct (next_buffer_cases file unread) as [[-> ->]|(Hu & Hf & Hp & Hi & _)].
      * by eapply keyed_release.
      * eapply keyed_local; [done..| |done]. intros f n u Heq. by apply Hi in Heq.
    + eapply keyed_local; [done..|].
      eapply keyed_table; [apply push_dep_is_Some| |done].
      intros j f n u Hj. exfalso. by eapply (Hnone (AtPushDep file name unread)).
    + eapply keyed_local; [done..| |done]. intros f n u [= _ <- _].
      by apply eq_None_not_Some.
    + eapply keyed_insert; [done| |done]. by eapply Hothers.
    + by eapply keyed_push.
  - main_cases Hstep; simpl; try done.
    eapply keyed_table; [| |done].
    + intros k [? Hl]. eexists. by apply flatten_table_lookup.
    + intros i f n u Hi. exfalso. by specialize (Hjoin ltac:(done) _ _ Hi).
Qed.

Lemma launch_keyed env argv :
  keyed_at (theTable (shared (launch env argv))) (workQ (shared (launch env argv)))
    (workers (launch env argv)).
Proof.
  unfold launch.
  destruct (start env argv) as [e|code err|n ds files sh] eqn:Hstart; simpl.
  1-2: split; [by intros x ?%elem_of_nil|done].
  destruct (launch_shared _ _ _ _ _ _ Hstart) as (Hq & Hd & _).
  unfold keyed_at, in_flight.
  rewrite !omap_replicate_wait, !app_nil_r by done. split.
  - intros x Hx. apply elem_of_dom. rewrite Hd, <- Hq. set_solver.
  - by intros i f name u [? _]%lookup_replicate.
Qed.

Lemma in_run_keyed env argv s :
  in_run fs env argv s →
  keyed_at (theTable (shared s)) (workQ (shared s)) (workers s).
Proof.
  unfold in_run. intros Hrun. remember (launch env argv) as s0 eqn:Hs0.
  assert (Hgo : in_run fs env argv s0
                ∧ keyed_at (theTable (shared s0)) (workQ (shared s0)) (workers s0)).
  { subst s0. split; [apply rtc_refl|apply launch_keyed]. }
  clear Hs0. revert Hgo.
  induction Hrun as [s|s1 s2 s3 Hstep _ IH]; intros [Hr Hl]; [done|].
  apply IH. split; [by eapply rtc_r|by eapply step_keyed].
Qed.


(** *** Texts and names of the file system *)

Lemma longest_lookup path content :
  fs !! path = Some content → String.length content ≤ longest fs.
Proof.
  intros Hp. unfold longest. apply max_list_elem_of_le.
  apply list_elem_of_fmap. exists (path, content). split; [done|].
  by apply elem_of_map_to_list.
Qed.

Lemma universe_lookup files path content x :
  fs !! path = Some content → x ∈ matched content → x ∈ universe fs files.
Proof.
  intros Hp Hx. unfold universe. apply elem_of_union_r.
  apply elem_of_union_list. exists (list_to_set (matched content)).
  split; [|by apply elem_of_list_to_set].
  apply list_elem_of_fmap. exists (path, content). split; [done|].
  by apply elem_of_map_to_list.
Qed.

Lemma openFile_lookup ds file path content :
  openFile fs ds file = Some (path, content) → fs !! path = Some content.
Proof.
  induction ds as [|d ds IH]; simpl; [done|].
  destruct (fs !! (d +:+ file)) eqn:Hd; [|done]. by intros [= <- <-].
Qed.

Lemma bounded_weaken files w w' :
  (∀ x, x ∈ upcoming w' → x ∈ upcoming w) →
  String.length (unread_of w') ≤ String.length (unread_of w) →
  bounded fs files w → bounded fs files w'.
Proof.
  intros Hup Hlen [Hu Hl]. split; [|lia]. intros x Hx. by apply Hu, Hup.
Qed.

Lemma bounded_idle files w :
  unread_of w = EmptyString → upcoming w = [] → bounded fs files w.
Proof.
  intros Hu Hup. split; [|rewrite Hu; simpl; lia].
  intros x Hx. rewrite Hup in Hx. by apply elem_of_nil in Hx.
Qed.

Lemma bounded_update files (ws : list worker) i w' :
  (∀ j w, ws !! j = Some w → bounded fs files w) →
  bounded fs files w' →
  ∀ j w, <[i := w']> ws !! j = Some w → bounded fs files w.
Proof.
  intros Hold Hnew j w [(-> & <- & _)|[Hne Hj]]%list_lookup_insert_Some; [done|].
  by eapply Hold.
Qed.

Lemma next_buffer_bounded files f u :
  bounded fs files (AtGets f u) → bounded fs files (next_buffer f u).
Proof.
  intros [Hup Hlen].
  change (∀ x, x ∈ matched u → x ∈ universe fs files) in Hup.
  change (String.length u ≤ longest fs) in Hlen.
  destruct u as [|c u]; [by apply bounded_idle|].
  rewrite matched_step in Hup. rewrite next_buffer_step.
  pose proof (fgets_shrinks 4094 c u) as Hs. cbn [String.length] in Hlen.
  revert Hup Hs. generalize (fgets 4095 (String c u)). intros r Hup Hs.
  destruct (parse_include r.1) as [name|].
  - split.
    + change (upcoming (AtBsWait f name r.2)) with (name :: matched r.2).
      intros x Hx. apply Hup. exact Hx.
    + change (unread_of (AtBsWait f name r.2)) with r.2. lia.
  - split.
    + change (upcoming (AtGets f r.2)) with (matched r.2).
      intros x Hx. apply Hup. exact Hx.
    + change (unread_of (AtGets f r.2)) with r.2. lia.
Qed.

Lemma step_bounded s s' :
  step fs s s' →
  (∀ i w, workers s !! i = Some w → bounded fs (targets s) w) →
  ∀ i w, workers s' !! i = Some w → bounded fs (targets s') w.
Proof.
  intros [i s1 s2 Hstep|s1 s2 Hstep|s1 s2 Hstep] Hb;
    [| |apply fault_effect in Hstep as (_ & -> & _); exact Hb].
  - assert (Hw0 : ∀ w, workers s1 !! i = Some w → bounded fs (targets s1) w)
      by (intros w Hw; by eapply Hb).
    worker_cases Hstep w Hw; repeat case_match; simplify_eq; simpl.
    all: try done.
    all: try (apply bounded_update; [done|]; by apply bounded_idle).
    all: apply bounded_update; [done|].
    + match goal with H : openFile _ _ _ = Some _ |- _ =>
        apply openFile_lookup in H; rename H into Hp end.
      split; [intros x Hx; by eapply universe_lookup|by eapply longest_lookup].
    + apply next_buffer_bounded. by apply Hw0.
    + eapply bounded_weaken; [| |by apply Hw0]; done.
    + eapply bounded_weaken; [| |by apply Hw0]; done.
    + eapply bounded_weaken; [| |by apply Hw0]; [|done].
      intros x Hx. by right.
    + eapply bounded_weaken; [| |by apply Hw0]; done.
    + eapply bounded_weaken; [| |by apply Hw0]; done.
    + eapply bounded_weaken; [| |by apply Hw0]; [|done].
      intros x Hx. by right.
    + eapply bounded_weaken; [| |by apply Hw0]; done.
    + eapply bounded_weaken; [| |by apply Hw0]; done.
  - main_cases Hstep; simpl; done.
Qed.


(** *** Every operation uses up some of the work left *)

Lemma sum_list_insert (g : worker → nat) (ws : list worker) i w w' :
  ws !! i = Some w →
  sum_list (g <$> <[i := w']> ws) + g w = sum_list (g <$> ws) + g w'.
Proof.
  revert i. induction ws as [|x ws IH]; intros [|i] Hi; csimpl in *; try done.
  - injection Hi as ->. lia.
  - specialize (IH i Hi). lia.
Qed.

Lemma size_gain (U D : gset string) n :
  n ∈ U → n ∉ D → size (U ∖ ({[n]} ∪ D)) + 1 = size (U ∖ D).
Proof.
  intros HU HD.
  assert (Heq : U ∖ D = {[n]} ∪ (U ∖ ({[n]} ∪ D))).
  { apply set_eq. intros x. destruct (decide (x = n)); set_solver. }
  assert (Hs : size ({[n]} ∪ (U ∖ ({[n]} ∪ D))) = 1 + size (U ∖ ({[n]} ∪ D))).
  { rewrite size_union by set_solver. by rewrite size_singleton. }
  rewrite <- Heq in Hs. lia.
Qed.

Lemma size_mono (U D D' : gset string) : D ⊆ D' → size (U ∖ D') ≤ size (U ∖ D).
Proof. intros Hsub. apply subseteq_size. set_solver. Qed.

Lemma next_buffer_cost f u :
  worker_cost fs (next_buffer f u) < worker_cost fs (AtGets f u).
Proof.
  change (worker_cost fs (AtGets f u)) with (8 * String.length u + 5).
  destruct u as [|c u]; [simpl; lia|].
  rewrite next_buffer_step.
  pose proof (fgets_shrinks 4094 c u) as Hs. cbn [String.length].
  revert Hs. generalize (fgets 4095 (String c u)). intros r Hs.
  destruct (parse_include r.1) as [name|].
  - change (worker_cost fs (AtBsWait f name r.2)) with (8 * String.length r.2 + 12). lia.
  - change (worker_cost fs (AtGets f r.2)) with (8 * String.length r.2 + 5). lia.
Qed.


Local Arguments worker_cost : simpl never.
Local Arguments file_cost : simpl never.
Local Arguments universe : simpl never.
Local Arguments longest : simpl never.
Local Arguments Nat.mul : simpl never.
Local Arguments Nat.add : simpl never.

Lemma dom_grows (t t' : Table) :
  (∀ k l, t !! k = Some l → is_Some (t' !! k)) → dom t ⊆ dom t'.
Proof.
  intros H k [l Hl]%elem_of_dom. apply elem_of_dom. by eapply H.
Qed.

Lemma step_work_left s s' :
  step fs s s' →
  keyed_at (theTable (shared s)) (workQ (shared s)) (workers s) →
  (∀ i w, workers s !! i = Some w → bounded fs (targets s) w) →
  work_left fs s' < work_left fs s.
Proof.
  intros [i s1 s2 Hstep|s1 s2 Hstep|s1 s2 Hstep] [Hk Hfresh] Hb;
    [| |apply fault_effect in Hstep as (He & -> & _);
        unfold work_left; simpl; rewrite He; lia].
  - assert (Hw0 : ∀ w, workers s1 !! i = Some w → bounded fs (targets s1) w)
      by (intros w Hw; by eapply Hb).
    worker_cases Hstep w Hw; repeat case_match; simplify_eq; unfold work_left; simpl.
    all: match goal with H : ended _ = None |- _ => rewrite ?H end.
    all: try match goal with
         | |- context [<[_ := ?w']> (workers _)] =>
             pose proof (sum_list_insert (worker_cost fs) _ _ _ w' Hw) as Hsum
         end.
    all: try match goal with
         | |- context [<[_ := next_buffer ?f ?u]> _] =>
             pose proof (next_buffer_cost f u) as Hnb;
             set (cost_next := worker_cost fs (next_buffer f u)) in *;
             clearbody cost_next
         end.
    all: repeat match goal with
         | H : context [worker_cost fs ?w] |- _ =>
             let v := eval cbv beta iota delta [worker_cost] in (worker_cost fs w) in
             change (worker_cost fs w) with v in H
         end.
    all: pose proof (eq_refl : file_cost fs = 8 * longest fs + 8) as Hfc.
    all: try lia.
    + match goal with H : workQ _ = _ |- _ => rewrite H end.
      cbn [length]. rewrite Nat.mul_succ_r. lia.
    + pose proof (size_mono (universe fs (targets s1))
                    (dom (theTable (shared s1)))
                    (dom (getValue (theTable (shared s1)) filename).2)) as Hsz.
      apply (Nat.mul_le_mono_l _ _ (file_cost fs)) in Hsz; [lia|].
      apply dom_grows. intros k l Hl. eexists. by apply getValue_lookup.
    + match goal with H : openFile _ _ _ = Some _ |- _ =>
        apply openFile_lookup, longest_lookup in H end.
      lia.
    + pose proof (size_mono (universe fs (targets s1))
                    (dom (theTable (shared s1)))
                    (dom (push_dep file name (theTable (shared s1))))) as Hsz.
      apply (Nat.mul_le_mono_l _ _ (file_cost fs)) in Hsz; [lia|].
      apply dom_grows. intros k l Hl. apply push_dep_is_Some. by eexists.
    + rewrite map_insert_dom.
      pose proof (size_gain (universe fs (targets s1))
                    (dom (theTable (shared s1))) name) as Hsz.
      rewrite <- Hsz.
      * rewrite Nat.mul_add_distr_l, Nat.mul_1_r. lia.
      * destruct (Hw0 _ eq_refl) as [Hup _]. apply Hup. by left.
      * apply not_elem_of_dom. by eapply Hfresh.
    + rewrite length_app. cbn [length].
      rewrite Nat.mul_add_distr_l, Nat.mul_1_r. lia.
  - main_cases Hstep; unfold work_left; simpl.
    all: match goal with H : ended _ = None |- _ => rewrite ?H end.
    all: match goal with H : main_pc _ = _ |- _ => rewrite ?H end.
    all: cbn [main_cost length]; try lia.
    match goal with |- context [flatten_table ?t ?o] =>
      pose proof (size_mono (universe fs (targets s1)) (dom t)
                    (dom (flatten_table t o))) as Hsz end.
    apply (Nat.mul_le_mono_l _ _ (file_cost fs)) in Hsz; [lia|].
    apply dom_grows. intros k l0 Hl. eexists. by apply flatten_table_lookup.
Qed.


Lemma in_run_bounded env argv s :
  in_run fs env argv s →
  ∀ i w, workers s !! i = Some w → bounded fs (targets s) w.
Proof.
  unfold in_run. intros Hrun.
  eapply (rtc_ind_r (λ s, ∀ i w, workers s !! i = Some w →
                                 bounded fs (targets s) w)); [| |exact Hrun].
  - destruct (launch_workers env argv) as [n ->].
    intros i w [-> _]%lookup_replicate. by apply bounded_idle.
  - intros s1 s2 _ Hstep Hb. by apply (step_bounded _ _ Hstep).
Qed.

Lemma in_run_step_work_left env argv s s' :
  in_run fs env argv s → step fs s s' → work_left fs s' < work_left fs s.
Proof.
  intros Hrun Hstep. apply step_work_left; [done| |].
  - by eapply in_run_keyed.
  - by eapply in_run_bounded.
Qed.

(** X27. Every step uses up at least one unit of [work_left]: a run of [k]
    steps from the launch has [k] at most the [work_left] of the launch, a
    number fixed by the file system and the arguments, so no run goes on for
    ever. *)
Theorem every_run_is_bounded env argv k s :
  nsteps (step fs) k (launch env argv) s →
  k + work_left fs s ≤ work_left fs (launch env argv).
Proof.
  revert s. induction k as [|k IH]; intros s Hk.
  - inversion Hk; subst. lia.
  - apply nsteps_inv_r in Hk as (s1 & Hk & Hstep).
    specialize (IH _ Hk).
    assert (Hrun : in_run fs env argv s1) by by eapply rtc_nsteps_2.
    pose proof (in_run_step_work_left _ _ _ _ Hrun Hstep). lia.
Qed.

(** X28. From every state of a run the program can be brought to its end: some
    sequence of steps leads to a state in which the process has ended, [main]
    having returned, [exit] having run to its end, or an exception or a signal
    having stopped it. *)
Theorem every_run_can_finish env argv s :
  in_run fs env argv s → ∃ s', rtc (step fs) s s' ∧ is_Some (ended s').
Proof.
  remember (work_left fs s) as m eqn:Hm. revert s Hm.
  induction (lt_wf m) as [m _ IH]. intros s -> Hrun.
  destruct (ended s) as [e|] eqn:He.
  - exists s. split; [apply rtc_refl|]. rewrite He. by eexists.
  - destruct (can_step fs _ _ _ Hrun He) as [s1 Hstep].
    pose proof (in_run_step_work_left _ _ _ _ Hrun Hstep) as Hlt.
    destruct (IH _ Hlt s1 eq_refl) as (s' & Hs' & He'); [by eapply rtc_r|].
    exists s'. split; [by eapply rtc_l|done].
Qed.

End ProgressFacts.

(** ** A file that cannot be opened *)

Section FatalOpen.

Context (fs : FileSystem).

Lemma failing_busy s :
  staffed s → doomed fs s ∨ exiting s →
  ∃ i w, workers s !! i = Some w ∧ is_finished w = false.
Proof.
  intros Hst [Hd|(i & w & Hi & Hw)]; [by eapply doomed_busy|].
  exists i, w. split; [done|]. by destruct w.
Qed.

(** From a state in which an unopenable file waits to be opened: the
    process runs with such a file waiting or with a worker inside [exit],
    or it has been ended by that [exit] or by a signal. *)
Lemma failing_run env argv s s' :
  workers (launch env argv) ≠ [] → in_run fs env argv s →
  ended s = None → doomed fs s → rtc (step fs) s s' →
  in_run fs env argv s'
  ∧ ((ended s' = None ∧ (doomed fs s' ∨ exiting s'))
     ∨ ∃ e, ended s' = Some e ∧ (e = Exited 255 ∨ e = Killed) ∧ exiting s').
Proof.
  intros Hpool Hrun Hended Hdoom Hlater. revert s' Hlater. apply rtc_ind_r.
  - split; [done|]. left. by auto.
  - intros s1 s2 H1 Hstep [Hrun1 Hcase].
    assert (Hrun2 : in_run fs env argv s2) by by eapply rtc_r.
    split; [done|].
    destruct Hcase as [[He1 Hfail]|(e & He1 & _)];
      [|exfalso; by eapply ended_no_step].
    pose proof (in_run_staffed fs env argv s1 Hpool Hrun1) as Hst.
    pose proof (in_run_print_after_join fs env argv s1 Hrun1) as Hpj.
    destruct (in_run_safe fs env argv s1 Hrun1) as (_ & Hps & _).
    assert (Hnext : (ended s2 = None ∧ doomed fs s2) ∨ exiting s2).
    { destruct Hfail as [Hd|Hex].
      - by eapply step_doomed.
      - right. by eapply step_exiting. }
    destruct (ended s2) as [e|] eqn:He2.
    + right. exists e. split; [done|]. split.
      * eapply step_ending; [done..|by apply failing_busy|done].
      * by destruct Hnext as [[? _]|?].
    + left. split; [done|]. destruct Hnext as [[_ ?]|?]; by auto.
Qed.

(** C7 (as amended).  In a run whose pool has at least one worker, take a
    moment at which a file that opens under no directory of [dirs] is on
    the work queue or in the hands of a worker that has popped it.  Then
    the run fails, though not at once.  Every continuation is finite, its
    length bounded by the work left at that moment, and none gets stuck
    before the process has ended.  The process ends with the status 255 of
    [exit(-1)], or is killed by a signal while [exit] tears the globals
    down under the workers still running; it never returns 0.  Nothing is
    ever written to standard output.  When the process has ended, standard
    error holds at least one line, and at every moment each of its lines
    is [Error opening <g>] for a file [g] that opens under no directory:
    the workers go on while [exit] runs, so the file reported first need
    not be the one taken first, and several such lines can appear. *)
Theorem unopenable_file_is_fatal (env : Env) (argv : list string)
    (s : state) (file : string) :
  workers (launch env argv) ≠ [] →
  in_run fs env argv s →
  ended s = None →
  openFile fs (dirs s) file = None →
  awaited s file →
  (∀ s', rtc (step fs) s s' →
     stdout s' = []
     ∧ Forall (λ line, ∃ g, openFile fs (dirs s) g = None
                            ∧ line = "Error opening " +:+ g +:+ endl)
         (stderr s')
     ∧ (∀ e, ended s' = Some e →
             (e = Exited 255 ∨ e = Killed) ∧ stderr s' ≠ [])
     ∧ (ended s' = None → ∃ s'', step fs s' s''))
  ∧ (∀ k s', nsteps (step fs) k s s' → k + work_left fs s' ≤ work_left fs s).
Proof.
  intros Hpool Hrun Hended Hfile Haw.
  assert (Hdoom : doomed fs s) by by exists file.
  split.
  - intros s' Hlater.
    destruct (failing_run env argv s s' Hpool Hrun Hended Hdoom Hlater)
      as [Hrun' Hcase].
    pose proof (in_run_staffed fs env argv s' Hpool Hrun') as Hst.
    pose proof (in_run_print_after_join fs env argv s' Hrun') as Hpj.
    assert (Hfail : doomed fs s' ∨ exiting s').
    { destruct Hcase as [[_ ?]|(e & _ & _ & ?)]; by auto. }
    destruct (failing_busy s' Hst Hfail) as (b & wb & Hb & Hbusy).
    destruct (busy_no_output s' b wb Hpj Hb Hbusy) as [_ Hout].
    split; [done|]. split; [|split].
    + pose proof (in_run_reports fs env argv s' Hpool Hrun') as Hrep.
      unfold reports_unopenable in Hrep.
      destruct (in_run_frame fs env argv s Hrun) as [-> _].
      by destruct (in_run_frame fs env argv s' Hrun') as [<- _].
    + intros e He.
      destruct Hcase as [[He' _]|(e' & He' & Hstatus & Hex)]; [congruence|].
      assert (e' = e) as -> by congruence. split; [done|].
      by eapply in_run_exit_reported.
    + intros He. by eapply can_step.
  - intros k. induction k as [|k IH]; intros s' Hk.
    + inversion Hk; subst. lia.
    + apply nsteps_inv_r in Hk as (s1 & Hk & Hstep).
      specialize (IH _ Hk).
      assert (Hrun1 : in_run fs env argv s1).
      { unfold in_run. etrans; [exact Hrun|]. by eapply rtc_nsteps_2. }
      pose proof (in_run_step_work_left fs _ _ _ _ Hrun1 Hstep). lia.
Qed.

End FatalOpen.

(** ** Instances *)

Lemma short_ignored_line_contributes_nothing_witness :
  let before := include_line "a.h" in
  let line := "#include <stdio.h>" +:+ endl in
  let after := include_line "b.h" in
  let fs : FileSystem := {[ "./foo.c" := before +:+ line +:+ after ]} in
  let fs' : FileSystem := {[ "./foo.c" := before +:+ after ]} in
  let sh := mkShared {[ "foo.c" := [] ]} [] in
  ignored (c_str line)
  ∧ lines_of (before +:+ line +:+ after) = [before; line; after]
  ∧ process fs ["./"] "foo.c" sh = process fs' ["./"] "foo.c" sh.
Proof.
  intros before line after fs fs' sh.
  assert (Hi : ignored (c_str line)).
  { apply (ignored_system _ EmptyString " " ("<stdio.h>" +:+ endl)).
    - reflexivity.
    - exact I.
    - split; [reflexivity|exact I].
    - reflexivity.
    - discriminate. }
  split; [exact Hi|].
  destruct (short_ignored_line_contributes_nothing fs fs' ["./"] "foo.c" sh
              "./foo.c" "./foo.c" before line after) as (Hlines & _ & Hsame).
  - right. reflexivity.
  - discriminate.
  - intros pre post Heq. by apply (fgets_newline_last 100 line pre post).
  - right. reflexivity.
  - vm_compute. lia.
  - exact Hi.
  - reflexivity.
  - reflexivity.
  - split; [|exact Hsame]. rewrite Hlines. vm_compute. reflexivity.
Defined.

(** C4 (counterexample).  One input line: 4095 characters [x] and then
    [#include "a.h"].  It does not begin with [#include], yet the scan
    appends [a.h] to the list of the file, gives it an entry and enqueues
    it: [fgets] cuts the line after 4095 characters and the rest is
    matched as if it were a line. *)
Lemma long_line_is_matched :
  let line := string_of_list_ascii (repeat "x"%char 4095) +:+ include_line "a.h" in
  let fs : FileSystem := {[ "./foo.c" := line ]} in
  let sh := mkShared {[ "foo.c" := [] ]} [] in
  text_lines line = [line]
  ∧ ignored (c_str line)
  ∧ ∃ sh', process fs ["./"] "foo.c" sh = Returns sh'
           ∧ theTable sh' !! "foo.c" = Some ["a.h"]
           ∧ theTable sh' !! "a.h" = Some []
           ∧ workQ sh' = ["a.h"].
Proof.
  intros line fs sh. split; [vm_compute; reflexivity|]. split.
  - apply (ignored_other _ EmptyString (c_str line)).
    + reflexivity.
    + exact I.
    + vm_compute. reflexivity.
    + vm_compute. reflexivity.
  - eexists. split; [vm_compute; reflexivity|]. split; [|split]; reflexivity.
Qed.

Lemma unopenable_file_is_fatal_witness :
  let argv := ["dependencyDiscoverer"; "a.c"; "b.c"] in
  let schedule := replicate 6 (Worker 0) ++ replicate 7 (Worker 1) in
  awaited (launch ∅ argv) "b.c"
  ∧ ∃ s', run ∅ schedule (launch ∅ argv) = Some s'
          ∧ stdout s' = []
          ∧ stderr s' = ["Error opening a.c" +:+ endl;
                         "Error opening b.c" +:+ endl]
          ∧ ended s' = Some (Exited 255).
Proof.
  intros argv schedule.
  assert (Haw : awaited (launch ∅ argv) "b.c").
  { left. apply list_elem_of_further, list_elem_of_here. }
  split; [exact Haw|].
  destruct (run ∅ schedule (launch ∅ argv)) as [s'|] eqn:Hrun;
    [|by vm_compute in Hrun].
  exists s'. split; [reflexivity|].
  pose proof (run_in_run ∅ ∅ argv _ s' Hrun) as Hin.
  destruct (unopenable_file_is_fatal ∅ ∅ argv (launch ∅ argv) "b.c")
    as [Hall _].
  - discriminate.
  - apply rtc_refl.
  - reflexivity.
  - reflexivity.
  - exact Haw.
  - destruct (Hall s' Hin) as (Hout & _). split; [exact Hout|].
    vm_compute in Hrun. injection Hrun as <-. split; reflexivity.
Defined.

(** [exit] does not stop the other workers at once.  With [a.c] and [b.c]
    both missing, one worker has written its message and is inside [exit]
    while the other still waits for [threadlock]: the process runs on, and
    it can be killed there. *)
Example exit_is_not_atomic :
  let argv := ["dependencyDiscoverer"; "a.c"; "b.c"] in
  ∃ s, run ∅ (replicate 6 (Worker 0)) (launch ∅ argv) = Some s
       ∧ workers s = [AtExit "a.c"; AtWait]
       ∧ stderr s = ["Error opening a.c" +:+ endl]
       ∧ ended s = None
       ∧ is_Some (step_worker ∅ 1 s)
       ∧ step ∅ s (set_ended Killed s).
Proof.
  eexists. split; [vm_compute; reflexivity|].
  split; [reflexivity|]. split; [reflexivity|]. split; [reflexivity|].
  split; [by eexists|]. by apply step_of_fault.
Qed.

Lemma name_fits_buffer_witness :
  include_line "inc1.h" ∈ lines_of (include_line "inc1.h")
  ∧ parse_include (include_line "inc1.h") = Some "inc1.h"
  ∧ String.length "inc1.h" ≤ 4086.
Proof.
  assert (Hin : include_line "inc1.h" ∈ lines_of (include_line "inc1.h")).
  { vm_compute. apply list_elem_of_here. }
  split; [exact Hin|]. split; [reflexivity|].
  apply (name_fits_buffer (include_line "inc1.h") (include_line "inc1.h") "inc1.h" Hin).
  reflexivity.
Defined.

Lemma long_line_is_cut_witness :
  let pre := string_of_list_ascii (repeat "x"%char 4095) in
  String.length pre = 4095
  ∧ occurs newline pre = false
  ∧ omap parse_include (lines_of (pre +:+ include_line "a.h")) = ["a.h"].
Proof.
  intros pre.
  assert (Hlen : String.length pre = 4095) by (vm_compute; reflexivity).
  assert (Hnl : occurs newline pre = false) by (vm_compute; reflexivity).
  split; [exact Hlen|]. split; [exact Hnl|].
  rewrite (long_line_is_cut pre (include_line "a.h") Hlen Hnl).
  vm_compute. reflexivity.
Defined.

Lemma process_effect_witness :
  let fs : FileSystem :=
    {[ "./foo.c" := include_line "inc1.h" +:+ include_line "inc1.h" ]} in
  let sh := mkShared {[ "foo.c" := [] ]} [] in
  ∃ sh', process fs ["./"] "foo.c" sh = Returns sh'
         ∧ workQ sh' = ["inc1.h"]
         ∧ deps (theTable sh') "foo.c" = ["inc1.h"; "inc1.h"].
Proof.
  intros fs sh.
  pose proof (process_effect fs ["./"] "foo.c" sh "./foo.c"
                (include_line "inc1.h" +:+ include_line "inc1.h") eq_refl)
    as (sh' & Hp & H).
  cbn zeta in H. destruct H as (Hq & _ & Hd & _).
  exists sh'. split; [exact Hp|]. split.
  - rewrite Hq. vm_compute. reflexivity.
  - rewrite Hd. vm_compute. reflexivity.
Defined.

Lemma dirName_ends_with_slash_witness :
  dirName "include" = "include/"
  ∧ dirName "include/" = "include/"
  ∧ (dirName "include" = "include" ↔ back "include" = "/"%char)
  ∧ back (dirName "include") = "/"%char.
Proof.
  destruct (dirName_ends_with_slash "include") as (_ & Hiff & Hback & _);
    [discriminate|].
  split; [reflexivity|]. split; [reflexivity|]. split; [exact Hiff|exact Hback].
Defined.

Lemma seed_enqueues_in_order_witness :
  ∃ sh', seed ["foo.c"; "bar.y"] (mkShared ∅ []) = Returns sh'
         ∧ workQ sh' = ["foo.c"; "bar.y"].
Proof.
  assert (Hl : Forall legal_file ["foo.c"; "bar.y"]).
  { repeat constructor. }
  destruct (seed_enqueues_in_order ["foo.c"; "bar.y"] (mkShared ∅ []) Hl)
    as (sh' & Hs & Hq & _).
  exists sh'. split; [exact Hs|exact Hq].
Defined.

Lemma bs_is_a_lock_witness :
  let fs : FileSystem := {[ "./foo.c" := include_line "inc1.h" ]} in
  let argv := ["dependencyDiscoverer"; "foo.c"] in
  guarded holds_bs (bs (drive fs 20 (launch ∅ argv)))
    (workers (drive fs 20 (launch ∅ argv))).
Proof.
  intros fs argv. apply (bs_is_a_lock fs ∅ argv).
  apply drive_in_run. apply rtc_refl.
Defined.

Lemma signal_never_blocks_witness :
  let fs : FileSystem := {[ "./foo.c" := include_line "inc1.h" ]} in
  let argv := ["dependencyDiscoverer"; "foo.c"] in
  ∃ s, run fs [Worker 0; Worker 0; Worker 0] (launch ∅ argv) = Some s
       ∧ workers s !! 0 = Some (AtSignalPopped "foo.c")
       ∧ is_Some (step_worker fs 0 s).
Proof.
  intros fs argv.
  destruct (run fs [Worker 0; Worker 0; Worker 0] (launch ∅ argv)) as [s|] eqn:Hrun;
    [|by vm_compute in Hrun].
  exists s. split; [reflexivity|].
  pose proof (run_in_run fs ∅ argv _ s Hrun) as Hin.
  vm_compute in Hrun. injection Hrun as <-.
  split; [reflexivity|].
  apply (signal_never_blocks fs ∅ argv _ 0 (AtSignalPopped "foo.c") Hin);
    reflexivity.
Defined.

Lemma table_only_grows_witness :
  let fs : FileSystem := {[ "./foo.c" := include_line "inc1.h" ]} in
  let argv := ["dependencyDiscoverer"; "foo.c"] in
  theTable (shared (launch ∅ argv)) !! "foo.o" = Some ["foo.c"]
  ∧ ∃ l', theTable (shared (drive fs 20 (launch ∅ argv))) !! "foo.o"
          = Some (["foo.c"] ++ l').
Proof.
  intros fs argv. split; [reflexivity|].
  apply (table_only_grows fs (launch ∅ argv)); [|reflexivity].
  apply (drive_in_run fs ∅ argv). apply rtc_refl.
Defined.


Lemma failure_prints_nothing_witness :
  let argv := ["dependencyDiscoverer"; "foo.c"] in
  let s := drive ∅ 10 (launch ∅ argv) in
  ended s = Some (Exited 255)
  ∧ stderr s = ["Error opening foo.c" +:+ endl]
  ∧ stdout s = [].
Proof.
  intros argv s.
  assert (He : ended s = Some (Exited 255)) by (vm_compute; reflexivity).
  split; [exact He|]. split; [vm_compute; reflexivity|].
  destruct (failure_prints_nothing ∅ ∅ argv s) as [_ Hfail].
  - apply drive_in_run. apply rtc_refl.
  - apply (Hfail (Exited 255) He). discriminate.
Defined.

Lemma no_worker_no_scan_witness :
  let env : Env := {[ "CRAWLER_THREADS" := "0" ]} in
  let argv := ["dependencyDiscoverer"; "missing.c"] in
  let s := drive ∅ 10 (launch env argv) in
  ended s = Some (Exited 0)
  ∧ stdout s = map (line_of (theTable (seed_of (start env argv)))) ["missing.c"].
Proof.
  intros env argv s.
  assert (He : ended s = Some (Exited 0)) by (vm_compute; reflexivity).
  split; [exact He|].
  destruct (no_worker_no_scan ∅ env argv 0 ["./"] ["missing.c"]
              (seed_of (start env argv)) s (Exited 0)) as [_ Hout];
    [vm_compute; reflexivity|lia| |exact He|exact Hout].
  apply drive_in_run. apply rtc_refl.
Defined.

Lemma deadlock_free_witness :
  let fs : FileSystem := {[ "./foo.c" := include_line "inc1.h" ]} in
  let s := drive fs 12 (launch ∅ ["dependencyDiscoverer"; "foo.c"]) in
  ended s = None ∧ ∃ s', step fs s s'.
Proof.
  intros fs s.
  assert (He : ended s = None) by (vm_compute; reflexivity).
  split; [exact He|].
  apply (deadlock_free fs ∅ ["dependencyDiscoverer"; "foo.c"]); [|exact He].
  apply drive_in_run. apply rtc_refl.
Defined.

Lemma each_file_opened_once_witness :
  let fs : FileSystem :=
    {[ "./foo.c" := include_line "inc1.h" +:+ include_line "inc1.h";
       "./inc1.h" := include_line "foo.c" ]} in
  let argv := ["dependencyDiscoverer"; "foo.c"] in
  let schedule := replicate 80 (Worker 0) in
  NoDup (file_args (tail argv)) ∧ NoDup (opened fs schedule (launch ∅ argv)).
Proof.
  intros fs argv schedule.
  assert (Hnd : NoDup (file_args (tail argv))) by apply NoDup_singleton.
  split; [exact Hnd|]. by apply each_file_opened_once.
Defined.

Lemma names_held_once_witness :
  let fs : FileSystem := {[ "./foo.c" := include_line "inc1.h" ]} in
  let argv := ["dependencyDiscoverer"; "foo.c"] in
  let s := drive fs 12 (launch ∅ argv) in
  NoDup (workQ (shared s) ++ omap file_of (workers s) ++ omap pushing (workers s)).
Proof.
  intros fs argv s.
  destruct (names_held_once fs ∅ argv s) as [Hn _]; [apply NoDup_singleton| |exact Hn].
  apply drive_in_run. apply rtc_refl.
Defined.

Lemma crawl_records_includes_witness :
  let fs : FileSystem :=
    {[ "./foo.c" := include_line "inc1.h";
       "./inc1.h" := include_line "inc2.h" +:+ include_line "inc3.h";
       "./inc2.h" := EmptyString;
       "./inc3.h" := EmptyString ]} in
  let argv := ["dependencyDiscoverer"; "foo.c"] in
  let s := drive fs 200 (launch ∅ argv) in
  ended s = Some (Exited 0)
  ∧ theTable (shared s) !! "inc1.h" = Some ["inc2.h"; "inc3.h"]
  ∧ ∀ d, d ∈ ["inc2.h"; "inc3.h"] → is_Some (theTable (shared s) !! d).
Proof.
  intros fs argv s.
  assert (He : ended s = Some (Exited 0)) by (vm_compute; reflexivity).
  assert (Hk : theTable (shared s) !! "inc1.h" = Some ["inc2.h"; "inc3.h"])
    by (vm_compute; reflexivity).
  split; [exact He|]. split; [exact Hk|].
  destruct (crawl_records_includes fs ∅ argv 2 ["./"] ["foo.c"]
              (seed_of (start ∅ argv)) s "inc1.h" ["inc2.h"; "inc3.h"])
    as [Hclosed _]; [vm_compute; reflexivity|lia|apply NoDup_singleton|
                     |exact He|exact Hk|exact Hclosed].
  apply drive_in_run. apply rtc_refl.
Defined.

Lemma output_is_schedule_independent_witness :
  let fs : FileSystem :=
    {[ "./foo.c" := include_line "inc1.h";
       "./inc1.h" := include_line "inc2.h" +:+ include_line "inc3.h";
       "./inc2.h" := EmptyString;
       "./inc3.h" := EmptyString ]} in
  let argv := ["dependencyDiscoverer"; "foo.c"] in
  let schedule :=
    replicate 53 (Worker 1) ++ replicate 4 (Worker 0) ++ [Main; Main; Main] in
  ∃ s2, run fs schedule (launch ∅ argv) = Some s2
        ∧ ended s2 = Some (Exited 0)
        ∧ stdout (drive fs 200 (launch ∅ argv)) = stdout s2.
Proof.
  intros fs argv schedule.
  destruct (run fs schedule (launch ∅ argv)) as [s2|] eqn:Hrun;
    [|by vm_compute in Hrun].
  exists s2. split; [reflexivity|].
  pose proof (run_in_run fs ∅ argv _ s2 Hrun) as Hin.
  assert (He : ended s2 = Some (Exited 0)).
  { vm_compute in Hrun. injection Hrun as <-. reflexivity. }
  split; [exact He|].
  apply (output_is_schedule_independent fs ∅ argv);
    [apply NoDup_singleton| |exact Hin|vm_compute; reflexivity|exact He].
  apply drive_in_run. apply rtc_refl.
Defined.

Lemma every_run_is_bounded_witness :
  let fs : FileSystem := {[ "./foo.c" := include_line "inc1.h" ]} in
  let argv := ["dependencyDiscoverer"; "foo.c"] in
  ∃ s, step_worker fs 0 (launch ∅ argv) = Some s
       ∧ 1 + work_left fs s ≤ work_left fs (launch ∅ argv).
Proof.
  intros fs argv.
  destruct (step_worker fs 0 (launch ∅ argv)) as [s|] eqn:Hstep;
    [|by vm_compute in Hstep].
  exists s. split; [reflexivity|].
  apply (every_run_is_bounded fs ∅ argv 1 s).
  apply nsteps_once. by eapply step_of_worker.
Defined.

Lemma every_run_can_finish_witness :
  let fs : FileSystem := {[ "./foo.c" := include_line "inc1.h" ]} in
  let argv := ["dependencyDiscoverer"; "foo.c"] in
  ∃ s', rtc (step fs) (launch ∅ argv) s' ∧ is_Some (ended s').
Proof.
  intros fs argv. apply (every_run_can_finish fs ∅ argv). apply rtc_refl.
Defined.

Lemma lone_worker_runs_process_witness :
  let fs : FileSystem :=
    {[ "./foo.c" := include_line "inc1.h" +:+ include_line "inc2.h" ]} in
  let argv := ["dependencyDiscoverer"; "foo.c"] in
  ∃ s sh', run fs (replicate 4 (Worker 0)) (launch ∅ argv) = Some s
           ∧ workers s !! 0 = Some (AtGetValue "foo.c")
           ∧ scan_alone fs (dirs s) "foo.c" (shared s) = Returns sh'
           ∧ workQ sh' = ["inc1.h"; "inc2.h"]
           ∧ ∃ k, run fs (replicate k (Worker 0)) s
                  = Some (with_worker 0 AtWait sh' 1 s).
Proof.
  intros fs argv.
  destruct (run fs (replicate 4 (Worker 0)) (launch ∅ argv)) as [s|] eqn:Hrun;
    [|by vm_compute in Hrun].
  vm_compute in Hrun. injection Hrun as <-.
  eexists. eexists. split; [reflexivity|]. split; [reflexivity|].
  split; [vm_compute; reflexivity|]. split; [reflexivity|].
  match goal with |- ∃ k, run _ _ ?s = _ =>
    pose proof (lone_worker_runs_process fs 0 "foo.c" s eq_refl eq_refl eq_refl) as H
  end.
  exact H.
Defined.
